(** * Lab_2_4_LR2: linear regression, evaluation metrics and one-hot encoding

    A shallow embedding of [src/Lab_2_4_LR2.py], in four parts: the
    program, the vocabulary in which its specification is stated, the
    proofs of the specification, and further properties of the program.

    - numpy [float64] values are Rocq's primitive binary64 floats, so that
      NaN, infinities and signed zeros behave as they do in the program;
      a sum adds its terms from left to right;
    - a 2-D array is a list of rows together with its column count (the
      count is what is left of the shape when there are no rows);
    - Python exceptions are values of [exn]; a method of [LinearRegressor]
      is a function from the world (the object, the global random generator
      and the standard output) to a result and a new world, and the world
      survives an exception;
    - [np.linalg.inv] belongs to the linear-algebra library and is a
      parameter of the model;
    - the array given to [one_hot_encode] holds Python objects, strings or
      numbers, and is known by reference: the arrays live in a heap, and
      the function allocates, reads and writes there. *)

From Stdlib Require Import ZArith List String Ascii Bool Lia Floats Uint63 Sorted.
From stdpp Require Import gmap strings list sorting.
Import ListNotations.

Local Open Scope nat_scope.

(** * Part I. The program *)

(** ** Python exceptions and results *)

Inductive exn : Type :=
| ValueError (msg : string)
| LinAlgError (msg : string)
| ZeroDivisionError
| IndexError
| TypeError.

Inductive res (A : Type) : Type :=
| Ok (a : A)
| Raise (e : exn).
Arguments Ok {A} a.
Arguments Raise {A} e.

Definition res_bind {A B} (r : res A) (k : A -> res B) : res B :=
  match r with
  | Ok a => k a
  | Raise e => Raise e
  end.

Definition is_raise {A} (r : res A) : Prop :=
  match r with Ok _ => False | Raise _ => True end.

(** ** The numpy layer *)

Module Np.

Definition vec := list float.

(** A 2-D array of shape [(length rows, ncols)]. *)
Record array2 (A : Type) : Type := Mat { ncols : nat; rows : list (list A) }.
Arguments Mat {A} ncols rows.
Arguments ncols {A} a.
Arguments rows {A} a.

(** A 2-D [float64] array. *)
Definition matrix : Type := array2 float.

Definition nrows {A} (M : array2 A) : nat := length (rows M).

(** Every numpy array is rectangular. *)
Definition rectangular {A} (M : array2 A) : Prop :=
  Forall (fun r => length r = ncols M) (rows M).

(** An argument that the program accepts as 1-D or 2-D. *)
Inductive ndarray : Type :=
| Arr1 (v : vec)
| Arr2 (M : matrix).

Definition ndim (X : ndarray) : nat :=
  match X with Arr1 _ => 1 | Arr2 _ => 2 end.

(** [X.reshape(-1, 1)] *)
Definition reshape_col (v : vec) : matrix :=
  Mat 1 (map (fun x => [x]) v).

(** [len] of a Python sequence converted to [float64], as numpy does when
    an array is divided by a Python [int]. *)
Definition float_of_nat (n : nat) : float :=
  PrimFloat.of_uint63 (Uint63.of_Z (Z.of_nat n)).

(** *** np.sum of a float64 array

    numpy adds a contiguous [float64] array pairwise. Fewer than 8 entries
    are added one after the other. Up to 128 entries are added in 8 lanes:
    the first 8 entries start the lanes, every further full group of 8 is
    added to them entry by entry, the lanes are added two by two, and the
    entries after the last full group are added one by one. A longer array
    is cut in two near its middle, at a multiple of 8, and the sums of the
    two parts are added. The reduction starts from the identity 0.0. *)

Definition sum_from (acc : float) (v : vec) : float :=
  fold_left PrimFloat.add v acc.

(** [groups] more groups of 8 added to the lanes [r]; what is left of [v]
    is returned with the lanes. *)
Fixpoint sum_lanes (groups : nat) (r v : vec) : vec * vec :=
  match groups with
  | 0 => (r, v)
  | S groups' => sum_lanes groups' (zip_with PrimFloat.add r (take 8 v)) (drop 8 v)
  end.

Definition add_lanes (r : vec) : float :=
  match r with
  | [r0; r1; r2; r3; r4; r5; r6; r7] =>
      (((r0 + r1) + (r2 + r3)) + ((r4 + r5) + (r6 + r7)))%float
  | _ => 0%float
  end.

(** The sum of a block of 8 to 128 entries. *)
Definition block_sum (v : vec) : float :=
  let '(r, rest) := sum_lanes (length v / 8 - 1) (take 8 v) (drop 8 v) in
  sum_from (add_lanes r) rest.

(** [depth] bounds the number of cuts; the length of the array is
    enough. *)
Fixpoint pairwise_sum (depth : nat) (v : vec) : float :=
  let n := length v in
  if n <? 8 then sum_from 0%float v
  else match depth with
       | S depth' =>
           if n <=? 128 then block_sum v
           else let n2 := n / 2 - (n / 2) mod 8 in
                (pairwise_sum depth' (take n2 v) + pairwise_sum depth' (drop n2 v))%float
       | 0 => block_sum v
       end.

(** [np.sum] *)
Definition np_sum (v : vec) : float :=
  (0 + pairwise_sum (length v) v)%float.

(** [np.mean] *)
Definition np_mean (v : vec) : float :=
  (np_sum v / float_of_nat (length v))%float.

(** [x ** 2] *)
Definition sq (x : float) : float := (x * x)%float.

(** Elementwise binary operation on two 1-D arrays with numpy's
    broadcasting: equal lengths, or one operand of length 1. *)
Definition broadcast2 {A} (f : A -> A -> A) (a b : list A) : res (list A) :=
  if length a =? length b then Ok (zip_with f a b)
  else match a, b with
       | [x], _ => Ok (map (f x) b)
       | _, [y] => Ok (map (fun x => f x y) a)
       | _, _ => Raise (ValueError "operands could not be broadcast together")
       end.

(** *** Element types

    An array given to [evaluate_regression] is a [float64] array or an
    [int64] array, and the same source line is another computation on
    each: on integers the differences, squares, absolute values and sums
    wrap around, and a division or a mean converts to [float64]. *)

(** The value a 64-bit signed integer operation keeps of its result. *)
Definition wrap64 (z : Z) : Z := ((z + 2 ^ 63) mod 2 ^ 64 - 2 ^ 63)%Z.

(** An integer converted to [float64]: the nearest float. *)
Definition float_of_Z (z : Z) : float :=
  SF2Prim (binary_normalize prec emax z 0 false).

Class Dtype (T : Type) : Type := {
  (** an entry of [a - b] *)
  subtract : T -> T -> T;
  (** an entry of [a ** 2] *)
  square : T -> T;
  (** an entry of [np.abs(a)] *)
  absolute : T -> T;
  (** [np.sum(a)] *)
  add_reduce : list T -> T;
  (** [np.mean(a)] *)
  mean : list T -> float;
  (** the value as an operand of a [float64] operation *)
  to_float64 : T -> float
}.

#[export] Instance float64 : Dtype float := {|
  subtract := PrimFloat.sub;
  square := sq;
  absolute := PrimFloat.abs;
  add_reduce := np_sum;
  mean := np_mean;
  to_float64 := fun x => x
|}.

(** [np.mean] of an integer array adds its entries as [float64] (numpy
    converts them in buffers of 8192 entries, which the sum follows; the
    model is that of an array of one buffer). *)
#[export] Instance int64 : Dtype Z := {|
  subtract := fun a b => wrap64 (a - b);
  square := fun a => wrap64 (a * a);
  absolute := fun a => wrap64 (Z.abs a);
  add_reduce := fun v => fold_left (fun a b => wrap64 (a + b)) v 0%Z;
  mean := fun v => (np_sum (map float_of_Z v) / float_of_nat (length v))%float;
  to_float64 := float_of_Z
|}.

Definition column (j : nat) (M : matrix) : vec :=
  map (fun r => nth j r 0%float) (rows M).

(** [M.T] *)
Definition transpose (M : matrix) : matrix :=
  Mat (nrows M) (map (fun j => column j M) (seq 0 (ncols M))).

(** *** Matrix products

    [A.dot(B)] on [float64] arrays is computed by the BLAS library numpy is
    linked with. In which order the library adds the products of a row and
    a column, and whether it rounds a product before adding it, differ from
    one library and one processor to the next: the program does not fix
    the last bits of a product. The model takes the two products the
    program uses as given, with the shapes numpy gives them. *)
Class Blas : Type := {
  (** the product of a 2-D and a 1-D array of aligned shapes *)
  mv : matrix -> vec -> vec;
  (** the product of two 2-D arrays of aligned shapes *)
  mm : matrix -> matrix -> matrix;
  length_mv : forall (A : matrix) (v : vec), length (mv A v) = nrows A;
  nrows_mm : forall A B : matrix, nrows (mm A B) = nrows A;
  ncols_mm : forall A B : matrix, ncols (mm A B) = ncols B;
  rectangular_mm : forall A B : matrix, rectangular (mm A B)
}.

Section Products.

Context {blas : Blas}.

(** [M.dot(v)] for a 2-D [M] and a 1-D [v]. *)
Definition dot_mv (M : matrix) (v : vec) : res vec :=
  if ncols M =? length v then Ok (mv M v)
  else Raise (ValueError "shapes not aligned").

(** [A.dot(B)] for 2-D [A] and [B]. *)
Definition dot_mm (A B : matrix) : res matrix :=
  if ncols A =? nrows B then Ok (mm A B)
  else Raise (ValueError "shapes not aligned").

End Products.

(** [np.insert(X, 0, 1, axis=1)] *)
Definition insert_ones (X : matrix) : matrix :=
  Mat (S (ncols X)) (map (cons 1%float) (rows X)).

(** [X[:, 1:]] *)
Definition drop_first_column (X : matrix) : matrix :=
  Mat (pred (ncols X)) (map (drop 1) (rows X)).

End Np.
Import Np.

(** ** LinearRegressor *)

Record LinearRegressor : Type := Regressor {
  coefficients : option vec;
  intercept : option float
}.

(** [LinearRegressor.__init__] *)
Definition init : LinearRegressor :=
  {| coefficients := None; intercept := None |}.

(** What a method can read and change: the object, numpy's global random
    generator (the stream of its draws in [[0,1)] and how many were taken)
    and the lines printed so far (the epoch and the printed array). *)
Record world : Type := World {
  self : LinearRegressor;
  rng : nat -> float;
  drawn : nat;
  stdout : list (nat * vec)
}.

(** A computation on a state [S] that returns or raises; the state survives
    an exception. *)
Definition SE (S A : Type) : Type := S -> res A * S.

Definition ret {S A} (a : A) : SE S A := fun s => (Ok a, s).
Definition raise {S A} (e : exn) : SE S A := fun s => (Raise e, s).
Definition bind {S A B} (c : SE S A) (k : A -> SE S B) : SE S B :=
  fun s => match c s with
           | (Ok a, s') => k a s'
           | (Raise e, s') => (Raise e, s')
           end.
Definition lift {S A} (r : res A) : SE S A := fun s => (r, s).

(** The methods of [LinearRegressor] run on the world. *)
Definition M (A : Type) : Type := SE world A.

Notation "x <- c ;; k" := (bind c (fun x => k))
  (at level 100, c at next level, right associativity).
Notation "c ;;; k" := (bind c (fun _ => k))
  (at level 100, right associativity).

(** ** Arrays by reference *)

(** A reference to an array. *)
Abbreviation loc := nat (only parsing).

(** A new array in the store [h] of the arrays that exist. *)
Definition alloc {A} (a : A) : SE (gmap loc A) loc := fun h =>
  let l := fresh (dom h) in (Ok l, <[l := a]> h).

(** The array behind a reference; a reference to nothing is not an array. *)
Definition load {A} (l : loc) : SE (gmap loc A) A := fun h =>
  match h !! l with
  | Some a => (Ok a, h)
  | None => (Raise TypeError, h)
  end.

Definition get_self : M LinearRegressor := fun w => (Ok (self w), w).

Definition set_coefficients (c : vec) : M unit := fun w =>
  (Ok tt, {| self := {| coefficients := Some c; intercept := intercept (self w) |};
             rng := rng w; drawn := drawn w; stdout := stdout w |}).

Definition set_intercept (b : float) : M unit := fun w =>
  (Ok tt, {| self := {| coefficients := coefficients (self w); intercept := Some b |};
             rng := rng w; drawn := drawn w; stdout := stdout w |}).

(** [np.random.rand(k)]: the next [k] draws. *)
Definition random_rand (k : nat) : M vec := fun w =>
  (Ok (map (rng w) (seq (drawn w) k)),
   {| self := self w; rng := rng w; drawn := drawn w + k; stdout := stdout w |}).

(** [print(f"Epoch {epoch}: MSE = {mse}")] *)
Definition print_epoch (epoch : nat) (mse : vec) : M unit := fun w =>
  (Ok tt, {| self := self w; rng := rng w; drawn := drawn w;
             stdout := stdout w ++ [(epoch, mse)] |}).

(** [for epoch in range(count)], counting from [epoch]. *)
Fixpoint for_range (body : nat -> M unit) (epoch count : nat) : M unit :=
  match count with
  | 0 => ret tt
  | S count' => body epoch ;;; for_range body (S epoch) count'
  end.

(** The literal [0.01] of the source: the binary64 value nearest to 1/100. *)
Definition c_0_01 : float := 0x1.47ae147ae147bp-7%float.

(** [learning_rate] as the caller passes it: a Python float, as the default
    0.01 is, or a numpy [float64]. The two differ when divided by the
    Python int 0: the first raises [ZeroDivisionError], the second gives an
    infinity or NaN (and a warning). *)
Inductive rate : Type :=
| PyFloat (x : float)
| NpFloat64 (x : float).

Coercion PyFloat : float >-> rate.

Definition rate_value (r : rate) : float :=
  match r with
  | PyFloat x | NpFloat64 x => x
  end.

(** [learning_rate / m] for a Python int [m]. *)
Definition rate_div (r : rate) (m : nat) : res float :=
  match r with
  | PyFloat x =>
      if m =? 0 then Raise ZeroDivisionError else Ok (x / float_of_nat m)%float
  | NpFloat64 x => Ok (x / float_of_nat m)%float
  end.

Definition not_fitted_msg : string := "Model is not yet fitted".

Definition method_msg (method : string) : string :=
  "Method " ++ method ++ " not available for training linear regression.".

Section Regressor.

Context {blas : Blas}.

(** [np.linalg.inv]; it raises [LinAlgError] on a singular matrix. *)
Variable linalg_inv : matrix -> res matrix.

(** [LinearRegressor.predict] *)
Definition predict (X : ndarray) : M vec :=
  s <- get_self ;;
  match coefficients s, intercept s with
  | Some coef, Some b =>
      let X2 := match X with
                | Arr1 v => reshape_col v
                | Arr2 X2 => X2
                end in
      p <- lift (dot_mv X2 coef) ;;
      ret (map (fun x => (x + b)%float) p)
  | _, _ => raise (ValueError not_fitted_msg)
  end.

(** [LinearRegressor.fit_multiple]; [X] already has its column of ones. *)
Definition fit_multiple (X : matrix) (y : vec) : M unit :=
  G <- lift (res_bind (dot_mm (transpose X) X) linalg_inv) ;;
  GXt <- lift (dot_mm G (transpose X)) ;;
  theta <- lift (dot_mv GXt y) ;;
  match theta with
  | [] => raise IndexError
  | t0 :: ts => set_intercept t0 ;;; set_coefficients ts
  end.

(** One pass of the loop of [fit_gradient_descent]; [m] is a Python
    int. *)
Definition gd_epoch (X : matrix) (y : vec) (learning_rate : rate)
    (m : nat) (epoch : nat) : M unit :=
  predictions <- predict (Arr2 (drop_first_column X)) ;;
  error <- lift (broadcast2 PrimFloat.sub predictions y) ;;
  scale <- lift (rate_div learning_rate m) ;;
  g <- lift (dot_mv (transpose X) error) ;;
  let gradient := map (PrimFloat.mul scale) g in
  match gradient with
  | [] => raise IndexError
  | g0 :: gs =>
      s <- get_self ;;
      match intercept s with
      | None => raise TypeError
      | Some b => set_intercept (b - g0)%float
      end ;;;
      s <- get_self ;;
      match coefficients s with
      | None => raise TypeError
      | Some coef =>
          if (length gs =? length coef) || (length gs =? 1)
          then c' <- lift (broadcast2 PrimFloat.sub coef gs) ;; set_coefficients c'
          else raise (ValueError "operands could not be broadcast together")
      end ;;;
      if epoch mod 1000 =? 0
      then print_epoch epoch (map (fun e => (sq e / float_of_nat m)%float) error)
      else ret tt
  end.

(** [LinearRegressor.fit_gradient_descent]; [X] already has its column of
    ones. *)
Definition fit_gradient_descent (X : matrix) (y : vec)
    (learning_rate : rate) (iterations : nat) : M unit :=
  let m := length y in
  (if ncols X =? 0 then raise (ValueError "negative dimensions are not allowed")
   else ret tt) ;;;
  r <- random_rand (ncols X - 1) ;;
  set_coefficients (map (fun u => (u * c_0_01)%float) r) ;;;
  u <- random_rand 1 ;;
  set_intercept (nth 0 u 0%float * c_0_01)%float ;;;
  for_range (gd_epoch X y learning_rate m) 0 iterations.

(** [LinearRegressor.fit] *)
Definition fit (X : ndarray) (y : vec) (method : string)
    (learning_rate : rate) (iterations : nat) : M unit :=
  if negb (String.eqb method "least_squares" || String.eqb method "gradient_descent")
  then raise (ValueError (method_msg method))
  else
    let X2 := match X with
              | Arr1 v => reshape_col v
              | Arr2 X2 => X2
              end in
    let X_with_bias := insert_ones X2 in
    if String.eqb method "least_squares" then fit_multiple X_with_bias y
    else if String.eqb method "gradient_descent"
         then fit_gradient_descent X_with_bias y learning_rate iterations
         else ret tt.

End Regressor.

(** ** evaluate_regression *)

(** [evaluate_regression] on two arrays of the element type [T]; the
    result is the dictionary it returns. *)
Definition evaluate_regression {T} `{Dtype T} (y_true y_pred : list T) :
    res (gmap string float) :=
  res_bind (broadcast2 subtract y_true y_pred) (fun d1 =>
  let ss_res := add_reduce (map square d1) in
  let y_mean := mean y_true in
  let ss_tot :=
    np_sum (map sq (map (fun v => (to_float64 v - y_mean)%float) y_true)) in
  let r_squared := (1 - to_float64 ss_res / ss_tot)%float in
  res_bind (broadcast2 subtract y_true y_pred) (fun d2 =>
  let rmse :=
    PrimFloat.sqrt (to_float64 (add_reduce (map square d2))
                    / float_of_nat (length y_true)) in
  res_bind (broadcast2 subtract y_true y_pred) (fun d3 =>
  let mae :=
    (to_float64 (add_reduce (map absolute d3)) / float_of_nat (length y_true))%float in
  Ok (<["R2"%string := r_squared]>
      (<["RMSE"%string := rmse]>
      (<["MAE"%string := mae]> (∅ : gmap string float))))))).

(** The call as the caller makes it, with two arrays held by reference:
    the function reads them, and every array it computes is a new one. *)
Definition evaluate_regression_at {T} `{Dtype T} (y_true y_pred : loc) :
    SE (gmap loc (list T)) (gmap string float) :=
  a <- load y_true ;;
  b <- load y_pred ;;
  lift (evaluate_regression a b).

(** ** one_hot_encode *)

(** An entry of the array given to [one_hot_encode]: a string or a
    number. *)
Inductive cell : Type :=
| CStr (s : string)
| CNum (x : float).

(** The element type of the array: [float64]; a string type, which
    [np.array] gives to a list of strings; or [object], whose entries are
    Python strings and floats, as in a table with columns of both. *)
Inductive dtype : Type :=
| Float64
| Str
| Object.

(** A 2-D array with its element type. In a [float64] array every entry
    is a number and in a string array every entry is a string. *)
Record tarray : Type := Typed { dtype_of : dtype; cells :> array2 cell }.

(** [a == b], as numpy compares two entries. *)
Definition cell_eqb (a b : cell) : bool :=
  match a, b with
  | CStr s, CStr t => String.eqb s t
  | CNum x, CNum y => (x =? y)%float
  | _, _ => false
  end.

Definition cell_is_nan (a : cell) : bool :=
  match a with
  | CNum x => is_nan x
  | CStr _ => false
  end.

(** The order in which a string array and a [float64] array are sorted:
    strings by code point, numbers by value with NaN last. *)
Definition cell_leb (a b : cell) : bool :=
  match a, b with
  | CStr s, CStr t => String.leb s t
  | CNum x, CNum y =>
      if is_nan y then true else if is_nan x then false else (x <=? y)%float
  | _, _ => false
  end.

(** The entries [np.unique] takes for one value: equal entries, and NaNs. *)
Definition cell_same (a b : cell) : bool :=
  cell_eqb a b || (cell_is_nan a && cell_is_nan b).

Definition same_type (a b : cell) : bool :=
  match a, b with
  | CStr _, CStr _ | CNum _, CNum _ => true
  | _, _ => false
  end.

(** The entries of a column are all strings or all numbers. *)
Definition homogeneous (col : list cell) : bool :=
  match col with
  | [] => true
  | c :: cs => forallb (same_type c) cs
  end.

Fixpoint insert_sorted (x : cell) (l : list cell) : list cell :=
  match l with
  | [] => [x]
  | u :: l' => if cell_leb x u then x :: l else u :: insert_sorted x l'
  end.

Definition insert_unique (l : list cell) (x : cell) : list cell :=
  if existsb (cell_same x) l then l else insert_sorted x l.

(** [a < b] on two Python objects of the same type; it is false when one
    of them is NaN. *)
Definition cell_ltb (a b : cell) : bool :=
  match a, b with
  | CStr s, CStr t => String.ltb s t
  | CNum x, CNum y => (x <? y)%float
  | _, _ => false
  end.

(** One step of the sort of an object array: the entry [x] moves left past
    the entries it is less than. [before] is the sorted part, its last
    entry first. *)
Fixpoint insert_back (x : cell) (before : list cell) : list cell :=
  match before with
  | [] => [x]
  | p :: before' => if cell_ltb x p then p :: insert_back x before' else x :: before
  end.

(** [ar.sort()] on an object array: the insertion sort numpy uses for up to
    16 entries, with Python's [<]. A longer array without NaN is sorted to
    the same order, up to the place of equal entries; with NaN, which is
    less than nothing and than which nothing is less, the array may stay
    unsorted. *)
Definition sort_objects (col : list cell) : list cell :=
  rev (fold_left (fun before x => insert_back x before) col []).

(** The entries that differ from [previous] and from the entry before
    them. *)
Fixpoint drop_repeats (previous : cell) (l : list cell) : list cell :=
  match l with
  | [] => []
  | x :: l' =>
      if cell_eqb x previous then drop_repeats x l' else x :: drop_repeats x l'
  end.

(** [aux[mask]] for [mask[:1] = True] and [mask[1:] = aux[1:] != aux[:-1]] *)
Definition unique_adjacent (aux : list cell) : list cell :=
  match aux with
  | [] => []
  | x :: l => x :: drop_repeats x l
  end.

(** [np.unique] of a column of an array of the type [dt]. A [float64] or
    string array is sorted with NaN last, and each value is kept once, all
    NaNs counting for one value. An object array is sorted with Python's
    [<], and an entry is kept when it differs from the entry before it:
    NaN is not moved to the end, and NaNs are not merged. Strings and
    numbers cannot be ordered with one another: [TypeError]. *)
Definition np_unique (dt : dtype) (col : list cell) : res (list cell) :=
  if homogeneous col then
    Ok (match dt with
        | Object => unique_adjacent (sort_objects col)
        | Float64 | Str => fold_left insert_unique col []
        end)
  else Raise TypeError.

(** [(categorical_column == category).astype(int)], stored in a float
    array. *)
Definition indicator (category v : cell) : cell :=
  if cell_eqb v category then CNum 1 else CNum 0.

(** [np.zeros((n, k))], a [float64] array. *)
Definition np_zeros (n k : nat) : tarray :=
  Typed Float64 (Mat k (repeat (repeat (CNum 0) k) n)).

(** [a[:, i] = v] *)
Definition set_column (i : nat) (v : list cell) (a : tarray) : tarray :=
  Typed (dtype_of a) (Mat (ncols a) (zip_with (fun r x => <[i := x]> r) (rows a) v)).

(** [a[:, j]] for an index in range. *)
Definition get_column (j : nat) (a : array2 cell) : list cell :=
  map (fun r => nth j r (CNum 0)) (rows a).

(** The position an index denotes in a dimension of length [len]; Python
    counts a negative index from the end. *)
Definition index_position (len : nat) (i : Z) : res nat :=
  if ((0 <=? i) && (i <? Z.of_nat len))%Z then Ok (Z.to_nat i)
  else if ((i <? 0) && (- Z.of_nat len <=? i))%Z then Ok (Z.to_nat (i + Z.of_nat len))
  else Raise IndexError.

(** The position at which a slice bound cuts a dimension of length [len]. *)
Definition slice_bound (len : nat) (i : Z) : nat :=
  if (i <? 0)%Z then Z.to_nat (i + Z.of_nat len)
  else Nat.min (Z.to_nat i) len.

(** [a[:, :i]] *)
Definition columns_before (i : Z) (a : tarray) : tarray :=
  let k := slice_bound (ncols a) i in
  Typed (dtype_of a) (Mat k (map (take k) (rows a))).

(** [a[:, i:]] *)
Definition columns_from (i : Z) (a : tarray) : tarray :=
  let k := slice_bound (ncols a) i in
  Typed (dtype_of a) (Mat (ncols a - k) (map (drop k) (rows a))).

(** The element type of an array that takes the entries of arrays of the
    types [a] and [b]: numbers next to strings become strings, and
    anything next to objects an object. *)
Definition result_type (a b : dtype) : dtype :=
  match a, b with
  | Object, _ | _, Object => Object
  | Str, _ | _, Str => Str
  | Float64, Float64 => Float64
  end.

(** The string a float becomes in a string array, for the two floats that
    [one_hot_encode] stores in one: the indicators 1.0 and 0.0. *)
Definition indicator_text (x : float) : string :=
  if (x =? 1)%float then "1.0" else "0.0".

(** An entry of an array of the type [from] as an entry of an array of the
    type [to]. *)
Definition cast (from to : dtype) (c : cell) : cell :=
  match from, to, c with
  | Float64, Str, CNum x => CStr (indicator_text x)
  | _, _, _ => c
  end.

(** [np.hstack((a, b, c))]: the rows side by side, every entry in the
    element type of the result. *)
Definition hstack (a b c : tarray) : res tarray :=
  if (nrows a =? nrows b) && (nrows b =? nrows c)
  then
    let dt := result_type (result_type (dtype_of a) (dtype_of b)) (dtype_of c) in
    let entries (p : tarray) := map (map (cast (dtype_of p) dt)) (rows p) in
    Ok (Typed dt
          (Mat (ncols a + ncols b + ncols c)
               (zip_with (fun r t => r ++ t)
                         (zip_with (fun r t => r ++ t) (entries a) (entries b))
                         (entries c))))
  else Raise (ValueError "all the input array dimensions must match").

Fixpoint insert_desc (x : Z) (l : list Z) : list Z :=
  match l with
  | [] => [x]
  | u :: l' => if (u <=? x)%Z then x :: l else u :: insert_desc x l'
  end.

(** [sorted(l, reverse=True)] *)
Definition sorted_reverse (l : list Z) : list Z :=
  fold_right insert_desc [] l.

(** *** The arrays in memory *)

(** The arrays that exist, by reference. *)
Abbreviation heap := (gmap loc tarray) (only parsing).

(** [one_hot[:, i] = v], in place. *)
Definition store_column (l : loc) (i : nat) (v : list cell) : SE heap unit :=
  a <- load (A := tarray) l ;;
  fun h => (Ok tt, <[l := set_column i v a]> h).

(** [for i, category in enumerate(unique_values): one_hot[:, i] = ...],
    counting from [i]. *)
Fixpoint fill_columns (one_hot : loc) (categorical_column : list cell)
    (i : nat) (unique_values : list cell) : SE heap unit :=
  match unique_values with
  | [] => ret tt
  | category :: rest =>
      store_column one_hot i (map (indicator category) categorical_column) ;;;
      fill_columns one_hot categorical_column (S i) rest
  end.

(** The body of the loop of [one_hot_encode]; it returns the new
    [X_transformed]. *)
Definition encode_column (X : loc) (drop_first : bool) (X_transformed : loc)
    (index : Z) : SE heap loc :=
  x <- load (A := tarray) X ;;
  j <- lift (index_position (ncols x) index) ;;
  let categorical_column := get_column j x in
  unique_values <- lift (np_unique (dtype_of x) categorical_column) ;;
  one_hot <- alloc (np_zeros (length categorical_column) (length unique_values)) ;;
  fill_columns one_hot categorical_column 0 unique_values ;;;
  oh <- load (A := tarray) one_hot ;;
  let oh := if drop_first then columns_from 1 oh else oh in
  t <- load (A := tarray) X_transformed ;;
  r <- lift (hstack (columns_before index t) oh (columns_from (index + 1) t)) ;;
  alloc r.

Fixpoint encode_columns (X : loc) (drop_first : bool) (X_transformed : loc)
    (indices : list Z) : SE heap loc :=
  match indices with
  | [] => ret X_transformed
  | index :: rest =>
      X_transformed' <- encode_column X drop_first X_transformed index ;;
      encode_columns X drop_first X_transformed' rest
  end.

(** [one_hot_encode]; [X] is the reference the caller holds, the result is
    the reference returned. *)
Definition one_hot_encode (X : loc) (categorical_indices : list Z)
    (drop_first : bool) : SE heap loc :=
  x <- load (A := tarray) X ;;
  X_transformed <- alloc x ;;
  encode_columns X drop_first X_transformed (sorted_reverse categorical_indices).

(** * Part II. The vocabulary of the specification *)

(** ** Fitting *)

(** A reference inverse for matrices of at most two rows (the cofactor
    formula), to run the model on concrete inputs; it raises [LinAlgError]
    when the determinant is zero, as [np.linalg.inv] does. *)
Definition inv_small (A : matrix) : res matrix :=
  match rows A with
  | [[a]] =>
      if (a =? 0)%float then Raise (LinAlgError "Singular matrix")
      else Ok (Mat 1 [[(1 / a)%float]])
  | [[a; b]; [c; d]] =>
      let det := (a * d - b * c)%float in
      if (det =? 0)%float then Raise (LinAlgError "Singular matrix")
      else Ok (Mat 2 [[(d / det)%float; (- b / det)%float];
                      [(- c / det)%float; (a / det)%float]])
  | _ => Raise (LinAlgError "Last 2 dimensions of the array must be square")
  end.

(** A reference for the matrix products, to run the model on concrete
    inputs: every product of two entries is rounded, and the products of a
    row and a column are added from left to right. Where an example below
    states the values of a product, every operation in it is exact, and
    every library gives those values. *)
Definition dot_vv (a b : vec) : float :=
  fold_left PrimFloat.add (zip_with PrimFloat.mul a b) 0%float.

Definition in_order : Blas := {|
  mv := fun A v => map (fun r => dot_vv r v) (rows A);
  mm := fun A B =>
    Mat (ncols B)
        (map (fun r => map (fun c => dot_vv r c) (rows (transpose B))) (rows A));
  length_mv := fun A v => length_map (fun r => dot_vv r v) (rows A);
  nrows_mm := fun A B =>
    length_map (fun r => map (fun c => dot_vv r c) (rows (transpose B))) (rows A);
  ncols_mm := fun A B => eq_refl;
  rectangular_mm := fun A B =>
    proj2 (Forall_map _ _ (rows A))
      (Forall_true _ (rows A)
         (fun r =>
            eq_trans (length_map (fun c => dot_vv r c) (rows (transpose B)))
              (eq_trans (length_map (fun j => column j B) (seq 0 (ncols B)))
                        (length_seq (ncols B) 0))))
|}.

Section Fitting.

Context {blas : Blas}.

(** The Gram matrix [Xb^T Xb]. *)
Definition gram (Xb : matrix) : matrix := mm (transpose Xb) Xb.

(** [G Xb^T y], the solution of the normal equation when [G] is the inverse
    of the Gram matrix. *)
Definition normal_equation_solution (G Xb : matrix) (y : vec) : vec :=
  mv (mm G (transpose Xb)) y.

(** [X . coefficients + intercept], one value per row. *)
Definition linear_predictor (X : matrix) (coef : vec) (b : float) : vec :=
  map (fun p => (p + b)%float) (mv X coef).

End Fitting.

(** The world after a method stored [coef] and [b] in the object. *)
Definition with_params (w : world) (coef : vec) (b : float) : world :=
  {| self := {| coefficients := Some coef; intercept := Some b |};
     rng := rng w; drawn := drawn w; stdout := stdout w |}.

(** The 2-D array [predict] works on: a 1-D argument becomes one column. *)
Definition as_matrix (X : ndarray) : matrix :=
  match X with
  | Arr1 v => reshape_col v
  | Arr2 X2 => X2
  end.

(** ** Gradient descent *)

(** The fitted parameters: the coefficients and the intercept. *)
Definition params : Type := (vec * float)%type.

(** The world after [fit_gradient_descent] drew its initial parameters. *)
Definition gd_init_params (w : world) (p : nat) : params :=
  (map (fun u => (u * c_0_01)%float) (map (rng w) (seq (drawn w) p)),
   (rng w (drawn w + p) * c_0_01)%float).

Definition gd_init_world (w : world) (p : nat) : world :=
  {| self := {| coefficients := Some (fst (gd_init_params w p));
                intercept := Some (snd (gd_init_params w p)) |};
     rng := rng w; drawn := drawn w + p + 1; stdout := stdout w |}.

(** [a - b] on 1-D arrays when broadcasting succeeds. *)
Definition bsub (a b : vec) : vec :=
  match broadcast2 PrimFloat.sub a b with
  | Ok v => v
  | Raise _ => []
  end.

Section GradientDescent.

Context {blas : Blas}.

(** The features (without the column of ones), the targets, the rate. *)
Variables (X : matrix) (y : vec) (lr : rate).

(** error = predictions - y *)
Definition gd_error (p : params) : vec :=
  zip_with PrimFloat.sub (linear_predictor X (fst p) (snd p)) y.

(** g = (learning_rate / n) Xb^T error *)
Definition gd_gradient (p : params) : vec :=
  map (PrimFloat.mul (rate_value lr / float_of_nat (nrows X))%float)
      (mv (transpose (insert_ones X)) (gd_error p)).

(** intercept -= g[0]; coefficients -= g[1:] *)
Definition gd_step (p : params) : params :=
  let g := gd_gradient p in
  (zip_with PrimFloat.sub (fst p) (drop 1 g), (snd p - nth 0 g 0%float)%float).

(** The lines printed by [count] epochs from [epoch] on, starting with the
    parameters [p]: one every 1000th epoch, with the squared errors of that
    epoch divided by [n]. *)
Fixpoint gd_log (epoch count : nat) (p : params) : list (nat * vec) :=
  match count with
  | 0 => []
  | S count' =>
      (if epoch mod 1000 =? 0
       then [(epoch, map (fun e => (sq e / float_of_nat (nrows X))%float) (gd_error p))]
       else [])
      ++ gd_log (S epoch) count' (gd_step p)
  end.

(** The same step as the loop body computes it: the subtraction of [y]
    broadcasts, and the rate is divided by [len(y)]. *)
Definition gd_error_b (p : params) : vec :=
  bsub (linear_predictor X (fst p) (snd p)) y.

Definition gd_step_b (p : params) : params :=
  let g := map (PrimFloat.mul (rate_value lr / float_of_nat (length y))%float)
               (mv (transpose (insert_ones X)) (gd_error_b p)) in
  (zip_with PrimFloat.sub (fst p) (drop 1 g), (snd p - nth 0 g 0%float)%float).

Fixpoint gd_log_b (epoch count : nat) (p : params) : list (nat * vec) :=
  match count with
  | 0 => []
  | S count' =>
      (if epoch mod 1000 =? 0
       then [(epoch, map (fun e => (sq e / float_of_nat (length y))%float) (gd_error_b p))]
       else [])
      ++ gd_log_b (S epoch) count' (gd_step_b p)
  end.

(** The rate can be divided by [m]. *)
Definition divides (m : nat) : bool :=
  match lr with
  | PyFloat _ => negb (m =? 0)
  | NpFloat64 _ => true
  end.

(** The shapes with which an epoch runs to its end: the rate can be
    divided by [len(y)], and [y] has one entry per row of [X] or a single
    entry. *)
Definition gd_shapes_ok : bool :=
  divides (length y) && ((nrows X =? length y) || (length y =? 1)).

(** The world after an epoch that started with the parameters [p]. *)
Definition after_epoch (epoch : nat) (p : params) (w : world) : world :=
  {| self := {| coefficients := Some (fst (gd_step_b p));
                intercept := Some (snd (gd_step_b p)) |};
     rng := rng w; drawn := drawn w;
     stdout := stdout w ++ gd_log_b epoch 1 p |}.

(** The world [count] epochs after [w], the first being numbered [epoch]
    and starting with the parameters [p]. *)
Definition after_epochs (epoch count : nat) (p : params) (w : world) : world :=
  {| self := {| coefficients := Some (fst (Nat.iter count gd_step_b p));
                intercept := Some (snd (Nat.iter count gd_step_b p)) |};
     rng := rng w; drawn := drawn w;
     stdout := stdout w ++ gd_log_b epoch count p |}.

End GradientDescent.

Section Calls.

Context {blas : Blas}.

(** What C2 says of a call of [fit] with "gradient_descent": it returns,
    and the parameters left in the object are those of [it] steps from the
    random initial parameters. *)
Definition runs_every_epoch (linalg_inv : matrix -> res matrix)
    (X : matrix) (y : vec) (lr : rate) (it : nat) (w : world) : Prop :=
  let r := fit linalg_inv (Arr2 X) y "gradient_descent" lr it w in
  let p := Nat.iter it (gd_step X y lr) (gd_init_params w (ncols X)) in
  fst r = Ok tt
  /\ self (snd r) = {| coefficients := Some (fst p); intercept := Some (snd p) |}.

(** What C3 says of a call of [fit]: if it raises, the object holds the
    intercept and the coefficients it held before. *)
Definition failure_keeps_parameters (linalg_inv : matrix -> res matrix)
    (X : ndarray) (y : vec) (method : string) (lr : rate) (it : nat)
    (w : world) : Prop :=
  is_raise (fst (fit linalg_inv X y method lr it w)) ->
  self (snd (fit linalg_inv X y method lr it w)) = self w.

End Calls.

(** ** The metrics *)

(** [s] is a sum of the entries of [v] in binary64: the entries are added
    in some order and grouping, every addition rounded; the sum of no entry
    is 0.0. A specification that writes a sum and fixes no order asks for
    no more. *)
Inductive float_sum : vec -> float -> Prop :=
| float_sum_nil : float_sum [] 0%float
| float_sum_one (x : float) : float_sum [x] x
| float_sum_add (v1 v2 : vec) (s1 s2 : float) :
    float_sum v1 s1 -> float_sum v2 s2 -> float_sum (v1 ++ v2) (s1 + s2)%float
| float_sum_perm (v1 v2 : vec) (s : float) :
    Permutation v1 v2 -> float_sum v1 s -> float_sum v2 s.

(** The sum of integers. *)
Definition Z_sum (v : list Z) : Z := fold_right Z.add 0%Z v.

(** What C6 says of the two errors of integer arrays: the root of the mean
    of the squared differences and the mean of the absolute differences,
    the integers being integers. *)
Definition integer_errors_as_stated (y_true y_pred : list Z) : Prop :=
  let n := float_of_nat (length y_true) in
  exists m : gmap string float,
    evaluate_regression y_true y_pred = Ok m
    /\ m !! "RMSE"%string
       = Some (PrimFloat.sqrt
                 (float_of_Z (Z_sum (zip_with (fun a b => ((a - b) * (a - b))%Z)
                                               y_true y_pred)) / n))
    /\ m !! "MAE"%string
       = Some (float_of_Z (Z_sum (zip_with (fun a b => Z.abs (a - b)) y_true y_pred))
               / n)%float.

(** The sum of the squares of [y_true - y_pred]. *)
Definition sum_sq_residuals (y_true y_pred : vec) : float :=
  np_sum (zip_with (fun a b => sq (a - b)%float) y_true y_pred).

(** The sum of the squares of [y_true - mean(y_true)]. *)
Definition sum_sq_total (y_true : vec) : float :=
  np_sum (map (fun a => sq (a - np_mean y_true)%float) y_true).

Definition r2_score (y_true y_pred : vec) : float :=
  (1 - sum_sq_residuals y_true y_pred / sum_sq_total y_true)%float.

Definition rmse_score (y_true y_pred : vec) : float :=
  PrimFloat.sqrt (sum_sq_residuals y_true y_pred / float_of_nat (length y_true)).

Definition mae_score (y_true y_pred : vec) : float :=
  (np_sum (zip_with (fun a b => PrimFloat.abs (a - b)) y_true y_pred)
   / float_of_nat (length y_true))%float.

(** The dictionary [{"R2": r2, "RMSE": rmse, "MAE": mae}]. *)
Definition metrics (r2 rmse mae : float) : gmap string float :=
  <["R2"%string := r2]> (<["RMSE"%string := rmse]> (<["MAE"%string := mae]> ∅)).

(** What C7 says of [evaluate_regression(y, y)]. *)
Definition perfect_scores (y : vec) : Prop :=
  evaluate_regression y y = Ok (metrics 1 0 0).

(** ** The encoded array *)

(** How many entries of [l] are equal to [v]. *)
Definition count_eq (v : cell) (l : list cell) : nat :=
  length (filter (fun c => cell_eqb v c = true) l).

(** Every value occurs at most once in [l]. *)
Definition each_once (l : list cell) : Prop :=
  forall v, count_eq v l <= 1.

(** The number in an entry. *)
Definition cell_num (c : cell) : float :=
  match c with
  | CNum x => x
  | CStr _ => nan
  end.

(** The indicator entries of a row whose entry in the column is [v], one
    for every value of [u]. *)
Definition indicator_row (u : list cell) (v : cell) : list cell :=
  map (fun category => indicator category v) u.

(** The sum of the entries of a block of one row, added from left to
    right (for entries 0.0 and 1.0 every order gives the same sum). *)
Definition row_sum (block : list cell) : float :=
  fold_left PrimFloat.add (map cell_num block) 0%float.

(** The array [one_hot] once its columns are filled. *)
Definition one_hot_block (col u : list cell) : tarray :=
  Typed Float64 (Mat (length u) (map (indicator_row u) col)).

(** The array after [fill_columns]. *)
Fixpoint fill_value (col : list cell) (i : nat) (u : list cell)
    (a : tarray) : tarray :=
  match u with
  | [] => a
  | category :: rest =>
      fill_value col (S i) rest (set_column i (map (indicator category) col) a)
  end.

(** The new [X_transformed] of one pass of the loop, from the array [x]
    behind [X] and the array [t] behind the old [X_transformed]. *)
Definition encoded_column (x : tarray) (drop_first : bool)
    (t : tarray) (index : Z) : res tarray :=
  res_bind (index_position (ncols x) index) (fun j =>
  let col := get_column j x in
  res_bind (np_unique (dtype_of x) col) (fun u =>
  let oh := one_hot_block col u in
  hstack (columns_before index t)
         (if drop_first then columns_from 1 oh else oh)
         (columns_from (index + 1) t))).

Fixpoint encoded_columns (x : tarray) (drop_first : bool)
    (t : tarray) (indices : list Z) : res tarray :=
  match indices with
  | [] => Ok t
  | index :: rest =>
      res_bind (encoded_column x drop_first t index) (fun t' =>
      encoded_columns x drop_first t' rest)
  end.

(** The array [one_hot_encode] returns for the array [x]. *)
Definition encoded (x : tarray) (categorical_indices : list Z)
    (drop_first : bool) : res tarray :=
  encoded_columns x drop_first x (sorted_reverse categorical_indices).

(** What a run from [h] may have done, for a caller who knows the arrays of
    [h0], all still in [h]: the arrays of [h] are as they were, and the
    result, if any, is an array that [h0] did not have and that holds [b]. *)
Definition refines (h0 h : heap) (out : res loc * heap)
    (b : res tarray) : Prop :=
  h ⊆ snd out
  /\ match b with
     | Ok a => exists l, fst out = Ok l /\ h0 !! l = None /\ snd out !! l = Some a
     | Raise e => fst out = Raise e
     end.

(** The array of the scenario of C9, as [np.array] builds it from the list
    of lists of strings: a string array. *)
Definition colours : tarray :=
  Typed Str (Mat 1 [[CStr "red"]; [CStr "blue"]; [CStr "red"]]).

(** The same entries in an object array. *)
Definition colours_as_objects : tarray :=
  Typed Object (Mat 1 [[CStr "red"]; [CStr "blue"]; [CStr "red"]]).

(** What C9 says of the call on the array behind [X]: an array of two
    columns whose rows are the numbers [0,1], [1,0], [0,1]. *)
Definition colours_output_as_stated (X : loc) (h : heap) : Prop :=
  exists (l : loc) (y : tarray),
    fst (one_hot_encode X [0%Z] false h) = Ok l
    /\ snd (one_hot_encode X [0%Z] false h) !! l = Some y
    /\ ncols y = 2
    /\ rows y = [[CNum 0; CNum 1]; [CNum 1; CNum 0]; [CNum 0; CNum 1]].

(** The block that replaces the entry [v] of a row: one indicator for every
    value of [u], the first dropped on request. *)
Definition inserted_block (u : list cell) (drop_first : bool) (v : cell) : list cell :=
  if drop_first then drop 1 (indicator_row u v) else indicator_row u v.

(** A block as an array of the type [dt] holds it: the numbers 1.0 and 0.0
    in a [float64] or object array, the strings "1.0" and "0.0" in a
    string array. *)
Definition stored (dt : dtype) (block : list cell) : list cell :=
  map (cast Float64 dt) block.

(** The text of an indicator: "1.0" for the number 1.0 and "0.0" for the
    number 0.0. *)
Definition as_text (e : cell) : cell :=
  if cell_eqb e (CNum 1) then CStr "1.0" else CStr "0.0".

(** The number of columns of the block. *)
Definition block_width (u : list cell) (drop_first : bool) : nat :=
  if drop_first then length u - 1 else length u.

(** The entries of an output row in the inserted columns. *)
Definition inserted (c k : nat) (row : list cell) : list cell :=
  take k (drop c row).

(** [v] is the first of the unique values, the one [drop_first] drops. *)
Definition reference_category (u : list cell) (v : cell) : bool :=
  match u with
  | c0 :: _ => cell_eqb v c0
  | [] => false
  end.

(** What C8 says without [drop_first]: in the array returned for the column
    [c], whose unique values are [u], the inserted columns of every row sum
    to 1.0. *)
Definition every_row_sums_to_one (X : loc) (h : heap) (c : nat) (u : list cell) : Prop :=
  forall (l : loc) (y : tarray) (row : list cell),
    fst (one_hot_encode X [Z.of_nat c] false h) = Ok l ->
    snd (one_hot_encode X [Z.of_nat c] false h) !! l = Some y ->
    In row (rows y) ->
    row_sum (inserted c (length u) row) = 1%float.

Definition is_str (c : cell) : bool :=
  match c with
  | CStr _ => true
  | CNum _ => false
  end.

(** Each entry is at most the next one. *)
Definition ascending (l : list cell) : Prop :=
  Sorted (fun a b => cell_leb a b = true) l.

(** [sorted(l, reverse=True)] has the entries of [l], the largest first. *)
Definition descending (l : list Z) : Prop :=
  StronglySorted (fun a b => (b < a)%Z) l.

(** Two entries that Python can order and that are ordered as numbers are:
    both strings, or both numbers other than NaN. *)
Definition comparable (a b : cell) : Prop :=
  is_str a = is_str b /\ cell_is_nan a = false /\ cell_is_nan b = false.

(** Every two entries are comparable. *)
Definition all_comparable (l : list cell) : Prop :=
  forall a b, In a l -> In b l -> comparable a b.

(** No entry of the column is NaN. *)
Definition no_nan (col : list cell) : Prop :=
  Forall (fun v => cell_is_nan v = false) col.

(** The columns whose unique values are sorted and each kept once: every
    column of a [float64] or string array, and a column without NaN of an
    object array. *)
Definition sortable (dt : dtype) (col : list cell) : Prop :=
  dt = Object -> no_nan col.

Section Expansion.

Variables (x : tarray) (drop_first : bool).

(** The unique values of column [j] of [x]. *)
Definition uniques (j : nat) : list cell :=
  match np_unique (dtype_of x) (get_column j x) with
  | Ok u => u
  | Raise _ => []
  end.

(** Column [j] is one of the columns to encode. *)
Definition encodes (L : list Z) (j : nat) : bool :=
  existsb (Z.eqb (Z.of_nat j)) L.

(** What the entry [v] of column [j] becomes. *)
Definition expand_entry (L : list Z) (j : nat) (v : cell) : list cell :=
  if encodes L j
  then stored (dtype_of x) (inserted_block (uniques j) drop_first v)
  else [v].

(** What the entries [r] of the columns [j], [j+1], ... become. *)
Fixpoint expand_from (L : list Z) (j : nat) (r : list cell) : list cell :=
  match r with
  | [] => []
  | v :: r' => expand_entry L j v ++ expand_from L (S j) r'
  end.

(** The number of columns that [len] columns from [j] on become. *)
Fixpoint span (L : list Z) (j len : nat) : nat :=
  match len with
  | 0 => 0
  | S len' =>
      (if encodes L j then block_width (uniques j) drop_first else 1)
      + span L (S j) len'
  end.

End Expansion.

(** ** Outcomes *)

(** [np.linalg.inv] returns an array of the shape of its argument. *)
Definition inverse_keeps_shape (linalg_inv : matrix -> res matrix) : Prop :=
  forall A G, rectangular A -> linalg_inv A = Ok G ->
    nrows G = nrows A /\ ncols G = ncols A.

(** The world [w] with another object in it. *)
Definition with_self (w : world) (s : LinearRegressor) : world :=
  {| self := s; rng := rng w; drawn := drawn w; stdout := stdout w |}.

(** The epochs of [range(count)] in which the loop of
    [fit_gradient_descent] prints. *)
Definition printing_epochs (count : nat) : list nat :=
  List.filter (fun epoch => epoch mod 1000 =? 0) (seq 0 count).

(** [v1] and [v2] are equal to the same entries of [u]. *)
Definition same_matches (u : list cell) (v1 v2 : cell) : Prop :=
  Forall (fun category => cell_eqb v1 category = cell_eqb v2 category) u.

(** What the caller of [one_hot_encode] gets: the array behind the
    reference returned, or the exception. *)
Definition returned (out : res loc * heap) : res (option tarray) :=
  match fst out with
  | Ok l => Ok (snd out !! l)
  | Raise e => Raise e
  end.

(** ** Floats *)

(** NaN, or a value whose sign bit is clear. *)
Definition sign_clear (a : spec_float) : Prop :=
  match a with
  | S754_nan => True
  | S754_zero s | S754_infinity s | S754_finite s _ _ => s = false
  end.

(** A positive number: finite and not zero, or [+inf]. *)
Definition positive_number (r : spec_float) : Prop :=
  match r with
  | S754_finite false _ _ | S754_infinity false => True
  | _ => False
  end.

(** The place of a number in the order of the floats: the sign class, then
    the exponent and the mantissa, both counted downwards for a negative
    number. *)
Definition rank (a : spec_float) : Z * Z * Z :=
  match a with
  | S754_zero _ | S754_nan => (0, 0, 0)%Z
  | S754_infinity false => (2, 0, 0)%Z
  | S754_infinity true => (-2, 0, 0)%Z
  | S754_finite false m e => (1, e, Zpos m)%Z
  | S754_finite true m e => (-1, - e, Zneg m)%Z
  end.

(** The lexicographic order of the ranks. *)
Definition rank_le (p q : Z * Z * Z) : Prop :=
  (fst (fst p) < fst (fst q)
   \/ (fst (fst p) = fst (fst q)
       /\ (snd (fst p) < snd (fst q)
           \/ (snd (fst p) = snd (fst q) /\ snd p <= snd q))))%Z.

(** Zeros taken for one value. *)
Definition unsigned_zero (a : spec_float) : spec_float :=
  match a with
  | S754_zero _ => S754_zero false
  | _ => a
  end.

(** * Part III. Proofs *)

(** ** Facts of binary64 arithmetic *)

Module FloatFacts.

(** A float that is neither NaN nor infinite is a zero or a finite
    number. *)
Lemma finite_cases (x : float) :
  is_finite x = true ->
  (exists s, Prim2SF x = S754_zero s) \/ (exists s m e, Prim2SF x = S754_finite s m e).
Proof.
  unfold is_finite, is_nan, is_infinity. rewrite !FloatAxioms.eqb_spec, FloatAxioms.abs_spec.
  destruct (Prim2SF x) as [s|s| |s m e] eqn:E; intros H.
  - left. now exists s.
  - exfalso. change (Prim2SF infinity) with (S754_infinity false) in H.
    destruct s; discriminate H.
  - discriminate H.
  - right. now exists s, m, e.
Qed.

(** [x - x] is [+0] for every finite [x]. *)
Lemma sub_diag (x : float) : is_finite x = true -> (x - x)%float = 0%float.
Proof.
  intros H. apply Prim2SF_inj. rewrite FloatAxioms.sub_spec.
  change (Prim2SF 0) with (S754_zero false).
  destruct (finite_cases x H) as [[s ->]|(s & m & e & ->)].
  - now destruct s.
  - unfold SF64sub, SFsub. rewrite Z.min_id. unfold shl_align.
    rewrite Z.sub_diag. reflexivity.
Qed.

(** [0 / d] is a zero when [d] is a number other than zero. *)
Lemma zero_div (d : float) :
  is_nan d = false -> (d =? 0)%float = false ->
  (0 / d)%float = 0%float \/ (0 / d)%float = (-0)%float.
Proof.
  unfold is_nan. rewrite !FloatAxioms.eqb_spec. change (Prim2SF 0) with (S754_zero false).
  intros Hnan Hz.
  assert (H : exists s, Prim2SF (0 / d) = S754_zero s).
  { rewrite FloatAxioms.div_spec. change (Prim2SF 0) with (S754_zero false).
    destruct (Prim2SF d) as [s|s| |s m e]; try discriminate.
    - now exists (xorb false s).
    - now exists (xorb false s). }
  destruct H as [[|] H]; [right | left]; apply Prim2SF_inj; now rewrite H.
Qed.

(** [1 - 0 / d] is [1] when [d] is a number other than zero. *)
Lemma one_minus_zero_div (d : float) :
  is_nan d = false -> (d =? 0)%float = false -> (1 - 0 / d)%float = 1%float.
Proof.
  intros Hnan Hz. destruct (zero_div d Hnan Hz) as [-> | ->]; reflexivity.
Qed.

Local Open Scope Z_scope.

(** *** Conversion of a positive integer

    [of_uint63] rounds its argument to 53 bits; the lemmas below follow the
    rounding of the specification to show that a positive integer never
    becomes zero or negative. *)

Lemma iter_pos_nat {A} (f : A -> A) (k : positive) :
  forall x, SpecFloat.iter_pos f k x = Nat.iter (Pos.to_nat k) f x.
Proof.
  induction k as [k IH|k IH|]; intros x; cbn [SpecFloat.iter_pos].
  - rewrite !IH, Pos2Nat.inj_xI.
    replace (S (2 * Pos.to_nat k)) with (Pos.to_nat k + S (Pos.to_nat k))%nat by lia.
    now rewrite Nat.iter_add, Nat.iter_succ_r.
  - rewrite !IH, Pos2Nat.inj_xO.
    replace (2 * Pos.to_nat k)%nat with (Pos.to_nat k + Pos.to_nat k)%nat by lia.
    now rewrite Nat.iter_add.
  - reflexivity.
Qed.

Lemma shr_m_shr_1 (r : shr_record) :
  0 <= shr_m r -> shr_m (shr_1 r) = shr_m r / 2.
Proof.
  destruct r as [m b s]. cbn [shr_m shr_1]. intros H.
  destruct m as [|[p|p|]|p]; cbn [shr_m]; try lia; try reflexivity.
  - change (Z.pos p~1) with (2 * Z.pos p + 1). Z.div_mod_to_equations. lia.
  - change (Z.pos p~0) with (2 * Z.pos p). Z.div_mod_to_equations. lia.
Qed.

Lemma shr_m_iter (n : nat) (r : shr_record) :
  0 <= shr_m r -> shr_m (Nat.iter n shr_1 r) = shr_m r / 2 ^ Z.of_nat n.
Proof.
  intros H. induction n as [|n IH].
  - cbn. now rewrite Z.div_1_r.
  - cbn [Nat.iter nat_rect]. fold (Nat.iter n shr_1 r).
    rewrite shr_m_shr_1, IH.
    + rewrite Nat2Z.inj_succ, Z.pow_succ_r by lia.
      rewrite Z.div_div by lia. f_equal. lia.
    + rewrite IH. apply Z.div_pos; lia.
Qed.

Lemma digits2_pos_lower (m : positive) :
  2 ^ (Zpos (digits2_pos m) - 1) <= Zpos m.
Proof.
  induction m as [m IH|m IH|]; cbn [digits2_pos].
  - rewrite Pos2Z.inj_succ. change (Z.pos m~1) with (2 * Z.pos m + 1).
    replace (Z.succ (Z.pos (digits2_pos m)) - 1) with (Z.succ (Z.pos (digits2_pos m) - 1)) by lia.
    rewrite Z.pow_succ_r by lia.
    revert IH. generalize (2 ^ (Z.pos (digits2_pos m) - 1)). intros; lia.
  - rewrite Pos2Z.inj_succ. change (Z.pos m~0) with (2 * Z.pos m).
    replace (Z.succ (Z.pos (digits2_pos m)) - 1) with (Z.succ (Z.pos (digits2_pos m) - 1)) by lia.
    rewrite Z.pow_succ_r by lia.
    revert IH. generalize (2 ^ (Z.pos (digits2_pos m) - 1)). intros; lia.
  - cbn. lia.
Qed.

Lemma shr_m_record_of_loc m l : shr_m (shr_record_of_loc m l) = m.
Proof. now destruct l as [|[]]. Qed.

Lemma shr_fexp_pos (m : positive) (e : Z) (l : location) :
  emin <= e ->
  0 < shr_m (fst (shr_fexp prec emax (Zpos m) e l))
  /\ e <= snd (shr_fexp prec emax (Zpos m) e l).
Proof.
  intros He. unfold shr_fexp, shr.
  destruct (fexp prec emax (Zdigits2 (Zpos m) + e) - e) as [|k|k] eqn:En;
    cbn [fst snd]; rewrite ?shr_m_record_of_loc; try lia.
  rewrite iter_pos_nat, shr_m_iter by (rewrite shr_m_record_of_loc; lia).
  rewrite shr_m_record_of_loc, positive_nat_Z.
  split; [| lia].
  unfold fexp, emin in *. cbn [Zdigits2] in En.
  assert (Hk : Zpos k <= Zpos (digits2_pos m) - 1).
  { change (SpecFloat.emin prec emax) with (-1074) in *. change prec with 53 in *. lia. }
  apply Z.div_str_pos. split; [apply Z.pow_pos_nonneg; lia |].
  transitivity (2 ^ (Zpos (digits2_pos m) - 1)).
  - apply Z.pow_le_mono_r; lia.
  - apply digits2_pos_lower.
Qed.

Lemma round_nearest_even_pos (m : Z) (l : location) :
  0 < m -> 0 < round_nearest_even m l.
Proof.
  intros H. destruct l as [|[]]; cbn [round_nearest_even]; try lia.
  destruct (Z.even m); lia.
Qed.

Lemma binary_round_aux_pos (m : positive) (e : Z) (l : location) :
  emin <= e -> positive_number (binary_round_aux prec emax false (Zpos m) e l).
Proof.
  intros He. unfold binary_round_aux.
  pose proof (shr_fexp_pos m e l He) as [H1 H2].
  destruct (shr_fexp prec emax (Zpos m) e l) as [mrs' e']. cbn [fst snd] in H1, H2.
  pose proof (round_nearest_even_pos (shr_m mrs') (loc_of_shr_record mrs') H1) as H3.
  destruct (round_nearest_even (shr_m mrs') (loc_of_shr_record mrs')) as [|m2|m2];
    try lia.
  pose proof (shr_fexp_pos m2 e' loc_Exact ltac:(lia)) as [H4 _].
  destruct (shr_fexp prec emax (Zpos m2) e' loc_Exact) as [mrs'' e'']. cbn [fst] in H4.
  destruct (shr_m mrs''); try lia.
  destruct (e'' <=? emax - prec); exact I.
Qed.

Lemma binary_round_pos (m : positive) :
  positive_number (binary_round prec emax false m 0).
Proof.
  unfold binary_round, shl_align.
  destruct (fexp prec emax (Zpos (digits2_pos m) + 0) - 0) as [|k|k] eqn:E;
    apply binary_round_aux_pos.
  - change emin with (-1074). lia.
  - change emin with (-1074). lia.
  - unfold fexp. change (SpecFloat.emin prec emax) with (-1074). lia.
Qed.

Lemma of_uint63_pos (z : Z) :
  0 < z < 2 ^ 63 -> positive_number (Prim2SF (of_uint63 (Uint63.of_Z z))).
Proof.
  intros Hz. rewrite FloatAxioms.of_uint63_spec, Uint63.of_Z_spec.
  change wB with (2 ^ 63). rewrite Z.mod_small by lia.
  destruct z as [|p|p]; try lia. apply binary_round_pos.
Qed.

(** [0 / d] is [+0] for a positive [d]. *)
Lemma zero_div_positive (d : float) :
  positive_number (Prim2SF d) -> (0 / d)%float = 0%float.
Proof.
  intros H. apply Prim2SF_inj. rewrite FloatAxioms.div_spec.
  change (Prim2SF 0) with (S754_zero false).
  destruct (Prim2SF d) as [s|[|]| |[|] m e]; try contradiction; reflexivity.
Qed.

Lemma zero_div_float_of_nat (n : nat) :
  (0 < n)%nat -> Z.of_nat n < 2 ^ 63 -> (0 / float_of_nat n)%float = 0%float.
Proof.
  intros Hn Hlt. apply zero_div_positive, of_uint63_pos. lia.
Qed.

(** *** Equality of floats *)

Lemma SFeqb_true_iff (a b : spec_float) :
  SFeqb a b = true <-> a <> S754_nan /\ unsigned_zero a = unsigned_zero b.
Proof.
  unfold SFeqb, SFcompare.
  destruct a as [[|]|[|]| |[|] m1 e1], b as [[|]|[|]| |[|] m2 e2];
    cbn [unsigned_zero].
  all: try (split;
            [ intros H; try discriminate H; (split; [discriminate | reflexivity])
            | intros [Hn E]; try (exfalso; apply Hn; reflexivity);
              try discriminate E; reflexivity ]).
  all: change (PosDef.Pos.compare_cont Eq m1 m2) with (Pos.compare m1 m2).
  all: destruct (Z.compare_spec e1 e2) as [He|He|He].
  all: try destruct (Pos.compare_spec m1 m2) as [Hm|Hm|Hm].
  all: cbn [CompOpp].
  all: split;
    [ intros H; first [discriminate H | split; [discriminate | congruence]]
    | intros [_ E]; injection E as E1 E2; first [reflexivity | lia] ].
Qed.

Lemma eqb_sym (x y : float) : (x =? y)%float = true -> (y =? x)%float = true.
Proof.
  rewrite !FloatAxioms.eqb_spec, !SFeqb_true_iff. intros [Hn E]. split; [| congruence].
  intros Hy. rewrite Hy in E. destruct (Prim2SF x); cbn in E; congruence.
Qed.

Lemma eqb_trans (x y z : float) :
  (x =? y)%float = true -> (y =? z)%float = true -> (x =? z)%float = true.
Proof.
  rewrite !FloatAxioms.eqb_spec, !SFeqb_true_iff. intros [Hn E1] [_ E2]. split; congruence.
Qed.

Lemma eqb_refl_not_nan (x : float) : (x =? x)%float = negb (is_nan x).
Proof. unfold is_nan. now rewrite negb_involutive. Qed.

(** [1 - 0 / d] is NaN when [d] is a zero. *)
Lemma one_minus_zero_div_zero (d : float) :
  (d =? 0)%float = true -> (1 - 0 / d)%float = nan.
Proof.
  rewrite FloatAxioms.eqb_spec, SFeqb_true_iff.
  change (Prim2SF 0) with (S754_zero false). intros [_ E].
  assert (H : (0 / d)%float = nan).
  { apply Prim2SF_inj. rewrite FloatAxioms.div_spec.
    change (Prim2SF 0) with (S754_zero false).
    change (Prim2SF nan) with S754_nan.
    destruct (Prim2SF d) as [s|s| |s m e]; cbn in E; try discriminate E.
    reflexivity. }
  rewrite H. reflexivity.
Qed.

(** *** The order of floats *)

Lemma SFcompare_antisym (a b : spec_float) :
  SFcompare b a = option_map CompOpp (SFcompare a b).
Proof.
  unfold SFcompare.
  destruct a as [[|]|[|]| |[|] m1 e1], b as [[|]|[|]| |[|] m2 e2];
    try reflexivity.
  all: cbn [option_map]; f_equal.
  all: rewrite (Z.compare_antisym e1 e2).
  all: destruct (e1 ?= e2); cbn [CompOpp]; try reflexivity.
  all: change (PosDef.Pos.compare_cont Eq m1 m2) with (Pos.compare m1 m2).
  all: change (PosDef.Pos.compare_cont Eq m2 m1) with (Pos.compare m2 m1).
  all: rewrite (Pos.compare_antisym m1 m2); now destruct (m1 ?= m2)%positive.
Qed.

Lemma SFcompare_None (a b : spec_float) :
  SFcompare a b = None -> a = S754_nan \/ b = S754_nan.
Proof.
  destruct a as [[|]|[|]| |[|] m1 e1], b as [[|]|[|]| |[|] m2 e2];
    cbn; try discriminate; auto.
Qed.

Lemma is_nan_spec (x : float) : is_nan x = false -> Prim2SF x <> S754_nan.
Proof.
  unfold is_nan. rewrite FloatAxioms.eqb_spec. intros H E. rewrite E in H. discriminate H.
Qed.

Lemma leb_total (x y : float) :
  is_nan x = false -> is_nan y = false ->
  (x <=? y)%float = true \/ (y <=? x)%float = true.
Proof.
  intros Hx Hy. apply is_nan_spec in Hx, Hy.
  rewrite !FloatAxioms.leb_spec. unfold SFleb.
  rewrite (SFcompare_antisym (Prim2SF x) (Prim2SF y)).
  destruct (SFcompare (Prim2SF x) (Prim2SF y)) as [[| |]|] eqn:E; cbn; auto.
  apply SFcompare_None in E. tauto.
Qed.

(** *** The order of the numbers

    The comparisons of two numbers are those of their ranks. *)

Lemma SFleb_rank (a b : spec_float) :
  a <> S754_nan -> b <> S754_nan ->
  SFleb a b = true <-> rank_le (rank a) (rank b).
Proof.
  intros Ha Hb. unfold SFleb, SFcompare, rank_le.
  destruct a as [[|]|[|]| |[|] m1 e1], b as [[|]|[|]| |[|] m2 e2];
    try congruence; cbn [rank fst snd];
    try (split; [intros _; lia | reflexivity]);
    try (split; [discriminate | intros; lia]).
  all: change (PosDef.Pos.compare_cont Eq m1 m2) with (Pos.compare m1 m2).
  all: destruct (Z.compare_spec e1 e2) as [He|He|He];
    try destruct (Pos.compare_spec m1 m2) as [Hm|Hm|Hm]; cbn [CompOpp];
    split; intros H; try reflexivity; try discriminate H; try lia.
Qed.

Lemma rank_le_trans (p q r : Z * Z * Z) : rank_le p q -> rank_le q r -> rank_le p r.
Proof. unfold rank_le. lia. Qed.

Lemma leb_trans (x y z : float) :
  is_nan x = false -> is_nan y = false -> is_nan z = false ->
  (x <=? y)%float = true -> (y <=? z)%float = true -> (x <=? z)%float = true.
Proof.
  intros Hx Hy Hz. apply is_nan_spec in Hx, Hy, Hz.
  rewrite !FloatAxioms.leb_spec, !SFleb_rank by assumption.
  apply rank_le_trans.
Qed.

Lemma SFltb_rank (a b : spec_float) :
  a <> S754_nan -> b <> S754_nan ->
  SFltb a b = true <-> ~ rank_le (rank b) (rank a).
Proof.
  intros Ha Hb. unfold SFltb, SFcompare, rank_le.
  destruct a as [[|]|[|]| |[|] m1 e1], b as [[|]|[|]| |[|] m2 e2];
    try congruence; cbn [rank fst snd];
    try (split; [intros _; lia | reflexivity]);
    try (split; [discriminate | intros; lia]).
  all: change (PosDef.Pos.compare_cont Eq m1 m2) with (Pos.compare m1 m2).
  all: destruct (Z.compare_spec e1 e2) as [He|He|He];
    try destruct (Pos.compare_spec m1 m2) as [Hm|Hm|Hm]; cbn [CompOpp];
    split; intros H; try reflexivity; try discriminate H; try lia.
Qed.

Lemma SFeqb_rank (a b : spec_float) :
  a <> S754_nan -> b <> S754_nan ->
  SFeqb a b = true <-> rank_le (rank a) (rank b) /\ rank_le (rank b) (rank a).
Proof.
  intros Ha Hb. unfold SFeqb, SFcompare, rank_le.
  destruct a as [[|]|[|]| |[|] m1 e1], b as [[|]|[|]| |[|] m2 e2];
    try congruence; cbn [rank fst snd];
    try (split; [intros _; lia | reflexivity]);
    try (split; [discriminate | intros; lia]).
  all: change (PosDef.Pos.compare_cont Eq m1 m2) with (Pos.compare m1 m2).
  all: destruct (Z.compare_spec e1 e2) as [He|He|He];
    try destruct (Pos.compare_spec m1 m2) as [Hm|Hm|Hm]; cbn [CompOpp];
    split; intros H; try reflexivity; try discriminate H; try lia.
Qed.

Lemma rank_le_cases (p q : Z * Z * Z) : rank_le p q \/ ~ rank_le p q.
Proof.
  destruct p as [[a1 a2] a3], q as [[b1 b2] b3]. unfold rank_le. cbn [fst snd]. lia.
Qed.

Lemma rank_le_total (p q : Z * Z * Z) : ~ rank_le q p -> rank_le p q.
Proof.
  destruct p as [[a1 a2] a3], q as [[b1 b2] b3]. unfold rank_le. cbn [fst snd]. lia.
Qed.

End FloatFacts.

(** ** Shapes *)

Lemma nrows_transpose (A : matrix) : nrows (transpose A) = ncols A.
Proof. unfold transpose, nrows; simpl. now rewrite length_map, length_seq. Qed.

Lemma ncols_transpose (A : matrix) : ncols (transpose A) = nrows A.
Proof. reflexivity. Qed.

Lemma nrows_insert_ones (X : matrix) : nrows (insert_ones X) = nrows X.
Proof. unfold insert_ones, nrows; simpl. now rewrite length_map. Qed.

Lemma drop_first_column_insert_ones (X : matrix) :
  drop_first_column (insert_ones X) = X.
Proof.
  destruct X as [p rs]. unfold drop_first_column, insert_ones; simpl.
  f_equal. rewrite map_map. simpl.
  induction rs as [|r rs IH]; simpl; [reflexivity | now rewrite IH].
Qed.

Lemma dot_mm_transpose_self {blas : Blas} (A : matrix) :
  dot_mm (transpose A) A = Ok (gram A).
Proof. unfold dot_mm. rewrite ncols_transpose, Nat.eqb_refl. reflexivity. Qed.

Lemma length_linear_predictor {blas : Blas} (X : matrix) (coef : vec) (b : float) :
  length (linear_predictor X coef b) = nrows X.
Proof. unfold linear_predictor. now rewrite length_map, length_mv. Qed.

(** ** fit: the method *)

Lemma method_valid_false (method : string) :
  method <> "least_squares"%string -> method <> "gradient_descent"%string ->
  String.eqb method "least_squares" || String.eqb method "gradient_descent" = false.
Proof.
  intros H1 H2. apply orb_false_iff. split; now apply String.eqb_neq.
Qed.

(** C4. [fit] with a method other than "least_squares" and
    "gradient_descent" raises [ValueError] with a message that contains the
    method it was given, and returns the world it received: the stored
    intercept and coefficients, the random generator and the output are
    untouched, whatever the arguments, whatever the rate is and whatever
    [np.linalg.inv] and the matrix products do. *)
Theorem fit_invalid_method {blas : Blas} (linalg_inv : matrix -> res matrix)
    (X : ndarray) (y : vec) (method : string) (lr : rate) (it : nat) (w : world) :
  method <> "least_squares"%string ->
  method <> "gradient_descent"%string ->
  fit linalg_inv X y method lr it w
    = (Raise (ValueError (method_msg method)), w)
  /\ exists pre post : string, method_msg method = (pre ++ method ++ post)%string.
Proof.
  intros H1 H2. split.
  - unfold fit. rewrite (method_valid_false method H1 H2). reflexivity.
  - exists "Method "%string, " not available for training linear regression."%string.
    reflexivity.
Qed.

Lemma fit_invalid_method_witness :
  fit (blas := in_order) inv_small (Arr2 (Mat 1 [[1%float]; [2%float]]))
      [2%float; 4%float] "ols" c_0_01 1000
      (World (Regressor (Some [2%float]) (Some 0%float)) (fun _ => 0.5%float) 0 [])
    = (Raise (ValueError "Method ols not available for training linear regression."),
       World (Regressor (Some [2%float]) (Some 0%float)) (fun _ => 0.5%float) 0 [])
  /\ exists pre post : string, method_msg "ols" = (pre ++ "ols" ++ post)%string.
Proof.
  apply (fit_invalid_method (blas := in_order) inv_small); discriminate.
Defined.

(** ** predict *)

Lemma predict_unfitted {blas : Blas} (X : ndarray) (w : world) :
  coefficients (self w) = None \/ intercept (self w) = None ->
  predict X w = (Raise (ValueError not_fitted_msg), w).
Proof.
  intros H. unfold predict, bind, get_self, raise.
  destruct (coefficients (self w)), (intercept (self w)); try reflexivity.
  destruct H; discriminate.
Qed.

Lemma predict_fitted {blas : Blas} (X : ndarray) (w : world) (coef : vec) (b : float) :
  coefficients (self w) = Some coef -> intercept (self w) = Some b ->
  ncols (as_matrix X) = length coef ->
  predict X w = (Ok (linear_predictor (as_matrix X) coef b), w).
Proof.
  intros Hc Hb Hn. unfold predict, bind, get_self, lift, ret, dot_mv.
  rewrite Hc, Hb. fold (as_matrix X). now rewrite Hn, Nat.eqb_refl.
Qed.

Lemma predict_misaligned {blas : Blas} (X : ndarray) (w : world) (coef : vec)
    (b : float) :
  coefficients (self w) = Some coef -> intercept (self w) = Some b ->
  ncols (as_matrix X) <> length coef ->
  predict X w = (Raise (ValueError "shapes not aligned"), w).
Proof.
  intros Hc Hb Hn. unfold predict, bind, get_self, lift, ret, dot_mv.
  rewrite Hc, Hb. fold (as_matrix X).
  apply Nat.eqb_neq in Hn. now rewrite Hn.
Qed.



(** ** Least squares *)

Section LeastSquares.

Context {blas : Blas}.

Variable linalg_inv : matrix -> res matrix.

Lemma fit_multiple_ok (Xb : matrix) (y : vec) (G : matrix) (w : world) :
  length y = nrows Xb ->
  linalg_inv (gram Xb) = Ok G ->
  ncols G = ncols Xb ->
  nrows G = S (pred (ncols Xb)) ->
  let theta := normal_equation_solution G Xb y in
  fit_multiple linalg_inv Xb y w
    = (Ok tt, with_params w (drop 1 theta) (nth 0 theta 0%float))
  /\ length theta = nrows G.
Proof.
  intros Hy HG Hc Hr theta.
  assert (Hlen : length theta = nrows G).
  { unfold theta, normal_equation_solution. now rewrite length_mv, nrows_mm. }
  split; [| exact Hlen].
  unfold fit_multiple, bind, lift.
  rewrite dot_mm_transpose_self. simpl res_bind. rewrite HG.
  unfold dot_mm. rewrite nrows_transpose, Hc, Nat.eqb_refl.
  unfold dot_mv. rewrite ncols_mm, ncols_transpose, Hy, Nat.eqb_refl.
  fold (normal_equation_solution G Xb y). fold theta.
  destruct theta as [|t0 ts] eqn:E.
  - rewrite Hr in Hlen. discriminate.
  - reflexivity.
Qed.

(** A failing [fit_multiple] has stored nothing. *)
Lemma fit_multiple_raise_frame (Xb : matrix) (y : vec) (w : world) :
  is_raise (fst (fit_multiple linalg_inv Xb y w)) ->
  snd (fit_multiple linalg_inv Xb y w) = w.
Proof.
  unfold fit_multiple, bind, lift.
  destruct (res_bind (dot_mm (transpose Xb) Xb) linalg_inv) as [G|e]; [| reflexivity].
  destruct (dot_mm G (transpose Xb)) as [GXt|e]; [| reflexivity].
  destruct (dot_mv GXt y) as [[|t0 ts]|e]; try reflexivity.
  simpl. intros [].
Qed.

End LeastSquares.



(** ** Broadcasting *)

Lemma broadcast2_same_length (f : float -> float -> float) (a b : vec) :
  length a = length b -> broadcast2 f a b = Ok (zip_with f a b).
Proof. intros H. unfold broadcast2. now rewrite H, Nat.eqb_refl. Qed.

Lemma broadcast2_shape (f : float -> float -> float) (a b : vec) :
  length a = length b \/ length b = 1 ->
  exists v, broadcast2 f a b = Ok v /\ length v = length a.
Proof.
  intros [H|H].
  - exists (zip_with f a b). split; [now apply broadcast2_same_length |].
    rewrite length_zip_with. lia.
  - unfold broadcast2. destruct (length a =? length b) eqn:E.
    + apply Nat.eqb_eq in E. exists (zip_with f a b). split; [reflexivity |].
      rewrite length_zip_with. lia.
    + apply Nat.eqb_neq in E.
      destruct b as [|y0 [|y1 b]]; try discriminate.
      destruct a as [|x0 [|x1 a]].
      * exists []. split; reflexivity.
      * simpl in E. congruence.
      * eexists. split; [reflexivity |]. simpl. now rewrite length_map.
Qed.

(** When broadcasting fails, or gives an array that is not as long as [a]. *)
Lemma broadcast2_misshape (f : float -> float -> float) (a b : vec) :
  length a <> length b -> length b <> 1 ->
  match broadcast2 f a b with
  | Ok v => length v <> length a
  | Raise _ => True
  end.
Proof.
  intros H1 H2. unfold broadcast2.
  destruct (length a =? length b) eqn:E; [apply Nat.eqb_eq in E; congruence |].
  destruct a as [|x0 [|x1 a]], b as [|y0 [|y1 b]]; simpl in *;
    try exact I; try congruence; try (rewrite length_map; simpl; lia); lia.
Qed.

Lemma bsub_same_length (a b : vec) :
  length a = length b -> bsub a b = zip_with PrimFloat.sub a b.
Proof. intros H. unfold bsub. now rewrite broadcast2_same_length. Qed.

(** ** One epoch of gradient descent *)

Section Epoch.

Context {blas : Blas}.

Variables (X : matrix) (y : vec) (lr : rate).

Lemma length_gradient (scale : float) (error : vec) :
  length (map (PrimFloat.mul scale) (mv (transpose (insert_ones X)) error))
  = S (ncols X).
Proof. now rewrite length_map, length_mv, nrows_transpose. Qed.

Lemma rate_div_divides (m : nat) :
  divides lr m = true -> rate_div lr m = Ok (rate_value lr / float_of_nat m)%float.
Proof.
  unfold divides, rate_div. destruct lr as [x|x]; cbn [rate_value]; [| reflexivity].
  intros H. apply negb_true_iff in H. now rewrite H.
Qed.

Lemma rate_div_not_divides (m : nat) :
  divides lr m = false -> rate_div lr m = Raise ZeroDivisionError.
Proof.
  unfold divides, rate_div. destruct lr as [x|x]; [| discriminate].
  intros H. apply negb_false_iff in H. now rewrite H.
Qed.

Lemma gd_epoch_ok (epoch : nat) (w : world) (coef : vec) (b : float) :
  self w = {| coefficients := Some coef; intercept := Some b |} ->
  length coef = ncols X ->
  gd_shapes_ok X y lr = true ->
  gd_epoch (insert_ones X) y lr (length y) epoch w
  = (Ok tt, after_epoch X y lr epoch (coef, b) w).
Proof.
  intros Hs Hc Hok. unfold gd_shapes_ok in Hok.
  apply andb_true_iff in Hok as [Hm Hshape].
  destruct (broadcast2_shape PrimFloat.sub (linear_predictor X coef b) y)
    as (error & Herr & Hlen).
  { rewrite length_linear_predictor.
    apply orb_true_iff in Hshape as [H|H]; apply Nat.eqb_eq in H; auto. }
  rewrite length_linear_predictor in Hlen.
  unfold gd_epoch, bind. rewrite drop_first_column_insert_ones.
  rewrite (predict_fitted (Arr2 X) w coef b) by (rewrite ?Hs; auto).
  simpl as_matrix. unfold lift at 1. rewrite Herr.
  unfold lift at 1. rewrite (rate_div_divides _ Hm).
  unfold lift at 1, dot_mv. rewrite ncols_transpose, nrows_insert_ones, Hlen, Nat.eqb_refl.
  pose proof (length_gradient (rate_value lr / float_of_nat (length y))%float error) as Hg.
  assert (Hstep : gd_error_b X y (coef, b) = error).
  { unfold gd_error_b, bsub. simpl. now rewrite Herr. }
  unfold after_epoch, gd_step_b. cbn [gd_log_b fst snd]. rewrite Hstep.
  destruct (map _ (mv (transpose (insert_ones X)) error)) as [|g0 gs] eqn:Eg;
    [discriminate |].
  cbn [length] in Hg. injection Hg as Hg.
  unfold get_self, set_intercept, set_coefficients, print_epoch, ret, lift.
  destruct w as [s r d o]. simpl in Hs. subst s.
  cbn -[Nat.modulo Nat.eqb]. rewrite Hg, Hc, Nat.eqb_refl.
  cbn -[Nat.modulo Nat.eqb].
  rewrite broadcast2_same_length by congruence.
  destruct (epoch mod 1000 =? 0); cbn; rewrite ?app_nil_r; reflexivity.
Qed.

Lemma gd_epoch_raise (epoch : nat) (w : world) (coef : vec) (b : float) :
  self w = {| coefficients := Some coef; intercept := Some b |} ->
  length coef = ncols X ->
  gd_shapes_ok X y lr = false ->
  exists e, gd_epoch (insert_ones X) y lr (length y) epoch w = (Raise e, w).
Proof.
  intros Hs Hc Hbad.
  unfold gd_epoch, bind. rewrite drop_first_column_insert_ones.
  rewrite (predict_fitted (Arr2 X) w coef b) by (rewrite ?Hs; auto).
  simpl as_matrix. unfold lift at 1.
  destruct (broadcast2 PrimFloat.sub (linear_predictor X coef b) y)
    as [error|e] eqn:Herr; [| now exists e].
  unfold lift at 1.
  destruct (divides lr (length y)) eqn:Hm;
    [| rewrite (rate_div_not_divides _ Hm); now exists ZeroDivisionError].
  rewrite (rate_div_divides _ Hm).
  unfold lift at 1, dot_mv.
  rewrite ncols_transpose, nrows_insert_ones.
  destruct (nrows X =? length error) eqn:Hlen; [| eexists; reflexivity].
  exfalso. apply Nat.eqb_eq in Hlen.
  unfold gd_shapes_ok in Hbad. rewrite Hm in Hbad. simpl in Hbad.
  apply orb_false_iff in Hbad as [H1 H2].
  apply Nat.eqb_neq in H1, H2.
  pose proof (broadcast2_misshape PrimFloat.sub (linear_predictor X coef b) y) as Hmis.
  rewrite length_linear_predictor, Herr in Hmis. now apply Hmis.
Qed.

(** The exception of an epoch that cannot run: a Python float is divided
    by a [len(y)] that is zero, the subtraction of [y] does not broadcast,
    or the error has not one entry per row. *)
Lemma gd_epoch_error_kind (epoch : nat) (w : world) (coef : vec) (b : float) :
  self w = {| coefficients := Some coef; intercept := Some b |} ->
  length coef = ncols X ->
  (length y = 0 -> nrows X <= 1 -> (exists x, lr = PyFloat x) ->
   gd_epoch (insert_ones X) y lr (length y) epoch w = (Raise ZeroDivisionError, w))
  /\ (length y <> nrows X -> length y <> 1 ->
      ~ (length y = 0 /\ nrows X <= 1 /\ exists x, lr = PyFloat x) ->
      exists msg,
        gd_epoch (insert_ones X) y lr (length y) epoch w = (Raise (ValueError msg), w)).
Proof.
  intros Hs Hc.
  unfold gd_epoch, bind. rewrite drop_first_column_insert_ones.
  rewrite (predict_fitted (Arr2 X) w coef b) by (rewrite ?Hs; auto).
  simpl as_matrix. unfold lift, dot_mv.
  rewrite ncols_transpose, nrows_insert_ones.
  rewrite <- (length_linear_predictor X coef b).
  generalize (linear_predictor X coef b) as pr. intros pr.
  unfold broadcast2, rate_div.
  destruct pr as [|p0 [|p1 ps]]; destruct y as [|y0 [|y1 ys]]; destruct lr as [x|x];
    cbn -[transpose mv insert_ones]; split; intros;
    try lia; try reflexivity; try (eexists; reflexivity);
    try (exfalso; eauto; fail);
    try match goal with
        | H : exists x0, NpFloat64 _ = PyFloat x0 |- _ => destruct H; discriminate
        end.
  all: destruct (length ps =? length ys) eqn:E; [apply Nat.eqb_eq in E; lia |].
  all: cbn; eexists; reflexivity.
Qed.

End Epoch.

(** ** The loop *)

Section Descent.

Context {blas : Blas}.

Variables (X : matrix) (y : vec) (lr : rate).

Lemma length_gd_step_b (p : params) :
  length (fst p) = ncols X -> length (fst (gd_step_b X y lr p)) = ncols X.
Proof.
  intros H. unfold gd_step_b. cbn [fst].
  rewrite length_zip_with, length_drop, length_gradient. lia.
Qed.

Lemma for_range_zero (body : nat -> M unit) (epoch : nat) (w : world) :
  for_range body epoch 0 w = (Ok tt, w).
Proof. reflexivity. Qed.

Lemma for_range_ok (count : nat) :
  forall (epoch : nat) (w : world) (p : params),
    self w = {| coefficients := Some (fst p); intercept := Some (snd p) |} ->
    length (fst p) = ncols X ->
    gd_shapes_ok X y lr = true ->
    for_range (gd_epoch (insert_ones X) y lr (length y)) epoch count w
    = (Ok tt, after_epochs X y lr epoch count p w).
Proof.
  induction count as [|count IH]; intros epoch w p Hs Hc Hok.
  - rewrite for_range_zero. unfold after_epochs. cbn [Nat.iter gd_log_b nat_rect].
    rewrite app_nil_r, <- Hs. now destruct w.
  - cbn [for_range]. unfold bind.
    rewrite (gd_epoch_ok X y lr epoch w (fst p) (snd p) Hs Hc Hok).
    rewrite <- surjective_pairing.
    rewrite (IH (S epoch) (after_epoch X y lr epoch p w) (gd_step_b X y lr p));
      [| reflexivity | now apply length_gd_step_b | assumption].
    unfold after_epochs, after_epoch. cbn [self rng drawn stdout gd_log_b].
    rewrite Nat.iter_succ_r, app_nil_r, <- app_assoc. reflexivity.
Qed.

Lemma for_range_raise (count : nat) (epoch : nat) (w : world) (p : params) :
  self w = {| coefficients := Some (fst p); intercept := Some (snd p) |} ->
  length (fst p) = ncols X ->
  gd_shapes_ok X y lr = false ->
  exists e,
    for_range (gd_epoch (insert_ones X) y lr (length y)) epoch (S count) w
    = (Raise e, w).
Proof.
  intros Hs Hc Hbad.
  destruct (gd_epoch_raise X y lr epoch w (fst p) (snd p) Hs Hc Hbad) as [e He].
  exists e. cbn [for_range]. unfold bind. now rewrite He.
Qed.

End Descent.

Section FitGradientDescent.

Context {blas : Blas}.

Variable linalg_inv : matrix -> res matrix.
Variables (Xa : ndarray) (y : vec) (lr : rate).

Local Abbreviation X := (as_matrix Xa).

Lemma fit_gradient_descent_unfold (it : nat) (w : world) :
  fit linalg_inv Xa y "gradient_descent" lr it w
  = for_range (gd_epoch (insert_ones X) y lr (length y)) 0 it
      (gd_init_world w (ncols X)).
Proof.
  unfold fit. cbn [String.eqb Ascii.eqb Bool.eqb orb negb].
  change (match Xa with Arr1 v => reshape_col v | Arr2 X2 => X2 end) with X.
  unfold fit_gradient_descent, bind. cbn [insert_ones ncols Nat.eqb].
  unfold ret at 1. unfold random_rand at 1.
  replace (S (ncols X) - 1) with (ncols X) by lia.
  unfold set_coefficients at 1. unfold random_rand at 1.
  unfold set_intercept. cbn [self rng drawn stdout coefficients intercept].
  unfold gd_init_world, gd_init_params. cbn [fst snd seq map nth].
  reflexivity.
Qed.

Lemma self_gd_init_world (w : world) :
  self (gd_init_world w (ncols X))
  = {| coefficients := Some (fst (gd_init_params w (ncols X)));
       intercept := Some (snd (gd_init_params w (ncols X))) |}.
Proof. reflexivity. Qed.

Lemma length_gd_init_params (w : world) (p : nat) :
  length (fst (gd_init_params w p)) = p.
Proof. unfold gd_init_params. cbn [fst]. now rewrite !length_map, length_seq. Qed.

(** With shapes that let an epoch run, the fit runs every epoch. *)
Lemma fit_gradient_descent_ok (it : nat) (w : world) :
  gd_shapes_ok X y lr = true ->
  fit linalg_inv Xa y "gradient_descent" lr it w
  = (Ok tt, after_epochs X y lr 0 it (gd_init_params w (ncols X))
              (gd_init_world w (ncols X))).
Proof.
  intros Hok. rewrite fit_gradient_descent_unfold.
  apply for_range_ok; auto using self_gd_init_world, length_gd_init_params.
Qed.

(** With other shapes the first epoch raises, after the previous parameters
    were replaced by the random initial ones. *)
Lemma fit_gradient_descent_raise (it : nat) (w : world) :
  gd_shapes_ok X y lr = false ->
  exists e,
    fit linalg_inv Xa y "gradient_descent" lr (S it) w
    = (Raise e, gd_init_world w (ncols X)).
Proof.
  intros Hbad. rewrite fit_gradient_descent_unfold.
  apply for_range_raise with (p := gd_init_params w (ncols X));
    auto using self_gd_init_world, length_gd_init_params.
Qed.

End FitGradientDescent.

(** ** The step of the specification *)

Section StepAgreement.

Context {blas : Blas}.

Variables (X : matrix) (y : vec) (lr : rate).
Hypothesis Hy : length y = nrows X.

Lemma gd_error_b_eq (p : params) : gd_error_b X y p = gd_error X y p.
Proof.
  unfold gd_error_b, gd_error. apply bsub_same_length.
  now rewrite length_linear_predictor.
Qed.

Lemma gd_step_b_eq (p : params) : gd_step_b X y lr p = gd_step X y lr p.
Proof.
  unfold gd_step_b, gd_step, gd_gradient. now rewrite gd_error_b_eq, Hy.
Qed.

Lemma iter_gd_step_b_eq (n : nat) (p : params) :
  Nat.iter n (gd_step_b X y lr) p = Nat.iter n (gd_step X y lr) p.
Proof.
  induction n as [|n IH]; [reflexivity |].
  cbn [Nat.iter nat_rect]. fold (Nat.iter n (gd_step_b X y lr) p).
  fold (Nat.iter n (gd_step X y lr) p). now rewrite IH, gd_step_b_eq.
Qed.

Lemma gd_log_b_eq (count : nat) :
  forall (epoch : nat) (p : params),
    gd_log_b X y lr epoch count p = gd_log X y lr epoch count p.
Proof.
  induction count as [|count IH]; intros epoch p; [reflexivity |].
  cbn [gd_log_b gd_log]. now rewrite IH, gd_error_b_eq, gd_step_b_eq, Hy.
Qed.

End StepAgreement.




(** ** A failing fit *)

(** C3, path by path. A call of [fit] that raises with a method other than
    "gradient_descent" (the least-squares path, or a method that is not
    available) leaves the world, and so the stored intercept and
    coefficients, as it was. A call that raises with "gradient_descent"
    leaves in the object the random initial coefficients and intercept that
    [fit_gradient_descent] stores before its loop. *)
Theorem fit_failure_state {blas : Blas} (linalg_inv : matrix -> res matrix)
    (X : ndarray) (y : vec) (method : string) (lr : rate) (it : nat)
    (w : world) :
  is_raise (fst (fit linalg_inv X y method lr it w)) ->
  (method <> "gradient_descent"%string ->
   snd (fit linalg_inv X y method lr it w) = w)
  /\ (method = "gradient_descent"%string ->
      snd (fit linalg_inv X y method lr it w)
      = gd_init_world w (ncols (as_matrix X))).
Proof.
  intros Hraise. split.
  - intros Hgd. revert Hraise. unfold fit.
    destruct (String.eqb method "least_squares") eqn:Els.
    + cbn [orb negb]. apply fit_multiple_raise_frame.
    + apply String.eqb_neq in Hgd. rewrite Hgd. reflexivity.
  - intros ->. revert Hraise.
    destruct (gd_shapes_ok (as_matrix X) y lr) eqn:Hok.
    + rewrite (fit_gradient_descent_ok linalg_inv X y lr it w Hok).
      intros [].
    + destruct it as [|it].
      * rewrite fit_gradient_descent_unfold, for_range_zero. intros [].
      * destruct (fit_gradient_descent_raise linalg_inv X y lr it w Hok) as [e He].
        now rewrite He.
Qed.

Lemma fit_failure_state_witness :
  let X := Arr2 (Mat 1 [[1%float]; [1%float]]) in
  let y := [2%float; 4%float] in
  let w :=
    World (Regressor (Some [2%float]) (Some 0%float)) (fun _ => 0.5%float) 0 [] in
  fst (fit (blas := in_order) inv_small X y "least_squares" c_0_01 1000 w)
  = Raise (LinAlgError "Singular matrix")
  /\ snd (fit (blas := in_order) inv_small X y "least_squares" c_0_01 1000 w) = w
  /\ fst (fit (blas := in_order) inv_small X (0%float :: y) "gradient_descent" c_0_01 1000 w)
     = Raise (ValueError "operands could not be broadcast together")
  /\ snd (fit (blas := in_order) inv_small X (0%float :: y) "gradient_descent" c_0_01 1000 w)
     = gd_init_world w 1.
Proof.
  intros X y w. split; [reflexivity |]. split; [| split; [reflexivity |]].
  - apply (fit_failure_state (blas := in_order) inv_small X y "least_squares" c_0_01 1000 w);
      [exact I | discriminate].
  - apply (fit_failure_state (blas := in_order) inv_small X (0%float :: y) "gradient_descent" c_0_01
             1000 w); [exact I | reflexivity].
Defined.

(** C3 fails on the gradient-descent path: with three targets for two rows
    the subtraction in the first epoch raises, after the parameters of the
    earlier fit were replaced by the random initial ones. *)
Lemma fit_gradient_descent_failure_overwrites :
  let X := Arr2 (Mat 1 [[1%float]; [2%float]]) in
  let y := [2%float; 4%float; 6%float] in
  let w := World (Regressor (Some [2%float]) (Some 0%float)) (fun _ => 0.5%float) 0 [] in
  fit (blas := in_order) inv_small X y "gradient_descent" c_0_01 1000 w
  = (Raise (ValueError "operands could not be broadcast together"),
     World (Regressor (Some [(0.5 * c_0_01)%float]) (Some (0.5 * c_0_01)%float))
           (fun _ => 0.5%float) 2 [])
  /\ ~ failure_keeps_parameters (blas := in_order) inv_small X y "gradient_descent" c_0_01 1000 w.
Proof.
  cbv zeta. split; [reflexivity |].
  unfold failure_keeps_parameters. intros H.
  specialize (H I). discriminate H.
Qed.

(** ** np.sum

    The pairwise sum of numpy is a sum of the entries: every entry enters
    once, whatever the grouping. *)

Lemma float_sum_from (v : vec) : forall (l : vec) (acc : float),
  float_sum l acc -> float_sum (l ++ v) (sum_from acc v).
Proof.
  induction v as [|x v IH]; intros l acc H; cbn.
  - now rewrite app_nil_r.
  - replace (l ++ x :: v) with ((l ++ [x]) ++ v) by now rewrite <- app_assoc.
    apply IH. apply float_sum_add; [exact H | constructor].
Qed.

Lemma concat_snoc_each (ls : list vec) (xs : vec) :
  length ls = length xs ->
  Permutation (concat (zip_with (fun l x => l ++ [x]) ls xs)) (concat ls ++ xs).
Proof.
  revert xs. induction ls as [|l ls IH]; intros [|x xs] H; try discriminate; cbn.
  - reflexivity.
  - injection H as H. rewrite (IH xs H). rewrite <- !app_assoc.
    apply Permutation_app_head. cbn.
    rewrite (Permutation_middle (concat ls) xs x). reflexivity.
Qed.

Lemma float_sum_snoc_each (ls : list vec) (r : vec) :
  Forall2 float_sum ls r ->
  forall t, Forall2 float_sum (zip_with (fun l x => l ++ [x]) ls t)
                    (zip_with PrimFloat.add r t).
Proof.
  induction 1 as [|l s ls r Hl _ IH]; intros [|x t]; cbn; constructor.
  - apply float_sum_add; [exact Hl | constructor].
  - apply IH.
Qed.

Lemma float_sum_lanes (groups : nat) : forall (ls : list vec) (r v : vec),
  Forall2 float_sum ls r -> length r = 8 -> 8 * groups <= length v ->
  exists ls', Forall2 float_sum ls' (fst (sum_lanes groups r v))
    /\ length (fst (sum_lanes groups r v)) = 8
    /\ Permutation (concat ls' ++ snd (sum_lanes groups r v)) (concat ls ++ v).
Proof.
  induction groups as [|groups IH]; intros ls r v Hls Hr Hv.
  - exists ls. cbn. auto.
  - cbn [sum_lanes].
    assert (Ht : length (take 8 v) = 8) by (rewrite length_take; lia).
    assert (Hl : length ls = 8) by (rewrite (Forall2_length _ _ _ Hls); exact Hr).
    destruct (IH (zip_with (fun l x => l ++ [x]) ls (take 8 v))
                 (zip_with PrimFloat.add r (take 8 v)) (drop 8 v))
      as (ls' & H1 & H2 & H3).
    + now apply float_sum_snoc_each.
    + rewrite length_zip_with. lia.
    + rewrite length_drop. lia.
    + exists ls'. split; [exact H1 |]. split; [exact H2 |].
      rewrite H3, concat_snoc_each by lia.
      rewrite <- app_assoc, take_drop. reflexivity.
Qed.

Lemma float_sum_add_lanes (ls : list vec) (r : vec) :
  Forall2 float_sum ls r -> length r = 8 -> float_sum (concat ls) (add_lanes r).
Proof.
  intros H Hr.
  destruct r as [|r0 [|r1 [|r2 [|r3 [|r4 [|r5 [|r6 [|r7 [|]]]]]]]]]; try discriminate.
  repeat match goal with
         | H : Forall2 _ _ (_ :: _) |- _ => inversion H; subst; clear H
         | H : Forall2 _ _ [] |- _ => inversion H; subst; clear H
         end.
  cbn [concat add_lanes]. rewrite app_nil_r.
  repeat match goal with
         | |- float_sum (?a ++ ?b ++ ?c) _ => rewrite (app_assoc a b c)
         end.
  match goal with
  | |- float_sum (((((((?a ++ ?b) ++ ?c) ++ ?d) ++ ?e) ++ ?f) ++ ?g) ++ ?h) _ =>
      replace (((((((a ++ b) ++ c) ++ d) ++ e) ++ f) ++ g) ++ h)
        with (((a ++ b) ++ (c ++ d)) ++ ((e ++ f) ++ (g ++ h)))
        by (rewrite <- !app_assoc; reflexivity)
  end.
  repeat apply float_sum_add; assumption.
Qed.

Lemma float_sum_block (v : vec) : 8 <= length v -> float_sum v (block_sum v).
Proof.
  intros Hv. unfold block_sum.
  assert (Hdiv : 8 * (length v / 8) <= length v) by (apply Nat.Div0.mul_div_le).
  destruct (float_sum_lanes (length v / 8 - 1) (map (fun x => [x]) (take 8 v))
              (take 8 v) (drop 8 v)) as (ls' & H1 & H2 & H3).
  - clear. induction (take 8 v); cbn; constructor; [constructor | assumption].
  - rewrite length_take. lia.
  - rewrite length_drop. lia.
  - destruct (sum_lanes (length v / 8 - 1) (take 8 v) (drop 8 v)) as [r rest].
    cbn [fst snd] in *.
    apply (float_sum_perm (concat ls' ++ rest)).
    + rewrite H3. replace (concat (map (fun x => [x]) (take 8 v))) with (take 8 v).
      * now rewrite take_drop.
      * clear. induction (take 8 v) as [|x t IH]; cbn; [reflexivity | now rewrite <- IH].
    + apply float_sum_from. now apply float_sum_add_lanes.
Qed.

Lemma float_sum_pairwise (depth : nat) : forall v : vec,
  float_sum v (pairwise_sum depth v).
Proof.
  induction depth as [|depth IH]; intros v; cbn [pairwise_sum].
  - destruct (Nat.ltb_spec (length v) 8).
    + apply (float_sum_from v [] 0%float). constructor.
    + now apply float_sum_block.
  - destruct (Nat.ltb_spec (length v) 8).
    + apply (float_sum_from v [] 0%float). constructor.
    + destruct (length v <=? 128).
      * now apply float_sum_block.
      * rewrite <- (take_drop (length v / 2 - (length v / 2) mod 8) v) at 1.
        apply float_sum_add; apply IH.
Qed.

Lemma float_sum_np_sum (v : vec) : float_sum v (np_sum v).
Proof.
  unfold np_sum. apply (float_sum_add [] v); [constructor | apply float_sum_pairwise].
Qed.

Lemma float_sum_closed (P : float -> Prop) :
  P 0%float -> (forall x y, P x -> P y -> P (x + y)%float) ->
  forall v s, float_sum v s -> Forall P v -> P s.
Proof.
  intros H0 Hadd v s H. induction H as [|x|v1 v2 s1 s2 _ IH1 _ IH2|v1 v2 s Hp _ IH]; intros Hv.
  - exact H0.
  - now inversion Hv.
  - apply Forall_app in Hv as [Hv1 Hv2]. auto.
  - apply IH. now rewrite Hp.
Qed.

(** A property of 0.0 that additions keep holds of the sum of entries that
    have it. *)
Lemma np_sum_closed (P : float -> Prop) (v : vec) :
  P 0%float -> (forall x y, P x -> P y -> P (x + y)%float) ->
  Forall P v -> P (np_sum v).
Proof.
  intros H0 Hadd. apply (float_sum_closed P H0 Hadd v), float_sum_np_sum.
Qed.

(** ** The metrics *)

Lemma map_zip_with_float (f : float -> float) (g : float -> float -> float)
    (a b : vec) :
  map f (zip_with g a b) = zip_with (fun x y => f (g x y)) a b.
Proof.
  revert b. induction a as [|x a IH]; intros [|y b]; cbn; try reflexivity.
  now rewrite IH.
Qed.

Lemma evaluate_regression_same_length (y_true y_pred : vec) :
  length y_true = length y_pred ->
  evaluate_regression y_true y_pred
  = Ok (metrics (r2_score y_true y_pred) (rmse_score y_true y_pred)
                (mae_score y_true y_pred)).
Proof.
  intros H. unfold evaluate_regression.
  rewrite (broadcast2_same_length _ _ _ H). cbn [res_bind].
  rewrite !map_zip_with_float, map_map. reflexivity.
Qed.

Lemma dom_metrics (r2 rmse mae : float) :
  dom (metrics r2 rmse mae) = ({["R2"; "RMSE"; "MAE"]} : gset string)%string.
Proof. unfold metrics. rewrite !dom_insert_L, dom_empty_L. set_solver. Qed.

(** The call by reference reads the two arrays and leaves every array as
    it was. *)
Lemma evaluate_regression_at_reads {T} `{Dtype T} (h : gmap loc (list T))
    (t p : loc) (y_true y_pred : list T) :
  h !! t = Some y_true -> h !! p = Some y_pred ->
  evaluate_regression_at t p h = (evaluate_regression y_true y_pred, h).
Proof.
  intros Ht Hp. unfold evaluate_regression_at, bind, load, lift.
  now rewrite Ht, Hp.
Qed.



(** C6 fails on [int64] arrays: the square of the difference [2^32] wraps
    around to 0, and the RMSE of two arrays that differ is 0.0. *)
Lemma evaluate_regression_int64_wraps :
  evaluate_regression [4294967296%Z] [0%Z] = Ok (metrics nan 0 4294967296)
  /\ ~ (forall y_true y_pred : list Z,
          length y_true = length y_pred -> integer_errors_as_stated y_true y_pred).
Proof.
  split; [reflexivity |]. intros H.
  destruct (H [4294967296%Z] [0%Z] eq_refl) as (m & Hm & Hrmse & _).
  apply (f_equal (fun r => match r with
                           | Ok a => a !! "RMSE"%string
                           | Raise _ => None
                           end)) in Hm.
  rewrite <- Hm in Hrmse. clear Hm.
  apply (f_equal (fun o => match o with
                           | Some x => (x =? 0)%float
                           | None => false
                           end)) in Hrmse.
  vm_compute in Hrmse. discriminate Hrmse.
Qed.

(** On [int64] arrays the sum of the absolute differences wraps around as
    well: the MAE of [5e18, 5e18] against [0, 0] is negative. *)
Lemma evaluate_regression_int64_negative_mae :
  exists m : gmap string float,
    evaluate_regression [5000000000000000000%Z; 5000000000000000000%Z] [0%Z; 0%Z]
    = Ok m
    /\ exists mae, m !! "MAE"%string = Some mae /\ (mae <? 0)%float = true.
Proof.
  eexists. split; [reflexivity |]. eexists. split; [reflexivity |]. reflexivity.
Qed.

(** ** Perfect predictions *)

Lemma zip_with_sub_diag (y : vec) :
  Forall (fun x => is_finite x = true) y ->
  zip_with PrimFloat.sub y y = repeat 0%float (length y).
Proof.
  induction 1 as [|x y Hx _ IH]; [reflexivity |].
  cbn. now rewrite FloatFacts.sub_diag, IH.
Qed.

Lemma np_sum_zeros (n : nat) : np_sum (repeat 0%float n) = 0%float.
Proof.
  apply (np_sum_closed (fun x => x = 0%float)).
  - reflexivity.
  - now intros x y -> ->.
  - induction n as [|n IH]; cbn; constructor; [reflexivity | exact IH].
Qed.

Lemma map_repeat_zero (f : float -> float) (n : nat) :
  f 0%float = 0%float -> map f (repeat 0%float n) = repeat 0%float n.
Proof.
  intros H. induction n as [|n IH]; [reflexivity |].
  cbn. now rewrite H, IH.
Qed.

(** C7, for a total sum of squares other than zero. When [y] is not empty
    and every entry of [y] is finite, [evaluate_regression(y, y)] returns
    RMSE = 0.0 and MAE = 0.0 exactly, and R2 = 1 - 0 / sum((y - mean(y))^2):
    exactly 1.0 when that sum is a number other than zero, and NaN when it
    is zero. A Python sequence has fewer than 2^63 entries. *)
Theorem evaluate_regression_perfect (y : vec) :
  Forall (fun x => is_finite x = true) y ->
  y <> [] ->
  (Z.of_nat (length y) < 2 ^ 63)%Z ->
  evaluate_regression y y
  = Ok (metrics (1 - 0 / sum_sq_total y)%float 0 0)
  /\ (is_nan (sum_sq_total y) = false -> (sum_sq_total y =? 0)%float = false ->
      perfect_scores y)
  /\ ((sum_sq_total y =? 0)%float = true ->
      evaluate_regression y y = Ok (metrics nan 0 0)).
Proof.
  intros Hfin Hne Hlen.
  assert (Hpos : 0 < length y) by (destruct y; [congruence | cbn; lia]).
  assert (Hres : sum_sq_residuals y y = 0%float).
  { unfold sum_sq_residuals. rewrite <- map_zip_with_float, zip_with_sub_diag by assumption.
    rewrite map_repeat_zero by reflexivity. apply np_sum_zeros. }
  assert (Habs : np_sum (zip_with (fun a b => PrimFloat.abs (a - b)) y y) = 0%float).
  { rewrite <- map_zip_with_float, zip_with_sub_diag by assumption.
    rewrite map_repeat_zero by reflexivity. apply np_sum_zeros. }
  assert (Heval : evaluate_regression y y
                  = Ok (metrics (1 - 0 / sum_sq_total y)%float 0 0)).
  { rewrite evaluate_regression_same_length by reflexivity.
    unfold r2_score, rmse_score, mae_score. rewrite Hres, Habs.
    rewrite FloatFacts.zero_div_float_of_nat by assumption.
    reflexivity. }
  split; [exact Heval |]. split.
  - intros Hnan Hnz. unfold perfect_scores. rewrite Heval.
    now rewrite FloatFacts.one_minus_zero_div.
  - intros Hz. rewrite Heval. now rewrite FloatFacts.one_minus_zero_div_zero.
Qed.

Lemma evaluate_regression_perfect_witness :
  perfect_scores [1%float; 2%float; 4%float].
Proof.
  apply (evaluate_regression_perfect [1%float; 2%float; 4%float]).
  - repeat constructor.
  - discriminate.
  - cbn. lia.
  - reflexivity.
  - reflexivity.
Defined.

(** C7 fails for a constant [y]: the total sum of squares is zero and R2 is
    [1 - 0/0], which is NaN. *)
Lemma evaluate_regression_constant_nan :
  evaluate_regression [5%float] [5%float] = Ok (metrics nan 0 0)
  /\ ~ perfect_scores [5%float].
Proof.
  split; [reflexivity |].
  unfold perfect_scores. intros H.
  apply (f_equal (fun r => match r with
                           | Ok m => match m !! "R2"%string with
                                     | Some x => is_nan x
                                     | None => false
                                     end
                           | Raise _ => false
                           end)) in H.
  vm_compute in H. discriminate H.
Qed.

(** The order of the additions decides whether the total sum of squares is
    zero: ten entries 0.1 (the binary64 nearest to one tenth) add up to 1.0
    in the lanes of [np.sum], their mean is 0.1, every difference to it is
    zero, and R2 is NaN; added from left to right they would add up to
    0.99999999999999989. *)
Lemma evaluate_regression_tenths :
  let y := repeat 0x1.999999999999ap-4%float 10 in
  np_sum y = 1%float
  /\ fold_left PrimFloat.add y 0%float = 0x1.fffffffffffffp-1%float
  /\ evaluate_regression y y = Ok (metrics nan 0 0).
Proof. cbv zeta. split; [reflexivity |]. split; reflexivity. Qed.

(** ** Equality of entries *)

Lemma cell_eqb_sym (a b : cell) : cell_eqb a b = true -> cell_eqb b a = true.
Proof.
  destruct a as [s|x], b as [t|y]; cbn; try discriminate.
  - now rewrite String.eqb_sym.
  - apply FloatFacts.eqb_sym.
Qed.

Lemma cell_eqb_trans (a b c : cell) :
  cell_eqb a b = true -> cell_eqb b c = true -> cell_eqb a c = true.
Proof.
  destruct a as [s|x], b as [t|y], c as [u|z]; cbn; try discriminate.
  - rewrite !String.eqb_eq. congruence.
  - apply FloatFacts.eqb_trans.
Qed.

(** An entry equal to itself is not NaN. *)
Lemma cell_eqb_refl_not_nan (a : cell) : cell_eqb a a = negb (cell_is_nan a).
Proof.
  destruct a as [s|x]; cbn.
  - apply String.eqb_refl.
  - apply FloatFacts.eqb_refl_not_nan.
Qed.

Lemma cell_same_eqb (a b : cell) :
  cell_eqb a a = true -> cell_same a b = cell_eqb a b.
Proof.
  intros H. unfold cell_same. rewrite cell_eqb_refl_not_nan in H.
  apply negb_true_iff in H. rewrite H. cbn. apply orb_false_r.
Qed.

(** ** The order of the entries *)

Lemma string_compare_refl (s : string) : String.compare s s = Eq.
Proof.
  pose proof (String.compare_antisym s s) as H.
  destruct (String.compare s s); try reflexivity; discriminate H.
Qed.

Lemma string_leb_trans (a : string) : forall b c : string,
  String.leb a b = true -> String.leb b c = true -> String.leb a c = true.
Proof.
  unfold String.leb.
  induction a as [|x a IH]; intros [|y b] [|z c]; cbn; try reflexivity; try discriminate.
  unfold Ascii.compare.
  destruct (N.compare_spec (N_of_ascii x) (N_of_ascii y)) as [E1|E1|E1];
    destruct (N.compare_spec (N_of_ascii y) (N_of_ascii z)) as [E2|E2|E2];
    destruct (N.compare_spec (N_of_ascii x) (N_of_ascii z)) as [E3|E3|E3];
    try reflexivity; try discriminate; try lia.
  apply IH.
Qed.

Lemma cell_leb_rank (x y : float) :
  is_nan x = false -> is_nan y = false ->
  cell_leb (CNum x) (CNum y) = true <-> rank_le (rank (Prim2SF x)) (rank (Prim2SF y)).
Proof.
  intros Hx Hy. cbn [cell_leb]. rewrite Hx, Hy, FloatAxioms.leb_spec.
  apply FloatFacts.SFleb_rank; now apply FloatFacts.is_nan_spec.
Qed.

Lemma cell_ltb_rank (x y : float) :
  is_nan x = false -> is_nan y = false ->
  cell_ltb (CNum x) (CNum y) = true <-> ~ rank_le (rank (Prim2SF y)) (rank (Prim2SF x)).
Proof.
  intros Hx Hy. cbn [cell_ltb]. rewrite FloatAxioms.ltb_spec.
  apply FloatFacts.SFltb_rank; now apply FloatFacts.is_nan_spec.
Qed.

Lemma cell_eqb_rank (x y : float) :
  is_nan x = false -> is_nan y = false ->
  cell_eqb (CNum x) (CNum y) = true
  <-> rank_le (rank (Prim2SF x)) (rank (Prim2SF y))
      /\ rank_le (rank (Prim2SF y)) (rank (Prim2SF x)).
Proof.
  intros Hx Hy. cbn [cell_eqb]. rewrite FloatAxioms.eqb_spec.
  apply FloatFacts.SFeqb_rank; now apply FloatFacts.is_nan_spec.
Qed.

Lemma cell_leb_trans (a b c : cell) :
  comparable a b -> comparable b c ->
  cell_leb a b = true -> cell_leb b c = true -> cell_leb a c = true.
Proof.
  intros (K1 & Na & Nb) (K2 & _ & Nc).
  destruct a as [s|x], b as [t|y], c as [r|z]; try discriminate; cbn in Na, Nb, Nc.
  - apply string_leb_trans.
  - rewrite !cell_leb_rank by assumption. apply FloatFacts.rank_le_trans.
Qed.

(** [x < p] is false: [p <= x]. *)
Lemma cell_ltb_false (x p : cell) :
  comparable x p -> cell_ltb x p = false -> cell_leb p x = true.
Proof.
  intros (K & Nx & Np). destruct x as [s|x], p as [t|y]; try discriminate;
    cbn in Nx, Np.
  - cbn. unfold String.ltb, String.leb. rewrite (String.compare_antisym s t).
    destruct (String.compare t s); cbn; intros H; try reflexivity; discriminate H.
  - intros H. apply cell_leb_rank; try assumption.
    destruct (FloatFacts.rank_le_cases (rank (Prim2SF y)) (rank (Prim2SF x))) as [L|N];
      [exact L |].
    apply (cell_ltb_rank x y Nx Np) in N. congruence.
Qed.

Lemma cell_ltb_leb (x p : cell) :
  comparable x p -> cell_ltb x p = true -> cell_leb x p = true.
Proof.
  intros (K & Nx & Np). destruct x as [s|x], p as [t|y]; try discriminate;
    cbn in Nx, Np.
  - cbn. unfold String.ltb, String.leb. now destruct (String.compare s t).
  - rewrite cell_ltb_rank, cell_leb_rank by assumption. apply FloatFacts.rank_le_total.
Qed.

Lemma cell_leb_antisym (a b : cell) :
  comparable a b -> cell_leb a b = true -> cell_leb b a = true -> cell_eqb a b = true.
Proof.
  intros (K & Na & Nb). destruct a as [s|x], b as [t|y]; try discriminate;
    cbn in Na, Nb.
  - cbn. intros H1 H2. rewrite (String.leb_antisym s t H1 H2). apply String.eqb_refl.
  - rewrite !cell_leb_rank, cell_eqb_rank by assumption. tauto.
Qed.

Lemma cell_eqb_leb (a b : cell) :
  comparable a b -> cell_eqb a b = true -> cell_leb b a = true.
Proof.
  intros (K & Na & Nb). destruct a as [s|x], b as [t|y]; try discriminate;
    cbn in Na, Nb.
  - cbn. rewrite String.eqb_eq. intros ->. unfold String.leb.
    now rewrite string_compare_refl.
  - rewrite cell_leb_rank, cell_eqb_rank by assumption. tauto.
Qed.

(** ** np.unique keeps one entry for every value *)

Lemma homogeneous_kind (col : list cell) :
  homogeneous col = true -> exists k, Forall (fun c => is_str c = k) col.
Proof.
  destruct col as [|c col]; [now exists true |].
  cbn [homogeneous]. rewrite forallb_forall. intros H.
  exists (is_str c). constructor; [reflexivity |].
  apply Forall_forall. intros d Hd. apply list_elem_of_In in Hd. specialize (H d Hd).
  destruct c, d; cbn in *; congruence.
Qed.


Lemma count_eq_cons (v c : cell) (l : list cell) :
  count_eq v (c :: l) = (if cell_eqb v c then 1 else 0) + count_eq v l.
Proof.
  unfold count_eq. rewrite filter_cons.
  destruct (decide (cell_eqb v c = true)) as [E|E].
  - now rewrite E.
  - apply not_true_is_false in E. now rewrite E.
Qed.

Lemma count_eq_insert_sorted (v x : cell) (l : list cell) :
  count_eq v (insert_sorted x l) = count_eq v (x :: l).
Proof.
  induction l as [|u l IH]; [reflexivity |].
  cbn [insert_sorted]. destruct (cell_leb x u); [reflexivity |].
  rewrite !count_eq_cons, IH, count_eq_cons. lia.
Qed.

Lemma count_eq_zero (v : cell) (l : list cell) :
  count_eq v l = 0 <-> existsb (cell_eqb v) l = false.
Proof.
  induction l as [|c l IH]; [easy |].
  rewrite count_eq_cons. cbn [existsb].
  destruct (cell_eqb v c); cbn; [split; [lia | discriminate] | exact IH].
Qed.

Lemma existsb_same_eqb (v x : cell) (l : list cell) :
  cell_eqb v x = true ->
  existsb (cell_same x) l = existsb (cell_eqb v) l.
Proof.
  intros Hvx.
  assert (Hx : cell_eqb x x = true).
  { apply cell_eqb_trans with v; [now apply cell_eqb_sym | assumption]. }
  induction l as [|c l IH]; [reflexivity |].
  cbn [existsb]. rewrite IH, (cell_same_eqb x c Hx). f_equal.
  destruct (cell_eqb x c) eqn:E1, (cell_eqb v c) eqn:E2; try reflexivity.
  - rewrite (cell_eqb_trans v x c Hvx E1) in E2. discriminate.
  - rewrite (cell_eqb_trans x v c (cell_eqb_sym _ _ Hvx) E2) in E1. discriminate.
Qed.

Lemma insert_unique_once (l : list cell) (x : cell) :
  each_once l -> each_once (insert_unique l x).
Proof.
  intros H v. unfold insert_unique.
  destruct (existsb (cell_same x) l) eqn:E; [apply H |].
  rewrite count_eq_insert_sorted, count_eq_cons.
  destruct (cell_eqb v x) eqn:Hvx; [| apply H].
  rewrite (existsb_same_eqb v x l Hvx) in E.
  apply count_eq_zero in E. lia.
Qed.

Lemma insert_unique_mono (l : list cell) (x v : cell) :
  count_eq v l <= count_eq v (insert_unique l x).
Proof.
  unfold insert_unique. destruct (existsb (cell_same x) l); [lia |].
  rewrite count_eq_insert_sorted, count_eq_cons. lia.
Qed.

Lemma insert_unique_present (l : list cell) (x v : cell) :
  cell_eqb v x = true -> 1 <= count_eq v (insert_unique l x).
Proof.
  intros Hvx. unfold insert_unique.
  destruct (existsb (cell_same x) l) eqn:E.
  - rewrite (existsb_same_eqb v x l Hvx) in E.
    destruct (count_eq v l) eqn:C; [| lia].
    apply count_eq_zero in C. congruence.
  - rewrite count_eq_insert_sorted, count_eq_cons, Hvx. lia.
Qed.

Lemma fold_insert_unique_once (col acc : list cell) :
  each_once acc -> each_once (fold_left insert_unique col acc).
Proof.
  revert acc. induction col as [|x col IH]; intros acc H; [exact H |].
  cbn [fold_left]. apply IH. now apply insert_unique_once.
Qed.

Lemma fold_insert_unique_mono (col acc : list cell) (v : cell) :
  count_eq v acc <= count_eq v (fold_left insert_unique col acc).
Proof.
  revert acc. induction col as [|x col IH]; intros acc; [reflexivity |].
  cbn [fold_left]. etransitivity; [apply (insert_unique_mono acc x v) | apply IH].
Qed.

Lemma fold_insert_unique_present (col acc : list cell) (v : cell) :
  In v col -> cell_eqb v v = true ->
  1 <= count_eq v (fold_left insert_unique col acc).
Proof.
  revert acc. induction col as [|x col IH]; intros acc Hin Hv; [destruct Hin |].
  cbn [fold_left]. destruct Hin as [->|Hin].
  - etransitivity; [apply (insert_unique_present acc v v Hv) |].
    apply fold_insert_unique_mono.
  - now apply IH.
Qed.

(** ** np.unique of an object array *)

Lemma in_insert_back (a x : cell) (l : list cell) :
  In a (insert_back x l) <-> a = x \/ In a l.
Proof.
  induction l as [|p l IH]; cbn [insert_back].
  - cbn. intuition.
  - destruct (cell_ltb x p); cbn [In]; [rewrite IH |]; intuition.
Qed.

Lemma in_sort_objects (a : cell) (col : list cell) :
  In a (sort_objects col) <-> In a col.
Proof.
  unfold sort_objects. rewrite <- in_rev.
  assert (H : forall acc, In a (fold_left (fun before x => insert_back x before) col acc)
                          <-> In a col \/ In a acc).
  { induction col as [|x col IH]; intros acc; cbn [fold_left].
    - cbn. intuition.
    - rewrite IH, in_insert_back. cbn. intuition. }
  rewrite H. cbn. intuition.
Qed.

Lemma in_drop_repeats (y previous : cell) (l : list cell) :
  In y (drop_repeats previous l) -> In y l.
Proof.
  revert previous. induction l as [|x l IH]; intros previous; cbn [drop_repeats].
  - intros [].
  - destruct (cell_eqb x previous); cbn [In]; intros H.
    + right. now apply (IH x).
    + destruct H as [H|H]; [now left | right; now apply (IH x)].
Qed.

Lemma in_unique_adjacent (y : cell) (l : list cell) :
  In y (unique_adjacent l) -> In y l.
Proof.
  destruct l as [|x l]; [intros [] |]. cbn [unique_adjacent In].
  intros [H|H]; [now left | right; now apply (in_drop_repeats y x)].
Qed.

(** An entry has an equal entry among those kept, or is equal to the entry
    before the list. *)
Lemma drop_repeats_represents (v : cell) (l : list cell) :
  forall previous : cell,
    In v l -> cell_eqb v v = true ->
    cell_eqb v previous = true
    \/ exists c, In c (drop_repeats previous l) /\ cell_eqb v c = true.
Proof.
  induction l as [|x l IH]; intros previous Hin Hv; [destruct Hin |].
  cbn [drop_repeats].
  assert (Hx : cell_eqb v x = true ->
               cell_eqb v previous = true
               \/ exists c, In c (if cell_eqb x previous then drop_repeats x l
                                  else x :: drop_repeats x l)
                            /\ cell_eqb v c = true).
  { intros E. destruct (cell_eqb x previous) eqn:Ex.
    - left. now apply cell_eqb_trans with x.
    - right. exists x. split; [now left | exact E]. }
  destruct Hin as [->|Hin]; [now apply Hx |].
  destruct (IH x Hin Hv) as [E|(c & Hc & E)]; [now apply Hx |].
  right. exists c. split; [| exact E].
  destruct (cell_eqb x previous); [exact Hc | now right].
Qed.

Lemma unique_adjacent_represents (v : cell) (l : list cell) :
  In v l -> cell_eqb v v = true ->
  exists c, In c (unique_adjacent l) /\ cell_eqb v c = true.
Proof.
  destruct l as [|x l]; [intros [] |]. cbn [unique_adjacent]. intros Hin Hv.
  destruct Hin as [->|Hin]; [exists v; split; [now left | exact Hv] |].
  destruct (drop_repeats_represents v l x Hin Hv) as [E|(c & Hc & E)].
  - exists x. split; [now left | exact E].
  - exists c. split; [now right | exact E].
Qed.

Lemma count_eq_present (v c : cell) (l : list cell) :
  In c l -> cell_eqb v c = true -> 1 <= count_eq v l.
Proof.
  intros Hin E. destruct (count_eq v l) eqn:C; [| lia].
  apply count_eq_zero in C.
  assert (H : existsb (cell_eqb v) l = true) by (apply existsb_exists; eauto).
  congruence.
Qed.

Lemma count_eq_absent (v : cell) (l : list cell) :
  (forall y, In y l -> cell_eqb v y = false) -> count_eq v l = 0.
Proof.
  intros H. apply count_eq_zero.
  destruct (existsb (cell_eqb v) l) eqn:E; [| reflexivity].
  apply existsb_exists in E as (y & Hy & Ey). now rewrite (H y Hy) in Ey.
Qed.

(** *** Sorted columns *)

Lemma all_comparable_column (col : list cell) :
  homogeneous col = true -> no_nan col -> all_comparable col.
Proof.
  intros Hh Hn a b Ha Hb. destruct (homogeneous_kind col Hh) as [k Hk].
  unfold no_nan in Hn. rewrite Forall_forall in Hk, Hn.
  apply list_elem_of_In in Ha, Hb.
  repeat split; [now rewrite (Hk a Ha), (Hk b Hb) | now apply Hn | now apply Hn].
Qed.

Lemma insert_back_sorted (x : cell) (before : list cell) :
  all_comparable (x :: before) ->
  StronglySorted (fun a b => cell_leb b a = true) before ->
  StronglySorted (fun a b => cell_leb b a = true) (insert_back x before).
Proof.
  intros Hc Hs. induction Hs as [|p l Hs IH Hp]; cbn [insert_back].
  - repeat constructor.
  - assert (Hxp : comparable x p) by (apply Hc; cbn; auto).
    destruct (cell_ltb x p) eqn:E.
    + constructor.
      * apply IH. intros a b Ha Hb. apply Hc; cbn in *; tauto.
      * apply Forall_forall. intros a Ha. apply list_elem_of_In, in_insert_back in Ha.
        destruct Ha as [->|Ha]; [now apply cell_ltb_leb |].
        rewrite Forall_forall in Hp. now apply Hp, list_elem_of_In.
    + constructor; [now constructor |].
      pose proof (cell_ltb_false x p Hxp E) as Hpx.
      constructor; [exact Hpx |].
      apply Forall_forall. intros a Ha. apply list_elem_of_In in Ha.
      rewrite Forall_forall in Hp.
      apply cell_leb_trans with p.
      * apply Hc; cbn; auto.
      * apply Hc; cbn; auto.
      * now apply Hp, list_elem_of_In.
      * exact Hpx.
Qed.

Lemma StronglySorted_rev {A : Type} (R : A -> A -> Prop) (l : list A) :
  StronglySorted (fun a b => R b a) l -> StronglySorted R (rev l).
Proof.
  induction 1 as [|a l _ IH Ha]; cbn [rev]; [constructor |].
  apply StronglySorted_app_2; [| exact IH | repeat constructor].
  intros x1 x2 H1 H2. apply list_elem_of_In in H2. destruct H2 as [<-|[]].
  rewrite Forall_forall in Ha. apply Ha. apply list_elem_of_In.
  apply in_rev. now apply list_elem_of_In.
Qed.

Lemma sort_objects_sorted (col : list cell) :
  all_comparable col ->
  StronglySorted (fun a b => cell_leb a b = true) (sort_objects col).
Proof.
  intros Hc. unfold sort_objects. apply StronglySorted_rev.
  assert (H : forall acc,
            (forall a b, In a (col ++ acc) -> In b (col ++ acc) -> comparable a b) ->
            StronglySorted (fun a b => cell_leb b a = true) acc ->
            StronglySorted (fun a b => cell_leb b a = true)
              (fold_left (fun before x => insert_back x before) col acc)).
  { clear Hc. induction col as [|x col IH]; intros acc Hc Hs; [exact Hs |].
    cbn [fold_left]. apply IH.
    - intros a b Ha Hb. apply Hc.
      + apply in_app_or in Ha as [Ha|Ha]; [right; apply in_or_app; now left |].
        apply in_insert_back in Ha as [->|Ha]; [now left |].
        right. apply in_or_app. now right.
      + apply in_app_or in Hb as [Hb|Hb]; [right; apply in_or_app; now left |].
        apply in_insert_back in Hb as [->|Hb]; [now left |].
        right. apply in_or_app. now right.
    - apply insert_back_sorted; [| exact Hs].
      intros a b Ha Hb. apply Hc.
      + destruct Ha as [->|Ha]; [now left | right; apply in_or_app; now right].
      + destruct Hb as [->|Hb]; [now left | right; apply in_or_app; now right]. }
  apply H; [| constructor].
  intros a b Ha Hb. rewrite app_nil_r in Ha, Hb. now apply Hc.
Qed.

Lemma drop_repeats_sorted (R : cell -> cell -> Prop) (l : list cell) :
  forall previous, StronglySorted R l -> StronglySorted R (drop_repeats previous l).
Proof.
  induction l as [|x l IH]; intros previous Hs; [constructor |].
  apply StronglySorted_inv in Hs as [Hs Hx]. cbn [drop_repeats].
  destruct (cell_eqb x previous); [now apply IH |].
  constructor; [now apply IH |].
  apply Forall_forall. intros y Hy. apply list_elem_of_In, in_drop_repeats in Hy.
  rewrite Forall_forall in Hx. now apply Hx, list_elem_of_In.
Qed.

Lemma unique_adjacent_sorted (R : cell -> cell -> Prop) (l : list cell) :
  StronglySorted R l -> StronglySorted R (unique_adjacent l).
Proof.
  destruct l as [|x l]; [constructor |]. intros Hs.
  apply StronglySorted_inv in Hs as [Hs Hx]. cbn [unique_adjacent].
  constructor; [now apply drop_repeats_sorted |].
  apply Forall_forall. intros y Hy. apply list_elem_of_In, in_drop_repeats in Hy.
  rewrite Forall_forall in Hx. now apply Hx, list_elem_of_In.
Qed.

(** In a sorted list of comparable entries, the entries kept after
    [previous] occur once each, and none is equal to [previous]. *)
Lemma drop_repeats_once (l : list cell) :
  forall previous : cell,
    all_comparable (previous :: l) ->
    StronglySorted (fun a b => cell_leb a b = true) (previous :: l) ->
    forall v,
      count_eq v (drop_repeats previous l) <= 1
      /\ (cell_eqb v previous = true -> count_eq v (drop_repeats previous l) = 0).
Proof.
  induction l as [|x l IH]; intros previous Hc Hs v; [cbn; split; [lia | reflexivity] |].
  apply StronglySorted_inv in Hs as [Hs Hp].
  assert (Hc' : all_comparable (x :: l)).
  { intros a b Ha Hb. apply Hc; now right. }
  destruct (IH x Hc' Hs v) as [H1 H2].
  apply Forall_cons in Hp as [Hpx Hpl].
  cbn [drop_repeats]. destruct (cell_eqb x previous) eqn:Ex.
  - split; [exact H1 |]. intros Ev. apply H2.
    apply cell_eqb_trans with previous; [exact Ev | now apply cell_eqb_sym].
  - rewrite count_eq_cons. split.
    + destruct (cell_eqb v x) eqn:Evx; [rewrite (H2 eq_refl) |]; lia.
    + intros Ev.
      assert (Evx : cell_eqb v x = false).
      { destruct (cell_eqb v x) eqn:Evx; [| reflexivity].
        rewrite (cell_eqb_trans x v previous (cell_eqb_sym _ _ Evx) Ev) in Ex.
        discriminate Ex. }
      rewrite Evx. cbn [Nat.add]. apply count_eq_absent. intros y Hy.
      apply in_drop_repeats in Hy.
      destruct (cell_eqb v y) eqn:Evy; [| reflexivity]. exfalso.
      assert (Epy : cell_eqb previous y = true).
      { apply cell_eqb_trans with v; [now apply cell_eqb_sym | exact Evy]. }
      assert (Hxy : cell_leb x y = true).
      { apply StronglySorted_inv in Hs as [_ Hx]. rewrite Forall_forall in Hx.
        now apply Hx, list_elem_of_In. }
      assert (Cpy : comparable previous y).
      { apply Hc; [now left | right; now right]. }
      assert (Cxp : comparable x previous).
      { apply Hc; [right; now left | now left]. }
      assert (Cxy : comparable x y).
      { apply Hc; right; [now left | now right]. }
      assert (Cyp : comparable y previous).
      { apply Hc; [right; now right | now left]. }
      pose proof (cell_eqb_leb previous y Cpy Epy) as Hyp.
      pose proof (cell_leb_trans x y previous Cxy Cyp Hxy Hyp) as Hxp.
      rewrite (cell_leb_antisym x previous Cxp Hxp Hpx) in Ex. discriminate Ex.
Qed.

Lemma unique_adjacent_once (l : list cell) :
  all_comparable l ->
  StronglySorted (fun a b => cell_leb a b = true) l ->
  each_once (unique_adjacent l).
Proof.
  destruct l as [|x l]; intros Hc Hs v; [cbn; lia |].
  cbn [unique_adjacent]. rewrite count_eq_cons.
  destruct (drop_repeats_once l x Hc Hs v) as [H1 H2].
  destruct (cell_eqb v x); [rewrite (H2 eq_refl) |]; lia.
Qed.

(** An entry of the column that is not NaN is equal to one at least of the
    values [np.unique] returns. *)
Lemma np_unique_present (dt : dtype) (col u : list cell) (v : cell) :
  np_unique dt col = Ok u -> In v col -> cell_eqb v v = true -> 1 <= count_eq v u.
Proof.
  unfold np_unique. destruct (homogeneous col); [| discriminate].
  intros H Hin Hv.
  assert (E : u = match dt with
                  | Object => unique_adjacent (sort_objects col)
                  | _ => fold_left insert_unique col []
                  end) by congruence.
  subst u. clear H. destruct dt.
  - now apply fold_insert_unique_present.
  - now apply fold_insert_unique_present.
  - destruct (unique_adjacent_represents v (sort_objects col)) as (c & Hc & E);
      [exact (proj2 (in_sort_objects v col) Hin) | exact Hv |].
    now apply (count_eq_present v c).
Qed.

(** The values [np.unique] returns for a sortable column are different from
    one another. *)
Lemma np_unique_once (dt : dtype) (col u : list cell) :
  np_unique dt col = Ok u -> sortable dt col -> each_once u.
Proof.
  unfold np_unique. destruct (homogeneous col) eqn:Hh; [| discriminate].
  intros H Hs.
  assert (E : u = match dt with
                  | Object => unique_adjacent (sort_objects col)
                  | _ => fold_left insert_unique col []
                  end) by congruence.
  subst u. clear H. destruct dt.
  - apply fold_insert_unique_once. intros v. cbn. lia.
  - apply fold_insert_unique_once. intros v. cbn. lia.
  - assert (Hc : all_comparable (sort_objects col)).
    { intros a b Ha Hb.
      exact (all_comparable_column col Hh (Hs eq_refl) a b
               (proj1 (in_sort_objects a col) Ha) (proj1 (in_sort_objects b col) Hb)). }
    apply unique_adjacent_once; [exact Hc |].
    apply sort_objects_sorted. now apply all_comparable_column, Hs.
Qed.

(** An entry of a sortable column that is not NaN is equal to exactly one
    of the values [np.unique] returns. *)
Lemma np_unique_count (dt : dtype) (col u : list cell) (v : cell) :
  np_unique dt col = Ok u -> sortable dt col ->
  In v col -> cell_eqb v v = true -> count_eq v u = 1.
Proof.
  intros Hu Hs Hin Hv.
  pose proof (np_unique_once dt col u Hu Hs v).
  pose proof (np_unique_present dt col u v Hu Hin Hv). lia.
Qed.

(** NaN is equal to none of them. *)
Lemma count_eq_nan (v : cell) (l : list cell) :
  cell_eqb v v = false -> count_eq v l = 0.
Proof.
  intros Hv. apply count_eq_zero. induction l as [|c l IH]; [reflexivity |].
  cbn [existsb]. rewrite IH, orb_false_r.
  destruct (cell_eqb v c) eqn:E; [| reflexivity].
  now rewrite (cell_eqb_trans v c v E (cell_eqb_sym _ _ E)) in Hv.
Qed.

(** ** The indicator block *)

Lemma length_indicator_row (u : list cell) (v : cell) :
  length (indicator_row u v) = length u.
Proof. unfold indicator_row. now rewrite length_map. Qed.

Lemma sum_indicator_row (u : list cell) (v : cell) :
  forall acc : float,
    (count_eq v u = 0 -> acc = 0%float \/ acc = 1%float ->
     fold_left PrimFloat.add (map cell_num (indicator_row u v)) acc = acc)
    /\ (count_eq v u = 1 -> acc = 0%float ->
        fold_left PrimFloat.add (map cell_num (indicator_row u v)) acc = 1%float).
Proof.
  induction u as [|c u IH]; intros acc.
  - split; [reflexivity | discriminate].
  - rewrite count_eq_cons. cbn [indicator_row map fold_left]. unfold indicator.
    fold (indicator_row u v).
    destruct (cell_eqb v c); cbn [cell_num]; split; intros Hc Hacc;
      cbn [Nat.add] in Hc.
    + lia.
    + subst acc. change (0 + 1)%float with 1%float.
      apply (proj1 (IH 1%float)); [lia | now right].
    + destruct Hacc as [-> | ->].
      * change (0 + 0)%float with 0%float. apply (proj1 (IH 0%float)); auto.
      * change (1 + 0)%float with 1%float. apply (proj1 (IH 1%float)); auto.
    + subst acc. change (0 + 0)%float with 0%float.
      now apply (proj2 (IH 0%float)).
Qed.

Lemma row_sum_absent (u : list cell) (v : cell) :
  count_eq v u = 0 -> row_sum (indicator_row u v) = 0%float.
Proof. intros H. apply (sum_indicator_row u v 0%float); auto. Qed.

Lemma row_sum_present (u : list cell) (v : cell) :
  count_eq v u = 1 -> row_sum (indicator_row u v) = 1%float.
Proof. intros H. apply (sum_indicator_row u v 0%float); auto. Qed.

(** ** Filling the columns of one_hot *)

Lemma zip_with_map_same {A B C D : Type} (f : B -> C -> D) (g : A -> B)
    (k : A -> C) (l : list A) :
  zip_with f (map g l) (map k l) = map (fun x => f (g x) (k x)) l.
Proof. induction l as [|x l IH]; cbn; [reflexivity | now rewrite IH]. Qed.

Lemma repeat_as_map {A B : Type} (x : B) (l : list A) :
  repeat x (length l) = map (fun _ => x) l.
Proof. induction l as [|y l IH]; cbn; [reflexivity | now rewrite IH]. Qed.

Lemma fill_value_block (col : list cell) (rest : list cell) :
  forall done : list cell,
    fill_value col (length done) rest
      (Typed Float64
         (Mat (length (done ++ rest))
              (map (fun v => indicator_row done v ++ repeat (CNum 0) (length rest)) col)))
    = one_hot_block col (done ++ rest).
Proof.
  induction rest as [|c rest IH]; intros done.
  - cbn [fill_value length repeat]. unfold one_hot_block. f_equal. f_equal.
    apply map_ext. intros v. now rewrite !app_nil_r.
  - cbn [fill_value]. unfold set_column. cbn [ncols rows cells dtype_of].
    rewrite zip_with_map_same.
    replace (done ++ c :: rest) with ((done ++ [c]) ++ rest)
      by now rewrite <- app_assoc.
    rewrite <- (IH (done ++ [c])).
    replace (length (done ++ [c])) with (S (length done))
      by (rewrite length_app; cbn; lia).
    f_equal. f_equal. f_equal. apply map_ext. intros v.
    rewrite insert_app_r_alt by (rewrite length_indicator_row; lia).
    rewrite length_indicator_row, Nat.sub_diag. cbn [repeat].
    unfold indicator_row. rewrite map_app, <- app_assoc. reflexivity.
Qed.

Lemma fill_value_zeros (col u : list cell) :
  fill_value col 0 u (np_zeros (length col) (length u)) = one_hot_block col u.
Proof.
  unfold np_zeros. rewrite repeat_as_map. exact (fill_value_block col u []).
Qed.

(** ** The arrays by reference and by value *)

Lemma fresh_unused (h : heap) : h !! fresh (dom h) = None.
Proof. apply not_elem_of_dom, is_fresh. Qed.

Lemma subseteq_none (h h1 : heap) (l : loc) :
  h ⊆ h1 -> h1 !! l = None -> h !! l = None.
Proof.
  intros Hsub Hl. destruct (h !! l) as [a|] eqn:E; [| reflexivity].
  rewrite (lookup_weaken h h1 l a E Hsub) in Hl. discriminate.
Qed.

Lemma alloc_refines (a : tarray) (h0 h : heap) :
  h0 ⊆ h -> refines h0 h (alloc a h) (Ok a).
Proof.
  intros H0. unfold refines, alloc. cbn [fst snd]. split.
  - apply insert_subseteq, fresh_unused.
  - exists (fresh (dom h)). split; [reflexivity |]. split.
    + apply (subseteq_none h0 h); [assumption | apply fresh_unused].
    + apply lookup_insert_eq.
Qed.

Lemma fill_columns_heap (one_hot : loc) (col u : list cell) :
  forall (i : nat) (a : tarray) (h : heap),
    h !! one_hot = Some a ->
    fill_columns one_hot col i u h
    = (Ok tt, <[one_hot := fill_value col i u a]> h).
Proof.
  induction u as [|c u IH]; intros i a h Ha.
  - cbn [fill_columns fill_value]. unfold ret. f_equal. symmetry.
    now apply insert_id.
  - cbn [fill_columns fill_value]. unfold bind at 1.
    unfold store_column, bind, load. rewrite Ha.
    rewrite (IH (S i) (set_column i (map (indicator c) col) a)).
    + now rewrite insert_insert_eq.
    + apply lookup_insert_eq.
Qed.

Lemma refines_weaken (h0 h h1 : heap) (out : res loc * heap)
    (b : res tarray) :
  h ⊆ h1 -> refines h0 h1 out b -> refines h0 h out b.
Proof.
  intros Hsub [H1 H2]. split; [now transitivity h1 | exact H2].
Qed.

Lemma encode_column_refines (X xt : loc) (drop_first : bool) (index : Z)
    (x t : tarray) (h0 h : heap) :
  h0 ⊆ h -> h !! X = Some x -> h !! xt = Some t ->
  refines h0 h (encode_column X drop_first xt index h)
          (encoded_column x drop_first t index).
Proof.
  intros H0 HX Hxt. unfold encode_column, encoded_column.
  unfold bind at 1. unfold load at 1. rewrite HX.
  unfold bind at 1. unfold lift at 1.
  destruct (index_position (ncols x) index) as [j|e]; cbn [res_bind];
    [| now split].
  unfold bind at 1. unfold lift at 1.
  destruct (np_unique (dtype_of x) (get_column j x)) as [u|e]; cbn [res_bind];
    [| now split].
  set (col := get_column j x).
  set (l1 := fresh (dom h)).
  assert (Hl1 : h !! l1 = None) by apply fresh_unused.
  unfold bind at 1. unfold alloc at 1. fold l1.
  unfold bind at 1.
  rewrite (fill_columns_heap l1 col u 0 (np_zeros (length col) (length u)))
    by apply lookup_insert_eq.
  rewrite insert_insert_eq, fill_value_zeros.
  set (h2 := <[l1 := one_hot_block col u]> h).
  assert (Hsub : h ⊆ h2) by now apply insert_subseteq.
  unfold bind at 1. unfold load at 1.
  replace (h2 !! l1) with (Some (one_hot_block col u))
    by (symmetry; apply lookup_insert_eq).
  unfold bind at 1. unfold load at 1.
  rewrite (lookup_weaken h h2 xt t Hxt Hsub).
  unfold bind at 1. unfold lift at 1.
  destruct (hstack _ _ _) as [r|e]; [| now split].
  apply refines_weaken with h2; [assumption |].
  apply alloc_refines. now transitivity h.
Qed.

Lemma encode_columns_refines (X : loc) (drop_first : bool) (x : tarray)
    (h0 : heap) (indices : list Z) :
  forall (xt : loc) (t : tarray) (h : heap),
    h0 ⊆ h -> h !! X = Some x -> h !! xt = Some t -> h0 !! xt = None ->
    refines h0 h (encode_columns X drop_first xt indices h)
            (encoded_columns x drop_first t indices).
Proof.
  induction indices as [|index rest IH]; intros xt t h H0 HX Hxt Hnew.
  - cbn [encode_columns encoded_columns]. unfold ret. split; [reflexivity |].
    now exists xt.
  - cbn [encode_columns encoded_columns]. unfold bind.
    destruct (encode_column_refines X xt drop_first index x t h0 h H0 HX Hxt)
      as [Hsub Hres].
    destruct (encode_column X drop_first xt index h) as [r h1].
    cbn [fst snd] in Hsub, Hres.
    destruct (encoded_column x drop_first t index) as [t'|e]; cbn [res_bind].
    + destruct Hres as (l & -> & Hl0 & Hl1).
      apply refines_weaken with h1; [assumption |].
      apply IH; auto.
      * now transitivity h.
      * exact (lookup_weaken h h1 X x HX Hsub).
    + rewrite Hres. now split.
Qed.

(** [one_hot_encode] on references computes [encoded] on arrays, in a new
    array, and changes no array that existed. *)
Lemma one_hot_encode_refines (X : loc) (categorical_indices : list Z)
    (drop_first : bool) (x : tarray) (h : heap) :
  h !! X = Some x ->
  refines h h (one_hot_encode X categorical_indices drop_first h)
          (encoded x categorical_indices drop_first).
Proof.
  intros HX. unfold one_hot_encode, encoded.
  unfold bind at 1. unfold load at 1. rewrite HX.
  unfold bind at 1. unfold alloc at 1.
  set (l := fresh (dom h)).
  assert (Hl : h !! l = None) by apply fresh_unused.
  apply refines_weaken with (<[l := x]> h); [now apply insert_subseteq |].
  apply encode_columns_refines.
  - now apply insert_subseteq.
  - rewrite lookup_insert_ne; [assumption |]. intros ->. congruence.
  - apply lookup_insert_eq.
  - assumption.
Qed.

(** C10. When [X] refers to an array, [one_hot_encode] leaves that array,
    and every other array that existed, exactly as it was, whether it
    returns or raises; the reference it returns is to a new array, which is
    not [X] and holds the encoded matrix. *)
Theorem one_hot_encode_input_unchanged (X : loc) (categorical_indices : list Z)
    (drop_first : bool) (x : tarray) (h : heap) :
  h !! X = Some x ->
  let out := one_hot_encode X categorical_indices drop_first h in
  snd out !! X = Some x
  /\ (forall (l : loc) (a : tarray), h !! l = Some a -> snd out !! l = Some a)
  /\ (forall l : loc, fst out = Ok l ->
        l <> X /\ h !! l = None
        /\ exists y, encoded x categorical_indices drop_first = Ok y
                     /\ snd out !! l = Some y).
Proof.
  intros HX out.
  destruct (one_hot_encode_refines X categorical_indices drop_first x h HX)
    as [Hsub Hres].
  fold out in Hsub, Hres.
  assert (Hframe : forall l a, h !! l = Some a -> snd out !! l = Some a).
  { intros l a Hl. exact (lookup_weaken h (snd out) l a Hl Hsub). }
  split; [now apply Hframe |]. split; [exact Hframe |].
  intros l Hl. destruct (encoded x categorical_indices drop_first) as [y|e].
  - destruct Hres as (l' & E & Hnew & Hy). rewrite Hl in E. injection E as <-.
    split; [intros ->; congruence |]. split; [assumption |]. now exists y.
  - rewrite Hl in Hres. discriminate.
Qed.

Lemma one_hot_encode_input_unchanged_witness :
  let x := Typed Object (Mat 2 [[CStr "a"; CNum 10]; [CStr "b"; CNum 20]]) in
  let h : heap := {[ 0 := x ]} in
  let out := one_hot_encode 0 [0%Z] true h in
  snd out !! 0 = Some x
  /\ (forall (l : loc) (a : tarray), h !! l = Some a -> snd out !! l = Some a)
  /\ (forall l : loc, fst out = Ok l ->
        l <> 0 /\ h !! l = None
        /\ exists y, encoded x [0%Z] true = Ok y /\ snd out !! l = Some y).
Proof.
  intros x h.
  apply (one_hot_encode_input_unchanged 0 [0%Z] true x h).
  reflexivity.
Defined.

(** C9 fails for the array that [np.array] builds from the list of the
    scenario, a string array: [np.hstack] puts the indicators next to
    strings, and they become the strings "0.0" and "1.0". The array
    returned has two columns, in the order blue, red, but no number. *)
Lemma one_hot_encode_colours_strings :
  let h : heap := {[ 0 := colours ]} in
  returned (one_hot_encode 0 [0%Z] false h)
  = Ok (Some (Typed Str (Mat 2 [[CStr "0.0"; CStr "1.0"];
                                [CStr "1.0"; CStr "0.0"];
                                [CStr "0.0"; CStr "1.0"]])))
  /\ ~ colours_output_as_stated 0 h.
Proof.
  cbv zeta. split; [reflexivity |].
  intros (l & y & Hl & Hy & _ & Hrows).
  change (fst (one_hot_encode 0 [0%Z] false ({[ 0 := colours ]} : heap)))
    with (@Ok loc 3) in Hl.
  assert (E : l = 3) by congruence. subst l.
  change (snd (one_hot_encode 0 [0%Z] false ({[ 0 := colours ]} : heap)) !! 3)
    with (Some (Typed Str (Mat 2 [[CStr "0.0"; CStr "1.0"];
                                  [CStr "1.0"; CStr "0.0"];
                                  [CStr "0.0"; CStr "1.0"]]))) in Hy.
  assert (E : y = Typed Str (Mat 2 [[CStr "0.0"; CStr "1.0"];
                                    [CStr "1.0"; CStr "0.0"];
                                    [CStr "0.0"; CStr "1.0"]])) by congruence.
  subst y. cbn in Hrows. discriminate Hrows.
Qed.



(** ** The block of one row *)

Lemma length_inserted_block (u : list cell) (drop_first : bool) (v : cell) :
  length (inserted_block u drop_first v) = block_width u drop_first.
Proof.
  unfold inserted_block, block_width. destruct drop_first.
  - now rewrite length_drop, length_indicator_row.
  - apply length_indicator_row.
Qed.

Lemma length_stored (dt : dtype) (block : list cell) :
  length (stored dt block) = length block.
Proof. unfold stored. apply length_map. Qed.

Lemma index_position_nat (len c : nat) :
  c < len -> index_position len (Z.of_nat c) = Ok c.
Proof.
  intros H. unfold index_position.
  replace (0 <=? Z.of_nat c)%Z with true by (symmetry; apply Z.leb_le; lia).
  replace (Z.of_nat c <? Z.of_nat len)%Z with true by (symmetry; apply Z.ltb_lt; lia).
  cbn [andb]. now rewrite Nat2Z.id.
Qed.

Lemma slice_bound_nat (len c : nat) :
  c <= len -> slice_bound len (Z.of_nat c) = c.
Proof.
  intros H. unfold slice_bound.
  replace (Z.of_nat c <? 0)%Z with false by (symmetry; apply Z.ltb_ge; lia).
  rewrite Nat2Z.id. lia.
Qed.

Lemma drop_first_indicator_row (u : list cell) (v : cell) :
  drop (slice_bound (length u) 1) (indicator_row u v) = drop 1 (indicator_row u v).
Proof. destruct u as [|c u]; reflexivity. Qed.

Lemma row_sum_inserted_block (u : list cell) (drop_first : bool) (v : cell) :
  (count_eq v u = 1 ->
   row_sum (inserted_block u drop_first v)
   = if drop_first && reference_category u v then 0%float else 1%float)
  /\ (count_eq v u = 0 -> row_sum (inserted_block u drop_first v) = 0%float).
Proof.
  unfold inserted_block. destruct drop_first; cbn [andb].
  - destruct u as [|c0 u]; [split; [discriminate | reflexivity] |].
    cbn [indicator_row map drop reference_category]. fold (indicator_row u v).
    rewrite count_eq_cons.
    destruct (cell_eqb v c0); cbn [Nat.add]; split; intros H.
    + apply row_sum_absent. lia.
    + lia.
    + now apply row_sum_present.
    + now apply row_sum_absent.
  - split; [apply row_sum_present | apply row_sum_absent].
Qed.

Lemma lookup_map_Some {A B : Type} (f : A -> B) (l : list A) (i : nat) (a : A) :
  l !! i = Some a -> map f l !! i = Some (f a).
Proof.
  revert i. induction l as [|b l IH]; intros [|i] H; try discriminate.
  - cbn in *. congruence.
  - cbn in *. now apply IH.
Qed.


(** In an object array NaN is not sorted to the end and keeps equal
    entries apart: the column [1.0, nan, 1.0] has the three unique values
    [1.0, nan, 1.0], and the rows that hold 1.0 have two indicators 1.0;
    for the column [nan, 1.0] the unique values are [nan, 1.0]. *)
Lemma one_hot_encode_object_nan :
  let x := Typed Object (Mat 1 [[CNum 1]; [CNum nan]; [CNum 1]]) in
  np_unique Object (get_column 0 x) = Ok [CNum 1; CNum nan; CNum 1]
  /\ returned (one_hot_encode 0 [0%Z] false ({[ 0 := x ]} : heap))
     = Ok (Some (Typed Object (Mat 3 [[CNum 1; CNum 0; CNum 1];
                                      [CNum 0; CNum 0; CNum 0];
                                      [CNum 1; CNum 0; CNum 1]])))
  /\ row_sum [CNum 1; CNum 0; CNum 1] = 2%float
  /\ np_unique Object [CNum nan; CNum 1] = Ok [CNum nan; CNum 1]
  /\ np_unique Float64 [CNum nan; CNum 1] = Ok [CNum 1; CNum nan].
Proof. cbv zeta. repeat split. Qed.

(** ** np.unique returns its values in ascending order *)

Lemma cell_leb_total (a b : cell) :
  is_str a = is_str b -> cell_leb a b = true \/ cell_leb b a = true.
Proof.
  destruct a as [s|x], b as [t|y]; cbn; try discriminate; intros _.
  - apply String.leb_total.
  - destruct (is_nan y) eqn:Hy; [now left |].
    destruct (is_nan x) eqn:Hx; [now right |].
    now apply FloatFacts.leb_total.
Qed.

Lemma insert_sorted_kind (k : bool) (x : cell) (l : list cell) :
  is_str x = k -> Forall (fun c => is_str c = k) l ->
  Forall (fun c => is_str c = k) (insert_sorted x l).
Proof.
  intros Hx. induction 1 as [|u l Hu Hl IH]; cbn [insert_sorted].
  - now repeat constructor.
  - destruct (cell_leb x u); repeat constructor; assumption.
Qed.

Lemma insert_sorted_HdRel (u x : cell) (l : list cell) :
  cell_leb u x = true ->
  HdRel (fun a b => cell_leb a b = true) u l ->
  HdRel (fun a b => cell_leb a b = true) u (insert_sorted x l).
Proof.
  intros Hux Hl. destruct l as [|c l]; cbn [insert_sorted].
  - now constructor.
  - destruct (cell_leb x c); constructor; [assumption |].
    now inversion Hl.
Qed.

Lemma insert_sorted_ascending (k : bool) (x : cell) (l : list cell) :
  is_str x = k -> Forall (fun c => is_str c = k) l ->
  ascending l -> ascending (insert_sorted x l).
Proof.
  intros Hx Hk Hs. induction Hs as [|u l Hs IH Hd]; cbn [insert_sorted].
  - now repeat constructor.
  - inversion Hk as [|? ? Hu Hl]; subst.
    destruct (cell_leb x u) eqn:E.
    + constructor; [now constructor | now constructor].
    + constructor; [now apply IH |].
      apply insert_sorted_HdRel; [| assumption].
      destruct (cell_leb_total x u) as [H|H]; congruence.
Qed.

Lemma fold_insert_unique_ascending (k : bool) (col : list cell) :
  Forall (fun c => is_str c = k) col ->
  forall acc : list cell,
    Forall (fun c => is_str c = k) acc -> ascending acc ->
    ascending (fold_left insert_unique col acc).
Proof.
  induction 1 as [|x col Hx Hcol IH]; intros acc Hacc Hs; [exact Hs |].
  cbn [fold_left]. unfold insert_unique at 2.
  destruct (existsb (cell_same x) acc); [now apply IH |].
  apply IH.
  - now apply insert_sorted_kind.
  - now apply insert_sorted_ascending with k.
Qed.

Lemma np_unique_ascending (dt : dtype) (col u : list cell) :
  np_unique dt col = Ok u -> sortable dt col -> ascending u.
Proof.
  unfold np_unique. destruct (homogeneous col) eqn:H; [| discriminate].
  intros Hu Hs.
  assert (E : u = match dt with
                  | Object => unique_adjacent (sort_objects col)
                  | _ => fold_left insert_unique col []
                  end) by congruence.
  subst u. clear Hu. destruct (homogeneous_kind col H) as [k Hk]. destruct dt.
  - apply (fold_insert_unique_ascending k col Hk); constructor.
  - apply (fold_insert_unique_ascending k col Hk); constructor.
  - apply StronglySorted_Sorted, unique_adjacent_sorted, sort_objects_sorted.
    now apply all_comparable_column, Hs.
Qed.

(** ** The order of the indices *)

Lemma in_insert_desc (a x : Z) (l : list Z) :
  In a (insert_desc x l) <-> a = x \/ In a l.
Proof.
  induction l as [|u l IH]; cbn [insert_desc].
  - cbn. intuition.
  - destruct (u <=? x)%Z; cbn [In]; [intuition |]. rewrite IH. intuition.
Qed.

Lemma in_sorted_reverse (a : Z) (l : list Z) :
  In a (sorted_reverse l) <-> In a l.
Proof.
  induction l as [|x l IH]; [reflexivity |].
  cbn [sorted_reverse fold_right]. fold (sorted_reverse l).
  rewrite in_insert_desc, IH. cbn. intuition.
Qed.

Lemma insert_desc_descending (x : Z) (l : list Z) :
  ~ In x l -> descending l -> descending (insert_desc x l).
Proof.
  intros Hx Hl. induction Hl as [|u l Hl IH Hu]; cbn [insert_desc].
  - repeat constructor.
  - pose proof Hu as Hu'. rewrite Forall_forall in Hu.
    destruct (u <=? x)%Z eqn:E.
    + apply Z.leb_le in E.
      assert (u < x)%Z by (cbn in Hx; lia).
      constructor; [now constructor |].
      constructor; [assumption |].
      apply Forall_forall. intros a Ha. apply list_elem_of_In in Ha.
      specialize (Hu a (proj2 (list_elem_of_In _ _) Ha)). lia.
    + apply Z.leb_gt in E. constructor.
      * apply IH. cbn in Hx. tauto.
      * apply Forall_forall. intros a Ha. apply list_elem_of_In in Ha.
        apply in_insert_desc in Ha as [->|Ha]; [assumption |].
        apply Hu. now apply list_elem_of_In.
Qed.

Lemma sorted_reverse_descending (l : list Z) :
  List.NoDup l -> descending (sorted_reverse l).
Proof.
  induction 1 as [|x l Hx Hl IH]; [constructor |].
  cbn [sorted_reverse fold_right]. fold (sorted_reverse l).
  apply insert_desc_descending; [| assumption].
  now rewrite in_sorted_reverse.
Qed.

(** ** Several columns *)

Section ExpansionFacts.

Variables (x : tarray) (drop_first : bool).

Lemma encodes_In (L : list Z) (j : nat) :
  encodes L j = true <-> In (Z.of_nat j) L.
Proof.
  unfold encodes. rewrite existsb_exists. split.
  - intros (a & Ha & E). apply Z.eqb_eq in E. now subst.
  - intros H. exists (Z.of_nat j). split; [assumption | apply Z.eqb_refl].
Qed.

Lemma encodes_ext (L L' : list Z) (j : nat) :
  (In (Z.of_nat j) L <-> In (Z.of_nat j) L') -> encodes L j = encodes L' j.
Proof.
  intros H. destruct (encodes L j) eqn:E1, (encodes L' j) eqn:E2; try reflexivity.
  - apply encodes_In, H, encodes_In in E1. congruence.
  - apply encodes_In, H, encodes_In in E2. congruence.
Qed.

Lemma length_expand_from (L : list Z) (r : list cell) :
  forall j, length (expand_from x drop_first L j r) = span x drop_first L j (length r).
Proof.
  induction r as [|v r IH]; intros j; [reflexivity |].
  cbn [expand_from span length]. rewrite length_app, IH. f_equal.
  unfold expand_entry. destruct (encodes L j); [| reflexivity].
  rewrite length_stored. apply length_inserted_block.
Qed.

Lemma expand_from_app (L : list Z) (a c : list cell) :
  forall j, expand_from x drop_first L j (a ++ c)
            = expand_from x drop_first L j a ++ expand_from x drop_first L (j + length a) c.
Proof.
  induction a as [|v a IH]; intros j.
  - cbn. now rewrite Nat.add_0_r.
  - cbn [expand_from app length]. rewrite IH, <- app_assoc.
    now replace (j + S (length a)) with (S j + length a) by lia.
Qed.

Lemma expand_from_ext (L L' : list Z) (r : list cell) :
  forall j,
    (forall k, j <= k < j + length r -> encodes L k = encodes L' k) ->
    expand_from x drop_first L j r = expand_from x drop_first L' j r.
Proof.
  induction r as [|v r IH]; intros j H; [reflexivity |].
  cbn [expand_from]. unfold expand_entry. rewrite (H j) by (cbn; lia).
  f_equal. apply IH. intros k Hk. apply H. cbn. lia.
Qed.

Lemma expand_from_id (L : list Z) (r : list cell) :
  forall j,
    (forall k, j <= k < j + length r -> encodes L k = false) ->
    expand_from x drop_first L j r = r.
Proof.
  induction r as [|v r IH]; intros j H; [reflexivity |].
  cbn [expand_from]. unfold expand_entry. rewrite (H j) by (cbn; lia).
  cbn. f_equal. apply IH. intros k Hk. apply H. cbn. lia.
Qed.

Lemma nth_take (i b : nat) (r : list cell) (d : cell) :
  i < b -> nth i (take b r) d = nth i r d.
Proof.
  revert i b. induction r as [|v r IH]; intros i b H.
  - now rewrite take_nil.
  - destruct b as [|b]; [lia |]. destruct i as [|i]; [reflexivity |].
    cbn. apply IH. lia.
Qed.

(** Encoding column [i] after the columns [L'], all to its left, and
    leaving the rest of the row as it is, is encoding the columns
    [i :: L']. *)
Lemma expand_step (L' : list Z) (i : nat) (p : list cell) :
  Forall (fun a => (a < Z.of_nat i)%Z) L' ->
  i < length p ->
  expand_from x drop_first L' 0 (take i p)
    ++ stored (dtype_of x) (inserted_block (uniques x i) drop_first (nth i p (CNum 0)))
    ++ drop (S i) p
  = expand_from x drop_first (Z.of_nat i :: L') 0 p.
Proof.
  intros HL Hi.
  assert (Hnot : forall k, encodes L' k = true -> k < i).
  { intros k Hk. apply encodes_In in Hk. rewrite Forall_forall in HL.
    specialize (HL _ (proj2 (list_elem_of_In _ _) Hk)). lia. }
  assert (Hp : p = take i p ++ nth i p (CNum 0) :: drop (S i) p).
  { symmetry. apply take_drop_middle.
    destruct (nth_lookup_or_length p i (CNum 0)) as [E|E]; [exact E | lia]. }
  assert (Hlen : length (take i p) = i) by (rewrite length_take; lia).
  rewrite Hp at 4. rewrite expand_from_app, Hlen. cbn [expand_from Nat.add].
  f_equal; [| f_equal].
  - apply expand_from_ext. intros k Hk. rewrite Hlen in Hk.
    unfold encodes. cbn [existsb].
    replace (Z.of_nat k =? Z.of_nat i)%Z with false
      by (symmetry; apply Z.eqb_neq; lia).
    reflexivity.
  - unfold expand_entry, encodes. cbn [existsb]. now rewrite Z.eqb_refl.
  - symmetry. apply expand_from_id. intros k Hk.
    unfold encodes. cbn [existsb].
    replace (Z.of_nat k =? Z.of_nat i)%Z with false
      by (symmetry; apply Z.eqb_neq; lia).
    cbn [orb]. fold (encodes L' k).
    destruct (encodes L' k) eqn:E; [| reflexivity].
    apply Hnot in E. lia.
Qed.

End ExpansionFacts.

Lemma np_unique_uniques (x : tarray) (j : nat) :
  homogeneous (get_column j x) = true ->
  np_unique (dtype_of x) (get_column j x) = Ok (uniques x j).
Proof.
  intros H. unfold uniques, np_unique. now rewrite H.
Qed.

(** ** np.hstack around the block *)

Lemma result_type_block (d : dtype) : result_type (result_type d Float64) d = d.
Proof. now destruct d. Qed.

Lemma cast_same (d : dtype) (c : cell) : cast d d c = c.
Proof. now destruct d, c. Qed.

Lemma map_cast_same (d : dtype) (rs : list (list cell)) :
  map (map (cast d d)) rs = rs.
Proof.
  rewrite <- (map_id rs) at 2. apply map_ext. intros r.
  rewrite <- (map_id r) at 2. apply map_ext. intros c. apply cast_same.
Qed.

(** The indicator block between two parts of an array of the type [d]. *)
Lemma hstack_block (a b c : tarray) (d : dtype) :
  dtype_of a = d -> dtype_of b = Float64 -> dtype_of c = d ->
  nrows a = nrows b -> nrows b = nrows c ->
  hstack a b c
  = Ok (Typed d
          (Mat (ncols a + ncols b + ncols c)
               (zip_with (fun r t => r ++ t)
                  (zip_with (fun r t => r ++ t) (rows a) (map (stored d) (rows b)))
                  (rows c)))).
Proof.
  intros Ha Hb Hc H1 H2. unfold hstack.
  rewrite H1, H2, Nat.eqb_refl. cbn [andb]. cbv zeta.
  rewrite Ha, Hb, Hc, result_type_block, !map_cast_same. reflexivity.
Qed.

(** The block as the array stores it: numbers, or their text in a string
    array. *)
Lemma stored_numbers (dt : dtype) (block : list cell) :
  dt <> Str -> stored dt block = block.
Proof.
  intros H. unfold stored. rewrite <- (map_id block) at 2. apply map_ext.
  intros c. destruct dt, c; try reflexivity. contradiction.
Qed.

Lemma stored_text (u : list cell) (drop_first : bool) (v : cell) :
  stored Str (inserted_block u drop_first v)
  = map as_text (inserted_block u drop_first v).
Proof.
  unfold stored, inserted_block.
  assert (H : forall l, map (cast Float64 Str) (indicator_row l v)
                        = map as_text (indicator_row l v)).
  { induction l as [|c l IH]; [reflexivity |].
    cbn [indicator_row map]. fold (indicator_row l v). rewrite IH. f_equal.
    unfold indicator. now destruct (cell_eqb v c). }
  destruct drop_first; [| apply H].
  destruct u as [|c u]; [reflexivity |].
  cbn [indicator_row map drop]. fold (indicator_row u v). apply H.
Qed.

(** The rows of [one_hot], with or without its first column. *)
Lemma rows_one_hot (x : tarray) (drop_first : bool) (j : nat) (u : list cell) :
  let oh := if drop_first then columns_from 1 (one_hot_block (get_column j x) u)
            else one_hot_block (get_column j x) u in
  rows oh = map (fun r => inserted_block u drop_first (nth j r (CNum 0))) (rows x)
  /\ ncols oh = block_width u drop_first
  /\ dtype_of oh = Float64.
Proof.
  cbv zeta. split; [| split].
  - unfold inserted_block, one_hot_block, columns_from, get_column.
    destruct drop_first; cbn [rows ncols cells]; rewrite !map_map.
    + apply map_ext. intros r. apply drop_first_indicator_row.
    + reflexivity.
  - unfold block_width, one_hot_block, columns_from.
    destruct drop_first; cbn [ncols cells]; [| reflexivity].
    unfold slice_bound. cbn. lia.
  - now destruct drop_first.
Qed.

(** One pass of the loop when the first [b] entries of every row of
    [X_transformed] are still those of [X], for an index [i] below [b]. *)
Lemma encoded_column_step (x t : tarray) (drop_first : bool)
    (g : list cell -> list cell) (i b : nat) :
  rectangular x ->
  i < b -> b <= ncols x -> b <= ncols t ->
  dtype_of t = dtype_of x ->
  rows t = map (fun r => take b r ++ g r) (rows x) ->
  homogeneous (get_column i x) = true ->
  encoded_column x drop_first t (Z.of_nat i)
  = Ok (Typed (dtype_of x)
          (Mat (i + block_width (uniques x i) drop_first + (ncols t - S i))
               (map (fun r =>
                       take i r
                       ++ (stored (dtype_of x)
                             (inserted_block (uniques x i) drop_first (nth i r (CNum 0)))
                           ++ drop (S i) (take b r) ++ g r))
                    (rows x)))).
Proof.
  intros Hrect Hi Hb Hbt Hdt Ht Hu.
  unfold encoded_column.
  rewrite index_position_nat by lia. cbn [res_bind].
  rewrite (np_unique_uniques x i Hu). cbn [res_bind].
  set (u := uniques x i).
  destruct (rows_one_hot x drop_first i u) as (Hoh & Hw & Hd).
  set (oh := if drop_first then columns_from 1 (one_hot_block (get_column i x) u)
             else one_hot_block (get_column i x) u) in *.
  rewrite (hstack_block _ oh _ (dtype_of x)).
  - f_equal. f_equal.
    replace (Z.of_nat i + 1)%Z with (Z.of_nat (S i)) by lia.
    unfold columns_before, columns_from. cbn [ncols rows cells].
    rewrite (slice_bound_nat (ncols t) i) by lia.
    rewrite (slice_bound_nat (ncols t) (S i)) by lia.
    rewrite Hw, Hoh, Ht, !map_map, !zip_with_map_same.
    f_equal. apply map_ext_in. intros r Hr.
    assert (Hlen : length r = ncols x).
    { unfold rectangular in Hrect. rewrite Forall_forall in Hrect.
      apply Hrect. now apply list_elem_of_In. }
    assert (Hlb : length (take b r) = b) by (rewrite length_take; lia).
    rewrite take_app_le by lia. rewrite take_take.
    replace (i `min` b) with i by lia.
    rewrite drop_app_le by lia.
    now rewrite <- !app_assoc.
  - exact Hdt.
  - exact Hd.
  - exact Hdt.
  - unfold nrows, columns_before. cbn [rows cells].
    now rewrite length_map, Ht, Hoh, !length_map.
  - unfold nrows, columns_from. cbn [rows cells].
    now rewrite length_map, Ht, Hoh, !length_map.
Qed.

Lemma span_nil (x : tarray) (drop_first : bool) (len : nat) :
  forall j, span x drop_first [] j len = len.
Proof.
  induction len as [|len IH]; intros j; [reflexivity |].
  cbn [span encodes existsb]. now rewrite IH.
Qed.

Lemma encoded_columns_descending (x : tarray) (drop_first : bool)
    (L : list Z) :
  rectangular x ->
  descending L ->
  forall (b : nat) (t : tarray) (g : list cell -> list cell),
    Forall (fun a => (0 <= a < Z.of_nat b)%Z) L ->
    Forall (fun a => homogeneous (get_column (Z.to_nat a) x) = true) L ->
    b <= ncols x -> b <= ncols t ->
    dtype_of t = dtype_of x ->
    rows t = map (fun r => take b r ++ g r) (rows x) ->
    encoded_columns x drop_first t L
    = Ok (Typed (dtype_of x)
            (Mat (span x drop_first L 0 b + (ncols t - b))
                 (map (fun r => expand_from x drop_first L 0 (take b r) ++ g r)
                      (rows x)))).
Proof.
  intros Hrect HL.
  induction HL as [|a L HL IH Ha]; intros b t g Hrange Hhom Hb Hbt Hdt Ht.
  - cbn [encoded_columns]. f_equal. destruct t as [dt [w rs]].
    cbn [ncols rows cells dtype_of] in *. subst dt. f_equal. f_equal.
    + rewrite span_nil. lia.
    + rewrite Ht. apply map_ext. intros r. f_equal. symmetry.
      apply expand_from_id. reflexivity.
  - inversion Hrange as [|? ? Hra Hrange']; subst.
    inversion Hhom as [|? ? Hha Hhom']; subst.
    set (i := Z.to_nat a).
    assert (Ei : a = Z.of_nat i) by (unfold i; lia).
    assert (Hi : i < b) by lia.
    cbn [encoded_columns]. rewrite Ei at 1.
    rewrite (encoded_column_step x t drop_first g i b) by assumption.
    cbn [res_bind].
    rewrite (IH i _ (fun r => stored (dtype_of x)
                                (inserted_block (uniques x i) drop_first
                                   (nth i r (CNum 0)))
                              ++ drop (S i) (take b r) ++ g r)).
    + cbn [ncols cells]. f_equal. f_equal. f_equal.
      * assert (E : span x drop_first L 0 i
                    + block_width (uniques x i) drop_first + (b - S i)
                    = span x drop_first (a :: L) 0 b).
        { pose proof (expand_step x drop_first L i (repeat (CNum 0) b)) as Hs.
          rewrite repeat_length in Hs.
          assert (HL' : Forall (fun c => (c < Z.of_nat i)%Z) L).
          { rewrite <- Ei. exact Ha. }
          specialize (Hs HL' Hi). apply (f_equal length) in Hs.
          rewrite !length_app, !length_expand_from, length_stored,
            length_inserted_block in Hs.
          rewrite length_take, length_drop, !repeat_length in Hs.
          rewrite <- Ei in Hs. replace (i `min` b) with i in Hs by lia.
          rewrite <- Hs. lia. }
        lia.
      * apply map_ext_in. intros r Hr.
        assert (Hlen : length r = ncols x).
        { unfold rectangular in Hrect. rewrite Forall_forall in Hrect.
          apply Hrect. now apply list_elem_of_In. }
        rewrite Ei.
        rewrite <- (expand_step x drop_first L i (take b r)).
        -- rewrite take_take. replace (i `min` b) with i by lia.
           rewrite nth_take by assumption. now rewrite <- !app_assoc.
        -- rewrite <- Ei. exact Ha.
        -- rewrite length_take. lia.
    + apply Forall_forall. intros c Hc.
      rewrite Forall_forall in Ha, Hrange'.
      specialize (Ha c Hc). specialize (Hrange' c Hc). lia.
    + assumption.
    + lia.
    + cbn [ncols cells]. lia.
    + reflexivity.
    + reflexivity.
Qed.

Lemma span_ext (x : tarray) (drop_first : bool) (L L' : list Z) (len : nat) :
  forall j,
    (forall k, j <= k < j + len -> encodes L k = encodes L' k) ->
    span x drop_first L j len = span x drop_first L' j len.
Proof.
  induction len as [|len IH]; intros j H; [reflexivity |].
  cbn [span]. rewrite (H j) by lia. f_equal. apply IH. intros k Hk. apply H. lia.
Qed.

(** The array [one_hot_encode] computes for distinct indices of columns of
    a rectangular array: every row with its encoded entries expanded. *)
Lemma encoded_expand (x : tarray) (categorical_indices : list Z)
    (drop_first : bool) :
  rectangular x ->
  List.NoDup categorical_indices ->
  Forall (fun a => (0 <= a < Z.of_nat (ncols x))%Z) categorical_indices ->
  Forall (fun a => homogeneous (get_column (Z.to_nat a) x) = true) categorical_indices ->
  encoded x categorical_indices drop_first
  = Ok (Typed (dtype_of x)
          (Mat (span x drop_first categorical_indices 0 (ncols x))
               (map (expand_from x drop_first categorical_indices 0) (rows x)))).
Proof.
  intros Hrect Hnd Hrange Hhom. unfold encoded.
  assert (Hmem : forall k, encodes (sorted_reverse categorical_indices) k
                           = encodes categorical_indices k).
  { intros k. apply encodes_ext. apply in_sorted_reverse. }
  assert (Hlen : forall r, In r (rows x) -> length r = ncols x).
  { intros r Hr. unfold rectangular in Hrect. rewrite Forall_forall in Hrect.
    apply Hrect. now apply list_elem_of_In. }
  rewrite (encoded_columns_descending x drop_first (sorted_reverse categorical_indices)
             Hrect (sorted_reverse_descending _ Hnd) (ncols x) x (fun _ => [])).
  - f_equal. f_equal. f_equal.
    + rewrite Nat.sub_diag, Nat.add_0_r. apply span_ext. intros k _. apply Hmem.
    + apply map_ext_in. intros r Hr.
      rewrite app_nil_r, take_ge by (rewrite (Hlen r Hr); lia).
      apply expand_from_ext. intros k _. apply Hmem.
  - apply Forall_forall. intros a Ha. rewrite Forall_forall in Hrange.
    apply Hrange. apply list_elem_of_In. apply in_sorted_reverse.
    now apply list_elem_of_In.
  - apply Forall_forall. intros a Ha. rewrite Forall_forall in Hhom.
    apply Hhom. apply list_elem_of_In. apply in_sorted_reverse.
    now apply list_elem_of_In.
  - lia.
  - lia.
  - reflexivity.
  - rewrite <- (map_id (rows x)) at 1. apply map_ext_in. intros r Hr.
    rewrite app_nil_r, take_ge by (rewrite (Hlen r Hr); lia). reflexivity.
Qed.

(** Where the block of column [c] lies in an expanded row. *)
Lemma inserted_expand_from (x : tarray) (drop_first : bool) (L : list Z)
    (c : nat) (r : list cell) :
  In (Z.of_nat c) L -> c < length r ->
  inserted (span x drop_first L 0 c) (block_width (uniques x c) drop_first)
           (expand_from x drop_first L 0 r)
  = stored (dtype_of x) (inserted_block (uniques x c) drop_first (nth c r (CNum 0))).
Proof.
  intros Hin Hc.
  assert (Hr : r = take c r ++ nth c r (CNum 0) :: drop (S c) r).
  { symmetry. apply take_drop_middle.
    destruct (nth_lookup_or_length r c (CNum 0)) as [E|E]; [exact E | lia]. }
  assert (Hlen : length (take c r) = c) by (rewrite length_take; lia).
  rewrite Hr at 1. rewrite expand_from_app, Hlen. cbn [expand_from Nat.add].
  unfold expand_entry. rewrite (proj2 (encodes_In L c) Hin).
  unfold inserted.
  pose proof (length_expand_from x drop_first L (take c r) 0) as Hoff.
  rewrite Hlen in Hoff.
  rewrite drop_app_ge by lia. rewrite Hoff, Nat.sub_diag, drop_0.
  pose proof (length_inserted_block (uniques x c) drop_first (nth c r (CNum 0))) as Hb.
  rewrite take_app_le by (rewrite length_stored; lia).
  apply take_ge. rewrite length_stored. lia.
Qed.



(** * Part IV. Further properties of the program *)

(** ** Fitting, then predicting *)

Lemma map_seq_from {A : Type} (f : nat -> A) (s n : nat) :
  forall k, map f (seq (s + k) n) = map (fun j => f (s + j)) (seq k n).
Proof.
  induction n as [|n IH]; intros k; [reflexivity |].
  cbn [seq map]. f_equal. rewrite <- IH. now rewrite Nat.add_succ_r.
Qed.

Lemma rectangular_length {A : Type} (x : array2 A) (r : list A) :
  rectangular x -> In r (rows x) -> length r = ncols x.
Proof.
  unfold rectangular. rewrite Forall_forall. intros H Hr.
  apply H. now apply list_elem_of_In.
Qed.

(** The reference inverse returns an array of the shape of its argument. *)
Lemma inv_small_keeps_shape : inverse_keeps_shape inv_small.
Proof.
  intros [n rs] G Hrect. unfold inv_small, nrows, rectangular in *.
  cbn [rows ncols] in *.
  destruct rs as [|[|a [|b [|? ?]]] [|[|c [|d [|? ?]]] [|? ?]]]; try discriminate.
  - destruct (a =? 0)%float; [discriminate |].
    intros H. inversion Hrect as [|? ? Hlen _]. cbn in Hlen. subst.
    apply (f_equal (fun r => match r with
                             | Ok g => (length (rows g), ncols g)
                             | Raise _ => (1, 1)
                             end)) in H.
    cbn in H. cbn [length]. split; congruence.
  - destruct (_ =? 0)%float; [discriminate |].
    intros H. inversion Hrect as [|? ? Hlen _]. cbn in Hlen. subst.
    apply (f_equal (fun r => match r with
                             | Ok g => (length (rows g), ncols g)
                             | Raise _ => (2, 2)
                             end)) in H.
    cbn in H. cbn [length]. split; congruence.
Qed.

Lemma length_iter_gd_step_b {blas : Blas} (X : matrix) (y : vec) (lr : rate) (n : nat) (p : params) :
  length (fst p) = ncols X ->
  length (fst (Nat.iter n (gd_step_b X y lr) p)) = ncols X.
Proof.
  intros H. induction n as [|n IH]; [exact H |].
  cbn [Nat.iter nat_rect]. now apply length_gd_step_b.
Qed.

(** A fit that returns has stored an intercept and one coefficient for
    every column of [X]. *)
Lemma fit_ok_fitted {blas : Blas} (linalg_inv : matrix -> res matrix) (X : ndarray) (y : vec)
    (method : string) (lr : rate) (it : nat) (w : world) :
  inverse_keeps_shape linalg_inv ->
  fst (fit linalg_inv X y method lr it w) = Ok tt ->
  exists coef b,
    self (snd (fit linalg_inv X y method lr it w))
    = {| coefficients := Some coef; intercept := Some b |}
    /\ length coef = ncols (as_matrix X).
Proof.
  intros Hinv. destruct (String.eqb method "least_squares") eqn:Els.
  - unfold fit. rewrite Els. cbn [orb negb].
    fold (as_matrix X). set (Xb := insert_ones (as_matrix X)).
    unfold fit_multiple, bind, lift. rewrite dot_mm_transpose_self. cbn [res_bind].
    destruct (linalg_inv (gram Xb)) as [G|e] eqn:EG; [| discriminate].
    unfold dot_mm. destruct (ncols G =? nrows (transpose Xb)); [| discriminate].
    unfold dot_mv. destruct (ncols (mm G (transpose Xb)) =? length y); [| discriminate].
    destruct (mv (mm G (transpose Xb)) y) as [|t0 ts] eqn:Et; [discriminate |].
    intros _. exists ts, t0. split; [reflexivity |].
    apply (f_equal (@length float)) in Et.
    rewrite length_mv, nrows_mm in Et.
    rewrite (proj1 (Hinv _ _ (rectangular_mm _ _) EG)) in Et.
    unfold gram in Et. rewrite nrows_mm, nrows_transpose in Et.
    unfold Xb in Et. cbn in Et. lia.
  - destruct (String.eqb method "gradient_descent") eqn:Egd.
    + apply String.eqb_eq in Egd. subst method.
      destruct (gd_shapes_ok (as_matrix X) y lr) eqn:Hok.
      * rewrite (fit_gradient_descent_ok linalg_inv X y lr it w Hok). intros _.
        eexists _, _. split; [reflexivity |].
        apply length_iter_gd_step_b, length_gd_init_params.
      * destruct it as [|it].
        -- rewrite fit_gradient_descent_unfold, for_range_zero. intros _.
           eexists _, _. split; [reflexivity |]. apply length_gd_init_params.
        -- destruct (fit_gradient_descent_raise linalg_inv X y lr it w Hok) as [e He].
           rewrite He. discriminate.
    + unfold fit. rewrite Els, Egd. discriminate.
Qed.

(** X1. After a call of [fit] that returned, with either method, [predict]
    returns one value for every row of any array that has as many columns
    as the array of the fit, and raises [ValueError] for an array with
    another number of columns; it leaves the fitted object as it is. The
    inverse is assumed to have the shape of its argument. *)
Theorem fit_then_predict {blas : Blas} (linalg_inv : matrix -> res matrix) (X : ndarray)
    (y : vec) (method : string) (lr : rate) (it : nat) (w : world) (X' : ndarray) :
  inverse_keeps_shape linalg_inv ->
  fst (fit linalg_inv X y method lr it w) = Ok tt ->
  let w' := snd (fit linalg_inv X y method lr it w) in
  (ncols (as_matrix X') = ncols (as_matrix X) ->
   exists p, predict X' w' = (Ok p, w') /\ length p = nrows (as_matrix X'))
  /\ (ncols (as_matrix X') <> ncols (as_matrix X) ->
      exists msg, predict X' w' = (Raise (ValueError msg), w')).
Proof.
  intros Hinv Hfit w'.
  destruct (fit_ok_fitted linalg_inv X y method lr it w Hinv Hfit)
    as (coef & b & Hs & Hlen).
  fold w' in Hs. split; intros Hn.
  - exists (linear_predictor (as_matrix X') coef b). split.
    + apply predict_fitted; rewrite ?Hs; auto. congruence.
    + apply length_linear_predictor.
  - eexists. apply (predict_misaligned X' w' coef b); rewrite ?Hs; auto. congruence.
Qed.

Lemma fit_then_predict_witness :
  let X := Arr2 (Mat 1 [[1%float]; [2%float]; [3%float]; [4%float]]) in
  let y := [2%float; 4%float; 6%float; 8%float] in
  let w := World init (fun _ => 0.5%float) 0 [] in
  let w' := snd (fit (blas := in_order) inv_small X y "least_squares" c_0_01 1000 w) in
  (exists p, predict (blas := in_order) (Arr2 (Mat 1 [[5%float]; [6%float]])) w' = (Ok p, w')
             /\ length p = 2)
  /\ (exists msg, predict (blas := in_order) (Arr2 (Mat 2 [[5%float; 6%float]])) w'
                  = (Raise (ValueError msg), w')).
Proof.
  intros X y w w'. split.
  - apply (proj1 (fit_then_predict (blas := in_order) inv_small X y "least_squares" c_0_01 1000 w
                    (Arr2 (Mat 1 [[5%float]; [6%float]]))
                    inv_small_keeps_shape eq_refl)).
    reflexivity.
  - apply (proj2 (fit_then_predict (blas := in_order) inv_small X y "least_squares" c_0_01 1000 w
                    (Arr2 (Mat 2 [[5%float; 6%float]]))
                    inv_small_keeps_shape eq_refl)).
    cbn. lia.
Defined.

(** X2. [fit] does not start from the parameters the object holds: with
    another object in the same world the call returns or raises in the same
    way, and when it returns it leaves the same world. *)
Theorem fit_ignores_previous_parameters {blas : Blas} (linalg_inv : matrix -> res matrix)
    (X : ndarray) (y : vec) (method : string) (lr : rate) (it : nat)
    (w : world) (s : LinearRegressor) :
  let r := fit linalg_inv X y method lr it w in
  let r' := fit linalg_inv X y method lr it (with_self w s) in
  fst r' = fst r /\ (fst r = Ok tt -> snd r' = snd r).
Proof.
  intros r r'. subst r r'.
  destruct (String.eqb method "least_squares") eqn:Els.
  - unfold fit. rewrite Els. cbn [orb negb].
    unfold fit_multiple, bind, lift.
    destruct (res_bind _ linalg_inv) as [G|e]; [| split; [reflexivity | discriminate]].
    destruct (dot_mm G _) as [GXt|e]; [| split; [reflexivity | discriminate]].
    destruct (dot_mv GXt y) as [[|t0 ts]|e];
      split; try reflexivity; discriminate.
  - destruct (String.eqb method "gradient_descent") eqn:Egd.
    + apply String.eqb_eq in Egd. subst method.
      rewrite !fit_gradient_descent_unfold.
      change (gd_init_world (with_self w s) (ncols (as_matrix X)))
        with (gd_init_world w (ncols (as_matrix X))).
      split; reflexivity.
    + unfold fit. rewrite Els, Egd. split; [reflexivity | discriminate].
Qed.

Lemma fit_ignores_previous_parameters_witness :
  let X := Arr2 (Mat 1 [[1%float]; [2%float]]) in
  let y := [2%float; 4%float] in
  let w := World init (fun _ => 0.5%float) 0 [] in
  let s := Regressor (Some [7%float; 8%float]) (Some 9%float) in
  fst (fit (blas := in_order) inv_small X y "gradient_descent" c_0_01 3 (with_self w s))
  = fst (fit (blas := in_order) inv_small X y "gradient_descent" c_0_01 3 w)
  /\ snd (fit (blas := in_order) inv_small X y "gradient_descent" c_0_01 3 (with_self w s))
     = snd (fit (blas := in_order) inv_small X y "gradient_descent" c_0_01 3 w).
Proof.
  intros X y w s.
  destruct (fit_ignores_previous_parameters (blas := in_order) inv_small X y "gradient_descent"
              c_0_01 3 w s) as [H1 H2].
  split; [exact H1 | apply H2; reflexivity].
Defined.

(** X3. How [fit] with "least_squares" fails: an exception of
    [np.linalg.inv] (the singular matrix) comes out of [fit] as it is, and
    when the inverse exists a [y] that has not one entry per row of [X]
    makes the last product raise [ValueError], a single entry included. In
    both cases the world is as it was. *)
Theorem fit_least_squares_failures {blas : Blas} (linalg_inv : matrix -> res matrix)
    (X : ndarray) (y : vec) (lr : rate) (it : nat) (w : world) :
  inverse_keeps_shape linalg_inv ->
  let Xb := insert_ones (as_matrix X) in
  (forall e, linalg_inv (gram Xb) = Raise e ->
     fit linalg_inv X y "least_squares" lr it w = (Raise e, w))
  /\ (forall G, linalg_inv (gram Xb) = Ok G ->
        length y <> nrows (as_matrix X) ->
        exists msg,
          fit linalg_inv X y "least_squares" lr it w = (Raise (ValueError msg), w)).
Proof.
  intros Hinv Xb.
  assert (Hfit : fit linalg_inv X y "least_squares" lr it w
                 = fit_multiple linalg_inv Xb y w) by reflexivity.
  rewrite Hfit. unfold fit_multiple, bind, lift.
  rewrite dot_mm_transpose_self. cbn [res_bind]. split.
  - intros e He. now rewrite He.
  - intros G HG Hy. rewrite HG.
    destruct (Hinv _ _ (rectangular_mm _ _) HG) as [_ Hc].
    unfold dot_mm. rewrite Hc, nrows_transpose.
    unfold gram. rewrite ncols_mm, Nat.eqb_refl. unfold dot_mv.
    assert (E2 : ncols (mm G (transpose Xb)) = nrows (as_matrix X)).
    { rewrite ncols_mm, ncols_transpose. apply nrows_insert_ones. }
    rewrite E2.
    destruct (nrows (as_matrix X) =? length y) eqn:En;
      [apply Nat.eqb_eq in En; congruence |].
    eexists. reflexivity.
Qed.

Lemma fit_least_squares_failures_witness :
  let w := World (Regressor (Some [2%float]) (Some 0%float)) (fun _ => 0.5%float) 0 [] in
  fit (blas := in_order) inv_small (Arr2 (Mat 1 [[1%float]; [1%float]])) [2%float; 4%float]
      "least_squares" c_0_01 1000 w
  = (Raise (LinAlgError "Singular matrix"), w)
  /\ exists msg,
       fit (blas := in_order) inv_small (Arr2 (Mat 1 [[1%float]; [2%float]])) [2%float]
           "least_squares" c_0_01 1000 w
       = (Raise (ValueError msg), w).
Proof.
  intros w. split.
  - apply (proj1 (fit_least_squares_failures (blas := in_order) inv_small
                    (Arr2 (Mat 1 [[1%float]; [1%float]])) [2%float; 4%float]
                    c_0_01 1000 w inv_small_keeps_shape)).
    reflexivity.
  - apply (proj2 (fit_least_squares_failures (blas := in_order) inv_small
                    (Arr2 (Mat 1 [[1%float]; [2%float]])) [2%float]
                    c_0_01 1000 w inv_small_keeps_shape)
             (Mat 2 [[(5 / 1)%float; (- 3 / 1)%float];
                     [(- 3 / 1)%float; (2 / 1)%float]])).
    + reflexivity.
    + cbn. lia.
Defined.

(** ** Gradient descent: the iterations, the shapes, the output *)

(** X4. With [iterations = 0] [fit] with "gradient_descent" returns
    whatever [y] is: it never looks at it. The object is left with one
    coefficient for every column of [X] and an intercept, each a draw of
    the random generator multiplied by 0.01; one draw more than [X] has
    columns was taken, and nothing was printed. *)
Theorem fit_gradient_descent_zero_iterations {blas : Blas} (linalg_inv : matrix -> res matrix)
    (X : ndarray) (y : vec) (lr : rate) (w : world) :
  let n := ncols (as_matrix X) in
  fit linalg_inv X y "gradient_descent" lr 0 w
  = (Ok tt,
     {| self := {| coefficients :=
                     Some (map (fun k => (rng w (drawn w + k) * c_0_01)%float) (seq 0 n));
                   intercept := Some (rng w (drawn w + n) * c_0_01)%float |};
        rng := rng w; drawn := drawn w + n + 1; stdout := stdout w |}).
Proof.
  intros n. rewrite fit_gradient_descent_unfold, for_range_zero.
  unfold gd_init_world, gd_init_params. cbn [fst snd]. fold n.
  do 4 f_equal. rewrite map_map.
  rewrite <- (Nat.add_0_r (drawn w)) at 1. apply map_seq_from.
Qed.

Lemma gd_shapes_ok_iff (X : matrix) (y : vec) (lr : rate) :
  gd_shapes_ok X y lr = true
  <-> (length y = nrows X \/ length y = 1)
      /\ (length y = 0 -> exists x, lr = NpFloat64 x).
Proof.
  unfold gd_shapes_ok, divides.
  rewrite andb_true_iff, orb_true_iff, !Nat.eqb_eq.
  destruct lr as [x|x].
  - rewrite negb_true_iff, Nat.eqb_neq. split.
    + intros [H1 H2]. split; [intuition | intros H; contradiction].
    + intros [H1 H2]. split; [| intuition].
      intros H. destruct (H2 H) as [x' Hx]. discriminate Hx.
  - split; [| intuition]. intros [_ H]. split; [intuition | intros _; now exists x].
Qed.



Section Printing.

Context {blas : Blas}.

Variables (X : matrix) (y : vec) (lr : rate).

Lemma map_fst_gd_log_b (count : nat) :
  forall (epoch : nat) (p : params),
    map fst (gd_log_b X y lr epoch count p)
    = List.filter (fun e => e mod 1000 =? 0) (seq epoch count).
Proof.
  induction count as [|count IH]; intros epoch p; [reflexivity |].
  cbn [gd_log_b seq List.filter]. rewrite map_app, IH.
  now destruct (epoch mod 1000 =? 0).
Qed.

Lemma length_gd_error_b (p : params) :
  gd_shapes_ok X y lr = true -> length (gd_error_b X y p) = nrows X.
Proof.
  intros Hok. apply gd_shapes_ok_iff in Hok as [Hshape _].
  unfold gd_error_b, bsub.
  destruct (broadcast2_shape PrimFloat.sub (linear_predictor X (fst p) (snd p)) y)
    as (v & Hv & Hlen).
  { rewrite length_linear_predictor. destruct Hshape; auto. }
  now rewrite Hv, Hlen, length_linear_predictor.
Qed.

Lemma length_gd_log_b_lines (count : nat) :
  gd_shapes_ok X y lr = true ->
  forall (epoch : nat) (p : params),
    Forall (fun l => length (snd l) = nrows X) (gd_log_b X y lr epoch count p).
Proof.
  intros Hok. induction count as [|count IH]; intros epoch p; [constructor |].
  cbn [gd_log_b]. apply Forall_app. split; [| apply IH].
  destruct (epoch mod 1000 =? 0); constructor; [| constructor].
  cbn [snd]. rewrite length_map. now apply length_gd_error_b.
Qed.

End Printing.

Lemma length_printing_epochs (count : nat) :
  length (printing_epochs count) = (count + 999) / 1000.
Proof.
  unfold printing_epochs. induction count as [|count IH]; [reflexivity |].
  rewrite seq_S, List.filter_app, length_app, IH. cbn [List.filter Nat.add].
  pose proof (Nat.div_mod_eq count 1000) as Hdm.
  pose proof (Nat.mod_upper_bound count 1000 ltac:(lia)) as Hlt.
  set (q := count / 1000) in *. set (r := count mod 1000) in *.
  destruct (r =? 0) eqn:E.
  - apply Nat.eqb_eq in E. cbn [length].
    rewrite <- (Nat.div_unique (count + 999) 1000 q 999) by lia.
    apply (Nat.div_unique _ 1000 (q + 1) 0); lia.
  - apply Nat.eqb_neq in E. cbn [length].
    rewrite <- (Nat.div_unique (count + 999) 1000 (q + 1) (r - 1)) by lia.
    rewrite Nat.add_0_r. apply (Nat.div_unique _ 1000 (q + 1) r); lia.
Qed.

(** X6. A fit by gradient descent that runs prints in the epochs 0, 1000,
    2000, ... below [iterations] and in no other, that is
    [ceil(iterations / 1000)] lines, after what was printed before; what
    each line shows as the MSE is an array with one entry per row of [X]
    (the squared errors divided by [len(y)]), not their mean. *)
Theorem fit_gradient_descent_prints {blas : Blas} (linalg_inv : matrix -> res matrix)
    (X : ndarray) (y : vec) (lr : rate) (it : nat) (w : world) :
  length y <> 0 ->
  length y = nrows (as_matrix X) \/ length y = 1 ->
  exists lines : list (nat * vec),
    stdout (snd (fit linalg_inv X y "gradient_descent" lr it w)) = stdout w ++ lines
    /\ map fst lines = printing_epochs it
    /\ length lines = (it + 999) / 1000
    /\ Forall (fun l => length (snd l) = nrows (as_matrix X)) lines.
Proof.
  intros Hy Hshape.
  assert (Hok : gd_shapes_ok (as_matrix X) y lr = true).
  { apply gd_shapes_ok_iff. split; [exact Hshape | intros H; contradiction]. }
  rewrite (fit_gradient_descent_ok linalg_inv X y lr it w Hok).
  eexists. split; [reflexivity |].
  assert (Hfst : map fst (gd_log_b (as_matrix X) y lr 0 it
                            (gd_init_params w (ncols (as_matrix X))))
                 = printing_epochs it) by apply map_fst_gd_log_b.
  split; [exact Hfst |]. split.
  - rewrite <- length_printing_epochs, <- Hfst. now rewrite length_map.
  - now apply length_gd_log_b_lines.
Qed.

Lemma fit_gradient_descent_prints_witness :
  let X := Arr2 (Mat 1 [[1%float]; [2%float]]) in
  let y := [2%float; 4%float] in
  let w := World init (fun _ => 0.5%float) 0 [] in
  exists lines : list (nat * vec),
    stdout (snd (fit (blas := in_order) inv_small X y "gradient_descent" c_0_01 1001 w)) = lines
    /\ map fst lines = [0; 1000]
    /\ length lines = 2
    /\ Forall (fun l => length (snd l) = 2) lines.
Proof.
  intros X y w.
  destruct (fit_gradient_descent_prints (blas := in_order) inv_small X y c_0_01 1001 w) as (lines & H).
  - discriminate.
  - now left.
  - exists lines. exact H.
Defined.

(** ** The metrics on other shapes *)

(** X7. [evaluate_regression] raises [ValueError] when the two arrays have
    different lengths and neither has a single entry: the first
    subtraction does not broadcast. *)
Theorem evaluate_regression_shape_error (y_true y_pred : vec) :
  length y_true <> length y_pred ->
  length y_true <> 1 ->
  length y_pred <> 1 ->
  exists msg, evaluate_regression y_true y_pred = Raise (ValueError msg).
Proof.
  intros H H1 H2. unfold evaluate_regression, broadcast2.
  destruct (length y_true =? length y_pred) eqn:E; [apply Nat.eqb_eq in E; lia |].
  destruct y_true as [|a0 [|a1 a]], y_pred as [|b0 [|b1 b]]; cbn in *;
    try lia; eexists; reflexivity.
Qed.

Lemma evaluate_regression_shape_error_witness :
  exists msg,
    evaluate_regression [1%float; 2%float; 3%float] [1%float; 2%float]
    = Raise (ValueError msg).
Proof.
  apply (evaluate_regression_shape_error [1%float; 2%float; 3%float]
           [1%float; 2%float]); cbn; lia.
Defined.

Lemma broadcast2_constant (f : float -> float -> float) (a : vec) (c : float) :
  broadcast2 f a [c] = broadcast2 f a (repeat c (length a)).
Proof.
  rewrite (broadcast2_same_length f a (repeat c (length a)))
    by now rewrite repeat_length.
  assert (Hmap : forall l, zip_with f l (repeat c (length l)) = map (fun x => f x c) l).
  { induction l as [|x l IH]; cbn; [reflexivity | now rewrite IH]. }
  rewrite Hmap. unfold broadcast2.
  destruct a as [|a0 [|a1 a]]; reflexivity.
Qed.

(** X8. A [y_pred] with a single entry is accepted whatever the length of
    [y_true]: it is scored as the constant prediction, the entry repeated
    once for every entry of [y_true]. *)
Theorem evaluate_regression_constant_prediction (y_true : vec) (c : float) :
  evaluate_regression y_true [c]
  = evaluate_regression y_true (repeat c (length y_true)).
Proof.
  unfold evaluate_regression. now rewrite broadcast2_constant.
Qed.

(** X9. On an empty [y_true] (with an empty or single-entry [y_pred])
    [evaluate_regression] does not raise: every sum is 0.0 and is divided
    by zero, and the three metrics are NaN. *)
Theorem evaluate_regression_empty (y_pred : vec) :
  length y_pred <= 1 ->
  evaluate_regression [] y_pred = Ok (metrics nan nan nan).
Proof.
  intros H. destruct y_pred as [|c [|c' y_pred]]; [reflexivity | reflexivity |].
  cbn in H. lia.
Qed.

Lemma evaluate_regression_empty_witness :
  evaluate_regression [] [] = Ok (metrics nan nan nan).
Proof. apply (evaluate_regression_empty []). cbn. lia. Defined.

(** Rounding to nearest is symmetric: the sign does not change the
    magnitude. *)
Lemma SFabs_binary_round (m : positive) (e : Z) :
  SFabs (binary_round prec emax true m e) = SFabs (binary_round prec emax false m e).
Proof.
  unfold binary_round, binary_round_aux.
  destruct (shl_align _ _ _) as [mz ez].
  destruct (shr_fexp _ _ _ _ _) as [mrs' e'].
  destruct (shr_fexp _ _ _ _ _) as [mrs'' e''].
  destruct (shr_m mrs'') as [|p|p]; try reflexivity.
  now destruct (e'' <=? emax - prec)%Z.
Qed.

Lemma SFabs_sub_comm (a b : spec_float) :
  SFabs (SFsub prec emax a b) = SFabs (SFsub prec emax b a).
Proof.
  destruct a as [sa|sa| |sa ma ea], b as [sb|sb| |sb mb eb];
    try (destruct sa, sb; reflexivity); try (destruct sa; reflexivity);
    try (destruct sb; reflexivity); try reflexivity.
  unfold SFsub. rewrite (Z.min_comm eb ea).
  set (A := cond_Zopp sa _). set (B := cond_Zopp sb _).
  replace (B - A)%Z with (- (A - B))%Z by lia.
  destruct (A - B)%Z as [|p|p]; cbn [Z.opp binary_normalize]; try reflexivity.
  - symmetry. apply SFabs_binary_round.
  - apply SFabs_binary_round.
Qed.

Lemma abs_sub_comm (x y : float) : PrimFloat.abs (x - y) = PrimFloat.abs (y - x).
Proof.
  apply Prim2SF_inj. rewrite !FloatAxioms.abs_spec, !FloatAxioms.sub_spec.
  apply SFabs_sub_comm.
Qed.

Lemma SFmul_self_abs (a : spec_float) :
  SFmul prec emax a a = SFmul prec emax (SFabs a) (SFabs a).
Proof. destruct a as [s|s| |s m e]; try destruct s; reflexivity. Qed.

Lemma sq_sub_comm (x y : float) : sq (x - y) = sq (y - x).
Proof.
  unfold sq. apply Prim2SF_inj. rewrite !FloatAxioms.mul_spec, !FloatAxioms.sub_spec.
  unfold SF64mul, SF64sub.
  rewrite SFmul_self_abs, (SFmul_self_abs (SFsub _ _ (Prim2SF y) _)).
  now rewrite SFabs_sub_comm.
Qed.

Lemma zip_with_swap {A B : Type} (f : A -> A -> B) (a b : list A) :
  (forall x y, f x y = f y x) -> zip_with f a b = zip_with f b a.
Proof.
  intros H. revert b. induction a as [|x a IH]; intros [|y b]; cbn; try reflexivity.
  now rewrite H, IH.
Qed.

(** X10. RMSE and MAE do not depend on which array is given as the truth
    and which as the prediction: for arrays of the same length the two
    orders give the same RMSE and the same MAE, bit for bit (R2 is another
    matter: it is normalised by [y_true]). *)
Theorem evaluate_regression_symmetric_errors (y_true y_pred : vec) :
  length y_true = length y_pred ->
  exists m m' : gmap string float,
    evaluate_regression y_true y_pred = Ok m
    /\ evaluate_regression y_pred y_true = Ok m'
    /\ m !! "RMSE"%string = m' !! "RMSE"%string
    /\ m !! "MAE"%string = m' !! "MAE"%string.
Proof.
  intros H. eexists _, _.
  split; [now apply evaluate_regression_same_length |].
  split; [now apply evaluate_regression_same_length |].
  unfold metrics. split; simplify_map_eq; f_equal.
  - unfold rmse_score, sum_sq_residuals. rewrite H. do 3 f_equal.
    apply zip_with_swap. intros x y. apply sq_sub_comm.
  - unfold mae_score. rewrite H. do 2 f_equal.
    apply zip_with_swap. intros x y. apply abs_sub_comm.
Qed.

Lemma evaluate_regression_symmetric_errors_witness :
  exists m m' : gmap string float,
    evaluate_regression [1%float; 2%float; 4%float] [1%float; 3%float; 2%float] = Ok m
    /\ evaluate_regression [1%float; 3%float; 2%float] [1%float; 2%float; 4%float] = Ok m'
    /\ m !! "RMSE"%string = m' !! "RMSE"%string
    /\ m !! "MAE"%string = m' !! "MAE"%string.
Proof.
  apply (evaluate_regression_symmetric_errors [1%float; 2%float; 4%float]
           [1%float; 3%float; 2%float]).
  reflexivity.
Defined.

(** Sums of squares and of absolute values have a clear sign bit. *)
Lemma sign_clear_binary_round_aux (m e : Z) (l : location) :
  sign_clear (binary_round_aux prec emax false m e l).
Proof.
  unfold binary_round_aux.
  destruct (shr_fexp _ _ _ _ _) as [mrs' e'].
  destruct (shr_fexp _ _ _ _ _) as [mrs'' e''].
  destruct (shr_m mrs'') as [|p|p]; try reflexivity.
  now destruct (e'' <=? emax - prec)%Z.
Qed.

Lemma sign_clear_binary_round (m : positive) (e : Z) :
  sign_clear (binary_round prec emax false m e).
Proof.
  unfold binary_round. destruct (shl_align _ _ _) as [mz ez].
  apply sign_clear_binary_round_aux.
Qed.

Lemma sign_clear_add (a b : spec_float) :
  sign_clear a -> sign_clear b -> sign_clear (SFadd prec emax a b).
Proof.
  destruct a as [sa|sa| |sa ma ea], b as [sb|sb| |sb mb eb]; cbn [sign_clear];
    intros Ha Hb; subst; try exact I; try reflexivity.
  unfold SFadd. cbn [cond_Zopp Z.add binary_normalize].
  apply sign_clear_binary_round.
Qed.

Lemma sign_clear_mul_self (a : spec_float) : sign_clear (SFmul prec emax a a).
Proof.
  destruct a as [s|s| |s m e]; try destruct s; try exact I; try reflexivity;
    apply sign_clear_binary_round_aux.
Qed.

Lemma sign_clear_abs (a : spec_float) : sign_clear (SFabs a).
Proof. destruct a; try exact I; reflexivity. Qed.

Lemma sign_clear_div (a b : spec_float) :
  sign_clear a -> sign_clear b -> sign_clear (SFdiv prec emax a b).
Proof.
  destruct a as [sa|sa| |sa ma ea], b as [sb|sb| |sb mb eb]; cbn [sign_clear];
    intros Ha Hb; subst; try exact I; try reflexivity.
  unfold SFdiv. destruct (SFdiv_core_binary _ _ _ _ _ _) as [[mz ez] lz].
  apply sign_clear_binary_round_aux.
Qed.

Lemma sign_clear_sqrt (a : spec_float) :
  sign_clear a -> sign_clear (SFsqrt prec emax a).
Proof.
  destruct a as [s|s| |s m e]; cbn [sign_clear]; intros Ha; subst;
    try exact I; try reflexivity.
  unfold SFsqrt. destruct (SFsqrt_core_binary _ _ _ _) as [[mz ez] lz].
  apply sign_clear_binary_round_aux.
Qed.

Lemma sign_clear_float_of_nat (n : nat) : sign_clear (Prim2SF (float_of_nat n)).
Proof.
  unfold float_of_nat. rewrite FloatAxioms.of_uint63_spec.
  pose proof (Uint63.to_Z_bounded (Uint63.of_Z (Z.of_nat n))) as Hb.
  destruct (Uint63.to_Z _) as [|p|p]; cbn [binary_normalize].
  - reflexivity.
  - apply sign_clear_binary_round.
  - lia.
Qed.

Lemma sign_clear_np_sum (v : vec) :
  Forall (fun x => sign_clear (Prim2SF x)) v -> sign_clear (Prim2SF (np_sum v)).
Proof.
  apply (np_sum_closed (fun x => sign_clear (Prim2SF x))); [reflexivity |].
  intros x y Hx Hy. rewrite FloatAxioms.add_spec. now apply sign_clear_add.
Qed.

Lemma sign_clear_not_below_zero (r : float) :
  sign_clear (Prim2SF r) -> (r <? 0)%float = false.
Proof.
  rewrite FloatAxioms.ltb_spec. change (Prim2SF 0%float) with (S754_zero false).
  destruct (Prim2SF r) as [s|s| |s m e]; cbn [sign_clear]; intros H; subst; reflexivity.
Qed.



(** ** The list of indices *)

(** X12. With an empty list of indices [one_hot_encode] returns a copy of
    [X]: a reference that did not exist and is not [X], to an array equal
    to the one behind [X]; nothing else changes. *)
Theorem one_hot_encode_no_indices (X : loc) (drop_first : bool)
    (x : tarray) (h : heap) :
  h !! X = Some x ->
  exists l : loc,
    one_hot_encode X [] drop_first h = (Ok l, <[l := x]> h)
    /\ h !! l = None /\ l <> X.
Proof.
  intros HX. exists (fresh (dom h)).
  pose proof (fresh_unused h) as Hl.
  split; [| split; [exact Hl | intros E; rewrite E in Hl; congruence]].
  unfold one_hot_encode, bind, load. rewrite HX. reflexivity.
Qed.

Lemma one_hot_encode_no_indices_witness :
  exists l : loc,
    one_hot_encode 0 [] true ({[ 0 := colours ]} : heap)
    = (Ok l, <[l := colours]> ({[ 0 := colours ]} : heap))
    /\ ({[ 0 := colours ]} : heap) !! l = None /\ l <> 0.
Proof.
  apply (one_hot_encode_no_indices 0 true colours ({[ 0 := colours ]} : heap)).
  reflexivity.
Defined.

(** [sorted(l, reverse=True)] begins with the largest entry of [l]. *)
Lemma sorted_reverse_head (l : list Z) (m : Z) :
  In m l -> Forall (fun a => (a <= m)%Z) l ->
  exists rest, sorted_reverse l = m :: rest.
Proof.
  induction l as [|x l IH]; intros Hin Hmax; [destruct Hin |].
  apply Forall_cons in Hmax as [Hx Hmax].
  cbn [sorted_reverse fold_right]. fold (sorted_reverse l).
  destruct (sorted_reverse l) as [|u rest] eqn:E.
  - cbn. destruct Hin as [->|Hin]; [now exists [] |].
    apply in_sorted_reverse in Hin. rewrite E in Hin. destruct Hin.
  - assert (Hu : (u <= m)%Z).
    { rewrite Forall_forall in Hmax. apply Hmax, list_elem_of_In, in_sorted_reverse.
      rewrite E. now left. }
    cbn [insert_desc]. destruct (u <=? x)%Z eqn:Eux.
    + apply Z.leb_le in Eux. destruct Hin as [->|Hin]; [now eexists |].
      destruct (IH Hin Hmax) as [rest' Hr]. injection Hr as -> _.
      assert (x = m) by lia. subst x. now eexists.
    + apply Z.leb_gt in Eux. destruct Hin as [->|Hin]; [lia |].
      destruct (IH Hin Hmax) as [rest' Hr]. injection Hr as -> _. now eexists.
Qed.

Lemma index_position_out_of_range (len : nat) (i : Z) :
  (Z.of_nat len <= i \/ i < - Z.of_nat len)%Z ->
  index_position len i = Raise IndexError.
Proof.
  intros H. unfold index_position.
  destruct ((0 <=? i) && (i <? Z.of_nat len))%Z eqn:E1.
  { apply andb_true_iff in E1 as [H1 H2].
    apply Z.leb_le in H1. apply Z.ltb_lt in H2. lia. }
  destruct ((i <? 0) && (- Z.of_nat len <=? i))%Z eqn:E2; [| reflexivity].
  apply andb_true_iff in E2 as [H1 H2].
  apply Z.ltb_lt in H1. apply Z.leb_le in H2. lia.
Qed.

(** X13. The loop takes the largest index first. If that index is not
    the index of a column of [X], from either end, [one_hot_encode] raises
    [IndexError], whatever the other indices are. *)
Theorem one_hot_encode_index_error (X : loc) (categorical_indices : list Z)
    (drop_first : bool) (x : tarray) (h : heap) (m : Z) :
  h !! X = Some x ->
  In m categorical_indices ->
  Forall (fun a => (a <= m)%Z) categorical_indices ->
  (Z.of_nat (ncols x) <= m \/ m < - Z.of_nat (ncols x))%Z ->
  fst (one_hot_encode X categorical_indices drop_first h) = Raise IndexError.
Proof.
  intros HX Hin Hmax Hout.
  destruct (sorted_reverse_head categorical_indices m Hin Hmax) as [rest Hs].
  unfold one_hot_encode, bind at 1, load. rewrite HX. unfold bind at 1, alloc.
  rewrite Hs. cbn [encode_columns]. unfold bind at 1.
  unfold encode_column, bind at 1, load.
  rewrite lookup_insert_ne.
  2:{ intros E. pose proof (fresh_unused h) as Hl. rewrite E in Hl. congruence. }
  rewrite HX. unfold bind at 1, lift.
  now rewrite (index_position_out_of_range _ _ Hout).
Qed.

Lemma one_hot_encode_index_error_witness :
  fst (one_hot_encode 0 [0%Z; 1%Z] false ({[ 0 := colours ]} : heap))
  = Raise IndexError.
Proof.
  apply (one_hot_encode_index_error 0 [0%Z; 1%Z] false colours
           ({[ 0 := colours ]} : heap) 1%Z).
  - reflexivity.
  - cbn. auto.
  - repeat constructor; lia.
  - cbn. lia.
Defined.

Lemma insert_desc_comm (x y : Z) (l : list Z) :
  insert_desc x (insert_desc y l) = insert_desc y (insert_desc x l).
Proof.
  induction l as [|u l IH]; cbn [insert_desc].
  - destruct (y <=? x)%Z eqn:E1, (x <=? y)%Z eqn:E2; try reflexivity.
    + apply Z.leb_le in E1, E2. now replace y with x by lia.
    + apply Z.leb_gt in E1, E2. lia.
  - destruct (u <=? y)%Z eqn:Ey, (u <=? x)%Z eqn:Ex; cbn [insert_desc];
      rewrite ?Ey, ?Ex.
    + destruct (y <=? x)%Z eqn:E1, (x <=? y)%Z eqn:E2; try reflexivity.
      * apply Z.leb_le in E1, E2. now replace y with x by lia.
      * apply Z.leb_gt in E1, E2. lia.
    + apply Z.leb_le in Ey. apply Z.leb_gt in Ex.
      replace (y <=? x)%Z with false by (symmetry; apply Z.leb_gt; lia).
      reflexivity.
    + apply Z.leb_le in Ex. apply Z.leb_gt in Ey.
      replace (x <=? y)%Z with false by (symmetry; apply Z.leb_gt; lia).
      reflexivity.
    + now rewrite IH.
Qed.

Lemma sorted_reverse_permutation (l l' : list Z) :
  Permutation l l' -> sorted_reverse l = sorted_reverse l'.
Proof.
  induction 1 as [|x l l' _ IH|x y l|l l' l'' _ IH1 _ IH2].
  - reflexivity.
  - cbn [sorted_reverse fold_right]. fold (sorted_reverse l) (sorted_reverse l').
    now rewrite IH.
  - cbn [sorted_reverse fold_right]. apply insert_desc_comm.
  - congruence.
Qed.

(** X14. The order in which the indices are listed does not matter: two
    lists with the same entries, repetitions counted, give the same
    result, the same exception or the same arrays. *)
Theorem one_hot_encode_permutation (X : loc) (L L' : list Z)
    (drop_first : bool) (h : heap) :
  Permutation L L' ->
  one_hot_encode X L drop_first h = one_hot_encode X L' drop_first h.
Proof.
  intros HP. unfold one_hot_encode.
  now rewrite (sorted_reverse_permutation L L' HP).
Qed.

Lemma one_hot_encode_permutation_witness :
  let x := Typed Str (Mat 2 [[CStr "a"; CStr "u"]; [CStr "b"; CStr "v"]]) in
  one_hot_encode 0 [0%Z; 1%Z] false ({[ 0 := x ]} : heap)
  = one_hot_encode 0 [1%Z; 0%Z] false ({[ 0 := x ]} : heap).
Proof.
  intros x. apply one_hot_encode_permutation. apply perm_swap.
Defined.

(** ** The columns of the output *)

Lemma row_split (r : list cell) (j : nat) :
  j < length r -> r = take j r ++ nth j r (CNum 0) :: drop (S j) r.
Proof.
  intros H. symmetry. apply take_drop_middle.
  destruct (nth_lookup_or_length r j (CNum 0)) as [E|E]; [exact E | lia].
Qed.

(** Where an entry that is not encoded lies in an expanded row. *)
Lemma nth_expand_from_other (x : tarray) (drop_first : bool) (L : list Z)
    (j : nat) (r : list cell) :
  ~ In (Z.of_nat j) L -> j < length r ->
  nth (span x drop_first L 0 j) (expand_from x drop_first L 0 r) (CNum 0)
  = nth j r (CNum 0).
Proof.
  intros Hnot Hj.
  assert (Hlen : length (take j r) = j) by (rewrite length_take; lia).
  rewrite (row_split r j Hj) at 1. rewrite expand_from_app, Hlen.
  cbn [expand_from Nat.add]. unfold expand_entry.
  destruct (encodes L j) eqn:E; [apply encodes_In in E; contradiction |].
  pose proof (length_expand_from x drop_first L (take j r) 0) as Hoff.
  rewrite Hlen in Hoff. rewrite <- Hoff. cbn [app].
  apply nth_middle.
Qed.

(** X15. For distinct indices of columns of a rectangular [X], the array
    returned is rectangular, has the rows of [X] in number, and as many
    columns as [X] with every encoded column counted for its block. A
    column [j] that is not in the list is in the output as it is in [X],
    after the columns that the columns before [j] became. *)
Theorem one_hot_encode_other_columns (X : loc) (h : heap) (x : tarray)
    (categorical_indices : list Z) (drop_first : bool) :
  h !! X = Some x ->
  rectangular x ->
  List.NoDup categorical_indices ->
  Forall (fun a => (0 <= a < Z.of_nat (ncols x))%Z) categorical_indices ->
  Forall (fun a => homogeneous (get_column (Z.to_nat a) x) = true) categorical_indices ->
  exists (l : loc) (y : tarray),
    fst (one_hot_encode X categorical_indices drop_first h) = Ok l
    /\ snd (one_hot_encode X categorical_indices drop_first h) !! l = Some y
    /\ rectangular y
    /\ nrows y = nrows x
    /\ ncols y = span x drop_first categorical_indices 0 (ncols x)
    /\ forall j : nat,
         j < ncols x -> ~ In (Z.of_nat j) categorical_indices ->
         get_column (span x drop_first categorical_indices 0 j) y = get_column j x.
Proof.
  intros HX Hrect Hnd Hrange Hhom.
  destruct (one_hot_encode_refines X categorical_indices drop_first x h HX) as [_ Hres].
  rewrite (encoded_expand x categorical_indices drop_first Hrect Hnd Hrange Hhom) in Hres.
  destruct Hres as (l & El & _ & Hy).
  eexists l, _. split; [exact El |]. split; [exact Hy |].
  split; [| split; [| split]].
  - unfold rectangular. cbn [rows ncols cells]. apply Forall_forall. intros r' Hr'.
    apply list_elem_of_In, in_map_iff in Hr' as (r & <- & Hr).
    now rewrite length_expand_from, (rectangular_length x r Hrect Hr).
  - unfold nrows. cbn [rows cells]. apply length_map.
  - reflexivity.
  - intros j Hj Hnot. unfold get_column. cbn [rows cells]. rewrite map_map.
    apply map_ext_in. intros r Hr.
    apply nth_expand_from_other; [assumption |].
    now rewrite (rectangular_length x r Hrect Hr).
Qed.

Lemma one_hot_encode_other_columns_witness :
  let x := Typed Object (Mat 3 [[CStr "a"; CNum 10; CStr "u"];
                                [CStr "b"; CNum 20; CStr "v"];
                                [CStr "a"; CNum 30; CStr "w"]]) in
  let h : heap := {[ 0 := x ]} in
  exists (l : loc) (y : tarray),
    fst (one_hot_encode 0 [0%Z; 2%Z] false h) = Ok l
    /\ snd (one_hot_encode 0 [0%Z; 2%Z] false h) !! l = Some y
    /\ rectangular y
    /\ nrows y = 3
    /\ ncols y = 6
    /\ forall j : nat,
         j < 3 -> ~ In (Z.of_nat j) [0%Z; 2%Z] ->
         get_column (span x false [0%Z; 2%Z] 0 j) y = get_column j x.
Proof.
  intros x h.
  apply (one_hot_encode_other_columns 0 h x [0%Z; 2%Z] false).
  - reflexivity.
  - repeat constructor.
  - constructor; [cbn; intros [H|[]]; discriminate H |].
    constructor; [intros [] | constructor].
  - repeat constructor; cbn; lia.
  - repeat constructor.
Defined.

(** The entries of a block, one by one. *)
Lemma nth_inserted_block (u : list cell) (drop_first : bool) (v : cell) (t : nat) :
  t < block_width u drop_first ->
  nth t (inserted_block u drop_first v) (CNum 0)
  = indicator (nth (t + (if drop_first then 1 else 0)) u (CNum 0)) v.
Proof.
  assert (Hnth : forall n l, n < length l ->
            nth n (indicator_row l v) (CNum 0) = indicator (nth n l (CNum 0)) v).
  { intros n l. revert n. induction l as [|c l IH]; intros n Hn; [cbn in Hn; lia |].
    destruct n as [|n]; [reflexivity |]. cbn. apply IH. cbn in Hn. lia. }
  unfold block_width, inserted_block. destruct drop_first; intros Ht.
  - destruct u as [|c u]; [cbn in Ht; lia |].
    cbn [indicator_row map drop]. fold (indicator_row u v).
    rewrite Nat.add_1_r. cbn [nth]. apply Hnth. cbn in Ht. lia.
  - rewrite Nat.add_0_r. now apply Hnth.
Qed.

Lemma nth_inserted (off k t : nat) (row : list cell) :
  t < k -> nth t (inserted off k row) (CNum 0) = nth (off + t) row (CNum 0).
Proof.
  intros Ht. unfold inserted. rewrite nth_take by assumption.
  revert off. induction row as [|c row IH]; intros off.
  - rewrite drop_nil. now destruct t, off.
  - destruct off as [|off]; [reflexivity |]. cbn. apply IH.
Qed.

Lemma nth_stored (dt : dtype) (block : list cell) (t : nat) :
  t < length block ->
  nth t (stored dt block) (CNum 0) = cast Float64 dt (nth t block (CNum 0)).
Proof.
  unfold stored. revert t. induction block as [|e block IH]; intros t Ht;
    [cbn in Ht; lia |].
  destruct t as [|t]; [reflexivity |]. cbn. apply IH. cbn in Ht. lia.
Qed.

(** The entry of an output row in the [t]-th column of the block of
    column [c]. *)
Lemma one_hot_encode_entry (X : loc) (h : heap) (x : tarray)
    (categorical_indices : list Z) (drop_first : bool) (c i t : nat)
    (r : list cell) :
  h !! X = Some x ->
  rectangular x ->
  List.NoDup categorical_indices ->
  Forall (fun a => (0 <= a < Z.of_nat (ncols x))%Z) categorical_indices ->
  Forall (fun a => homogeneous (get_column (Z.to_nat a) x) = true) categorical_indices ->
  In (Z.of_nat c) categorical_indices ->
  rows x !! i = Some r ->
  t < block_width (uniques x c) drop_first ->
  exists (l : loc) (y : tarray) (row : list cell),
    fst (one_hot_encode X categorical_indices drop_first h) = Ok l
    /\ snd (one_hot_encode X categorical_indices drop_first h) !! l = Some y
    /\ rows y !! i = Some row
    /\ nth (span x drop_first categorical_indices 0 c + t) row (CNum 0)
       = cast Float64 (dtype_of x)
           (indicator (nth (t + (if drop_first then 1 else 0)) (uniques x c) (CNum 0))
                      (nth c r (CNum 0))).
Proof.
  intros HX Hrect Hnd Hrange Hhom Hc Hr Ht.
  destruct (one_hot_encode_refines X categorical_indices drop_first x h HX) as [_ Hres].
  rewrite (encoded_expand x categorical_indices drop_first Hrect Hnd Hrange Hhom) in Hres.
  destruct Hres as (l & El & _ & Hy).
  eexists l, _, _. split; [exact El |]. split; [exact Hy |].
  cbn [rows cells]. split; [exact (lookup_map_Some _ _ _ _ Hr) |].
  assert (Hlen : c < length r).
  { rewrite (rectangular_length x r Hrect).
    - rewrite Forall_forall in Hrange.
      specialize (Hrange _ (proj2 (list_elem_of_In _ _) Hc)). lia.
    - apply list_elem_of_In. now apply list_elem_of_lookup_2 with i. }
  rewrite <- (nth_inserted _ (block_width (uniques x c) drop_first)) by assumption.
  rewrite (inserted_expand_from x drop_first categorical_indices c r Hc Hlen).
  rewrite nth_stored by now rewrite length_inserted_block.
  now rewrite nth_inserted_block.
Qed.



(** An entry is equal to no NaN. *)
Lemma cell_eqb_nan_r (v category : cell) :
  cell_eqb category category = false -> cell_eqb v category = false.
Proof.
  intros H. destruct (cell_eqb v category) eqn:E; [| reflexivity].
  now rewrite (cell_eqb_trans category v category (cell_eqb_sym _ _ E) E) in H.
Qed.

(** X17. A missing value gets an indicator column that indicates nothing:
    when one of the values that [np.unique] returns for an encoded column
    is NaN, wherever it stands among them, its column of the block is 0.0
    in every row, the rows that hold NaN included (in a [float64] array NaN
    is the last of the values; in an object array it stands where the sort
    left it). *)
Theorem one_hot_encode_nan_column (X : loc) (h : heap) (x : tarray)
    (categorical_indices : list Z) (drop_first : bool) (c i t : nat)
    (r : list cell) :
  h !! X = Some x ->
  rectangular x ->
  List.NoDup categorical_indices ->
  Forall (fun a => (0 <= a < Z.of_nat (ncols x))%Z) categorical_indices ->
  Forall (fun a => homogeneous (get_column (Z.to_nat a) x) = true) categorical_indices ->
  In (Z.of_nat c) categorical_indices ->
  rows x !! i = Some r ->
  t < block_width (uniques x c) drop_first ->
  cell_is_nan (nth (t + (if drop_first then 1 else 0)) (uniques x c) (CNum 0)) = true ->
  exists (l : loc) (y : tarray) (row : list cell),
    fst (one_hot_encode X categorical_indices drop_first h) = Ok l
    /\ snd (one_hot_encode X categorical_indices drop_first h) !! l = Some y
    /\ rows y !! i = Some row
    /\ let entry := nth (span x drop_first categorical_indices 0 c + t) row (CNum 0) in
       (dtype_of x <> Str -> entry = CNum 0)
       /\ (dtype_of x = Str -> entry = CStr "0.0").
Proof.
  intros HX Hrect Hnd Hrange Hhom Hc Hr Ht Hnan.
  destruct (one_hot_encode_entry X h x categorical_indices drop_first c i t r
              HX Hrect Hnd Hrange Hhom Hc Hr Ht) as (l & y & row & El & Hy & Hrow & E).
  exists l, y, row. split; [exact El |]. split; [exact Hy |]. split; [exact Hrow |].
  cbv zeta. rewrite E. unfold indicator. rewrite cell_eqb_nan_r.
  - split; [| now intros ->].
    intros Hd. destruct (dtype_of x); try reflexivity. contradiction.
  - rewrite cell_eqb_refl_not_nan. now rewrite Hnan.
Qed.

Lemma one_hot_encode_nan_column_witness :
  let x := Typed Float64 (Mat 1 [[CNum nan]; [CNum 1]]) in
  let o := Typed Object (Mat 1 [[CNum nan]; [CNum 1]]) in
  (uniques x 0 = [CNum 1; CNum nan]
   /\ returned (one_hot_encode 0 [0%Z] false ({[ 0 := x ]} : heap))
      = Ok (Some (Typed Float64 (Mat 2 [[CNum 0; CNum 0]; [CNum 1; CNum 0]])))
   /\ uniques o 0 = [CNum nan; CNum 1]
   /\ returned (one_hot_encode 0 [0%Z] false ({[ 0 := o ]} : heap))
      = Ok (Some (Typed Object (Mat 2 [[CNum 0; CNum 0]; [CNum 0; CNum 1]]))))
  /\ (exists (l : loc) (y : tarray) (row : list cell),
        fst (one_hot_encode 0 [0%Z] false ({[ 0 := x ]} : heap)) = Ok l
        /\ snd (one_hot_encode 0 [0%Z] false ({[ 0 := x ]} : heap)) !! l = Some y
        /\ rows y !! 1 = Some row
        /\ let entry := nth (span x false [0%Z] 0 0 + 1) row (CNum 0) in
           (dtype_of x <> Str -> entry = CNum 0)
           /\ (dtype_of x = Str -> entry = CStr "0.0"))
  /\ exists (l : loc) (y : tarray) (row : list cell),
       fst (one_hot_encode 0 [0%Z] false ({[ 0 := o ]} : heap)) = Ok l
       /\ snd (one_hot_encode 0 [0%Z] false ({[ 0 := o ]} : heap)) !! l = Some y
       /\ rows y !! 1 = Some row
       /\ let entry := nth (span o false [0%Z] 0 0 + 0) row (CNum 0) in
          (dtype_of o <> Str -> entry = CNum 0)
          /\ (dtype_of o = Str -> entry = CStr "0.0").
Proof.
  intros x o. split; [repeat split |]. split.
  - apply (one_hot_encode_nan_column 0 ({[ 0 := x ]} : heap) x [0%Z] false 0 1 1
             [CNum 1]).
    + reflexivity.
    + repeat constructor.
    + repeat constructor. intros [].
    + repeat constructor; cbn; lia.
    + repeat constructor.
    + cbn. auto.
    + reflexivity.
    + vm_compute. lia.
    + reflexivity.
  - apply (one_hot_encode_nan_column 0 ({[ 0 := o ]} : heap) o [0%Z] false 0 1 0
             [CNum 1]).
    + reflexivity.
    + repeat constructor.
    + repeat constructor. intros [].
    + repeat constructor; cbn; lia.
    + repeat constructor.
    + cbn. auto.
    + reflexivity.
    + vm_compute. lia.
    + reflexivity.
Defined.

Lemma indicator_eq (category v1 v2 : cell) :
  indicator category v1 = indicator category v2
  <-> cell_eqb v1 category = cell_eqb v2 category.
Proof.
  unfold indicator.
  destruct (cell_eqb v1 category), (cell_eqb v2 category); split; intros H;
    try reflexivity; try discriminate H;
    apply (f_equal (fun c => match c with
                             | CNum a => (a =? 0)%float
                             | CStr _ => false
                             end)) in H;
    vm_compute in H; discriminate H.
Qed.

Lemma indicator_row_eq (u : list cell) (v1 v2 : cell) :
  indicator_row u v1 = indicator_row u v2 <-> same_matches u v1 v2.
Proof.
  unfold same_matches. induction u as [|c u IH]; cbn [indicator_row map].
  - split; [constructor | reflexivity].
  - fold (indicator_row u v1) (indicator_row u v2). split.
    + intros H.
      assert (H1 : indicator c v1 = indicator c v2)
        by exact (f_equal (fun l => nth 0 l (CNum 0)) H).
      assert (H2 : indicator_row u v1 = indicator_row u v2)
        by exact (f_equal (drop 1) H).
      constructor; [now apply indicator_eq | now apply IH].
    + intros H. apply Forall_cons in H as [H1 H2].
      apply indicator_eq in H1. apply IH in H2. now rewrite H1, H2.
Qed.

Lemma count_eq_same_matches (u : list cell) (v1 v2 : cell) :
  same_matches u v1 v2 -> count_eq v1 u = count_eq v2 u.
Proof.
  unfold same_matches. induction 1 as [|c u Hc _ IH]; [reflexivity |].
  now rewrite !count_eq_cons, Hc, IH.
Qed.

Lemma same_matches_of_eqb (u : list cell) (v1 v2 : cell) :
  cell_eqb v1 v2 = true -> same_matches u v1 v2.
Proof.
  intros H. apply Forall_forall. intros c _.
  destruct (cell_eqb v1 c) eqn:E1, (cell_eqb v2 c) eqn:E2; try reflexivity.
  - rewrite (cell_eqb_trans v2 v1 c (cell_eqb_sym _ _ H) E1) in E2. discriminate.
  - rewrite (cell_eqb_trans v1 v2 c H E2) in E1. discriminate.
Qed.

Lemma count_eq_exists (v : cell) (l : list cell) :
  1 <= count_eq v l -> exists c, In c l /\ cell_eqb v c = true.
Proof.
  intros H. destruct (existsb (cell_eqb v) l) eqn:E.
  - apply existsb_exists in E. exact E.
  - apply count_eq_zero in E. lia.
Qed.

Lemma eqb_of_same_matches (u : list cell) (v1 v2 : cell) :
  1 <= count_eq v1 u -> same_matches u v1 v2 -> cell_eqb v1 v2 = true.
Proof.
  intros Hc Hs. destruct (count_eq_exists v1 u Hc) as (c & Hin & Hv1).
  unfold same_matches in Hs. rewrite Forall_forall in Hs.
  pose proof (Hs c (proj2 (list_elem_of_In _ _) Hin)) as Hv2.
  rewrite Hv1 in Hv2. symmetry in Hv2.
  apply cell_eqb_trans with c; [assumption | now apply cell_eqb_sym].
Qed.

(** Two entries of the column that are not NaN get the same block exactly
    when they are equal. *)
Lemma inserted_block_injective (u : list cell) (drop_first : bool) (v1 v2 : cell) :
  1 <= count_eq v1 u -> 1 <= count_eq v2 u ->
  inserted_block u drop_first v1 = inserted_block u drop_first v2
  <-> cell_eqb v1 v2 = true.
Proof.
  intros H1 H2. split.
  - intros H. unfold inserted_block in H. destruct drop_first.
    + destruct u as [|c0 u]; [cbn in H1; lia |].
      cbn [indicator_row map drop] in H.
      fold (indicator_row u v1) (indicator_row u v2) in H.
      apply indicator_row_eq in H.
      pose proof (count_eq_same_matches u v1 v2 H) as Hcount.
      rewrite count_eq_cons in H1, H2.
      destruct (count_eq v1 u) as [|n] eqn:C1.
      * destruct (cell_eqb v1 c0) eqn:E1; [| cbn in H1; lia].
        destruct (cell_eqb v2 c0) eqn:E2; [| cbn in H2; lia].
        apply cell_eqb_trans with c0; [assumption | now apply cell_eqb_sym].
      * apply (eqb_of_same_matches u); [lia | exact H].
    + apply (eqb_of_same_matches u); [assumption |]. now apply indicator_row_eq.
  - intros H.
    assert (E : indicator_row u v1 = indicator_row u v2)
      by now apply indicator_row_eq, same_matches_of_eqb.
    unfold inserted_block. now rewrite E.
Qed.

(** A block is known from what the array stores of it. *)
Lemma stored_injective (dt : dtype) (u : list cell) (drop_first : bool)
    (v1 v2 : cell) :
  stored dt (inserted_block u drop_first v1) = stored dt (inserted_block u drop_first v2)
  <-> inserted_block u drop_first v1 = inserted_block u drop_first v2.
Proof.
  split; [| now intros ->].
  assert (Hcast : forall c, cast Float64 dt (indicator c v1) = cast Float64 dt (indicator c v2)
                            -> indicator c v1 = indicator c v2).
  { intros c. unfold indicator.
    destruct (cell_eqb v1 c), (cell_eqb v2 c); try reflexivity; intros H;
      destruct dt; cbn in H; try discriminate H;
      apply (f_equal (fun e => match e with
                               | CNum a => (a =? 0)%float
                               | CStr _ => false
                               end)) in H;
      vm_compute in H; discriminate H. }
  assert (Hrow : forall l, stored dt (indicator_row l v1) = stored dt (indicator_row l v2)
                           -> indicator_row l v1 = indicator_row l v2).
  { unfold stored. induction l as [|c l IH]; [reflexivity |].
    cbn [indicator_row map]. fold (indicator_row l v1) (indicator_row l v2).
    intros H.
    assert (H1 : cast Float64 dt (indicator c v1) = cast Float64 dt (indicator c v2))
      by exact (f_equal (fun l => nth 0 l (CNum 0)) H).
    assert (H2 : map (cast Float64 dt) (indicator_row l v1)
                 = map (cast Float64 dt) (indicator_row l v2))
      by exact (f_equal (drop 1) H).
    now rewrite (Hcast c H1), (IH H2). }
  unfold inserted_block. destruct drop_first; [| apply Hrow].
  destruct u as [|c0 u]; [reflexivity |].
  cbn [indicator_row map drop]. fold (indicator_row u v1) (indicator_row u v2).
  apply Hrow.
Qed.

(** X18. The encoding loses nothing, with or without [drop_first]: for
    distinct indices of columns of a rectangular [X] and an index [c] of
    the list, two rows whose entries in column [c] are not NaN have the
    same block of indicators exactly when those entries are equal. *)
Theorem one_hot_encode_block_injective (X : loc) (h : heap) (x : tarray)
    (categorical_indices : list Z) (drop_first : bool) (c i1 i2 : nat)
    (r1 r2 : list cell) :
  h !! X = Some x ->
  rectangular x ->
  List.NoDup categorical_indices ->
  Forall (fun a => (0 <= a < Z.of_nat (ncols x))%Z) categorical_indices ->
  Forall (fun a => homogeneous (get_column (Z.to_nat a) x) = true) categorical_indices ->
  In (Z.of_nat c) categorical_indices ->
  rows x !! i1 = Some r1 ->
  rows x !! i2 = Some r2 ->
  cell_eqb (nth c r1 (CNum 0)) (nth c r1 (CNum 0)) = true ->
  cell_eqb (nth c r2 (CNum 0)) (nth c r2 (CNum 0)) = true ->
  let off := span x drop_first categorical_indices 0 c in
  let k := block_width (uniques x c) drop_first in
  exists (l : loc) (y : tarray) (row1 row2 : list cell),
    fst (one_hot_encode X categorical_indices drop_first h) = Ok l
    /\ snd (one_hot_encode X categorical_indices drop_first h) !! l = Some y
    /\ rows y !! i1 = Some row1
    /\ rows y !! i2 = Some row2
    /\ (inserted off k row1 = inserted off k row2
        <-> cell_eqb (nth c r1 (CNum 0)) (nth c r2 (CNum 0)) = true).
Proof.
  intros HX Hrect Hnd Hrange Hhom Hc Hr1 Hr2 Hv1 Hv2 off k.
  destruct (one_hot_encode_refines X categorical_indices drop_first x h HX) as [_ Hres].
  rewrite (encoded_expand x categorical_indices drop_first Hrect Hnd Hrange Hhom) in Hres.
  destruct Hres as (l & El & _ & Hy).
  eexists l, _, _, _. split; [exact El |]. split; [exact Hy |].
  cbn [rows cells].
  split; [exact (lookup_map_Some _ _ _ _ Hr1) |].
  split; [exact (lookup_map_Some _ _ _ _ Hr2) |].
  assert (Hcn : c < ncols x).
  { rewrite Forall_forall in Hrange.
    specialize (Hrange _ (proj2 (list_elem_of_In _ _) Hc)). lia. }
  assert (Hin : forall i r, rows x !! i = Some r -> In r (rows x)).
  { intros i r Hr. apply list_elem_of_In. now apply list_elem_of_lookup_2 with i. }
  assert (Hu : np_unique (dtype_of x) (get_column c x) = Ok (uniques x c)).
  { apply np_unique_uniques. rewrite Forall_forall in Hhom.
    specialize (Hhom _ (proj2 (list_elem_of_In _ _) Hc)).
    now rewrite Nat2Z.id in Hhom. }
  assert (Hcount : forall i r, rows x !! i = Some r ->
            cell_eqb (nth c r (CNum 0)) (nth c r (CNum 0)) = true ->
            1 <= count_eq (nth c r (CNum 0)) (uniques x c)).
  { intros i r Hr Hv.
    apply (np_unique_present (dtype_of x) (get_column c x)); auto.
    unfold get_column.
    exact (in_map (fun r0 => nth c r0 (CNum 0)) (rows x) r (Hin i r Hr)). }
  unfold off, k.
  rewrite !inserted_expand_from
    by (try assumption; rewrite (rectangular_length x _ Hrect); eauto).
  rewrite stored_injective.
  apply inserted_block_injective; eauto.
Qed.

Lemma one_hot_encode_block_injective_witness :
  let x := Typed Object (Mat 3 [[CStr "a"; CNum 10; CStr "u"];
                                [CStr "b"; CNum 20; CStr "v"];
                                [CStr "a"; CNum 30; CStr "w"]]) in
  let h : heap := {[ 0 := x ]} in
  exists (l : loc) (y : tarray) (row1 row2 : list cell),
    fst (one_hot_encode 0 [0%Z; 2%Z] true h) = Ok l
    /\ snd (one_hot_encode 0 [0%Z; 2%Z] true h) !! l = Some y
    /\ rows y !! 0 = Some row1
    /\ rows y !! 2 = Some row2
    /\ (inserted (span x true [0%Z; 2%Z] 0 0) (block_width (uniques x 0) true) row1
        = inserted (span x true [0%Z; 2%Z] 0 0) (block_width (uniques x 0) true) row2
        <-> cell_eqb (CStr "a") (CStr "a") = true).
Proof.
  intros x h.
  apply (one_hot_encode_block_injective 0 h x [0%Z; 2%Z] true 0 0 2
           [CStr "a"; CNum 10; CStr "u"] [CStr "a"; CNum 30; CStr "w"]).
  - reflexivity.
  - repeat constructor.
  - constructor; [cbn; intros [H|[]]; discriminate H |].
    constructor; [intros [] | constructor].
  - repeat constructor; cbn; lia.
  - repeat constructor.
  - cbn. auto.
  - reflexivity.
  - reflexivity.
  - reflexivity.
  - reflexivity.
Defined.

(** ** Negative and repeated indices *)

Lemma returned_refines (h0 h : heap) (out : res loc * heap) (b : res tarray) :
  refines h0 h out b ->
  returned out = match b with Ok a => Ok (Some a) | Raise e => Raise e end.
Proof.
  intros [_ H]. unfold returned. destruct b as [a|e].
  - destruct H as (l & -> & _ & ->). reflexivity.
  - now rewrite H.
Qed.

Lemma slice_bound_negative (len : nat) (i : Z) :
  (- Z.of_nat len <= i < 0)%Z ->
  slice_bound len i = slice_bound len (i + Z.of_nat len).
Proof.
  intros H. unfold slice_bound.
  replace (i <? 0)%Z with true by (symmetry; apply Z.ltb_lt; lia).
  replace (i + Z.of_nat len <? 0)%Z with false by (symmetry; apply Z.ltb_ge; lia).
  lia.
Qed.

Lemma index_position_negative (len : nat) (i : Z) :
  (- Z.of_nat len <= i < 0)%Z ->
  index_position len i = Ok (Z.to_nat (i + Z.of_nat len)).
Proof.
  intros H. unfold index_position.
  replace (0 <=? i)%Z with false by (symmetry; apply Z.leb_gt; lia).
  replace (i <? 0)%Z with true by (symmetry; apply Z.ltb_lt; lia).
  replace (- Z.of_nat len <=? i)%Z with true by (symmetry; apply Z.leb_le; lia).
  reflexivity.
Qed.

Lemma encoded_column_negative (x : tarray) (drop_first : bool) (a : Z) :
  (- Z.of_nat (ncols x) <= a <= -2)%Z ->
  encoded_column x drop_first x a
  = encoded_column x drop_first x (a + Z.of_nat (ncols x)).
Proof.
  intros H. unfold encoded_column.
  rewrite index_position_negative by lia.
  replace (index_position (ncols x) (a + Z.of_nat (ncols x)))
    with (@Ok nat (Z.to_nat (a + Z.of_nat (ncols x)))).
  2:{ symmetry. rewrite <- (Z2Nat.id (a + Z.of_nat (ncols x))) at 1 by lia.
      apply index_position_nat. lia. }
  unfold columns_before, columns_from.
  rewrite (slice_bound_negative (ncols x) a) by lia.
  rewrite (slice_bound_negative (ncols x) (a + 1)) by lia.
  now replace (a + 1 + Z.of_nat (ncols x))%Z with (a + Z.of_nat (ncols x) + 1)%Z by lia.
Qed.

(** X19. A single negative index from [-ncols] to [-2] counts from the
    end, as in Python: the call gives what the call with the index
    [ncols + index] gives, the same exception or an equal array. *)
Theorem one_hot_encode_negative_index (X : loc) (h : heap) (x : tarray)
    (drop_first : bool) (a : Z) :
  h !! X = Some x ->
  (- Z.of_nat (ncols x) <= a <= -2)%Z ->
  returned (one_hot_encode X [a] drop_first h)
  = returned (one_hot_encode X [(a + Z.of_nat (ncols x))%Z] drop_first h).
Proof.
  intros HX Ha.
  rewrite (returned_refines h h _ _ (one_hot_encode_refines X [a] drop_first x h HX)).
  rewrite (returned_refines h h _ _
             (one_hot_encode_refines X [(a + Z.of_nat (ncols x))%Z] drop_first x h HX)).
  unfold encoded. cbn [sorted_reverse fold_right insert_desc encoded_columns].
  now rewrite encoded_column_negative.
Qed.

Lemma one_hot_encode_negative_index_witness :
  let x := Typed Object (Mat 3 [[CStr "a"; CNum 10; CStr "u"];
                                [CStr "b"; CNum 20; CStr "v"]]) in
  returned (one_hot_encode 0 [(-3)%Z] true ({[ 0 := x ]} : heap))
  = returned (one_hot_encode 0 [0%Z] true ({[ 0 := x ]} : heap)).
Proof.
  intros x.
  apply (one_hot_encode_negative_index 0 ({[ 0 := x ]} : heap) x true (-3)%Z).
  - reflexivity.
  - cbn. lia.
Defined.

(** One pass of the loop for an index in range, whatever [X_transformed]
    holds, as long as it has a row for every row of [X]. *)
Lemma encoded_column_rows (x t : tarray) (drop_first : bool)
    (f : list cell -> list cell) (c : nat) :
  c < ncols x ->
  homogeneous (get_column c x) = true ->
  rows t = map f (rows x) ->
  let u := uniques x c in
  let lo := Nat.min c (ncols t) in
  let hi := Nat.min (S c) (ncols t) in
  encoded_column x drop_first t (Z.of_nat c)
  = Ok (Typed (dtype_of t)
          (Mat (lo + block_width u drop_first + (ncols t - hi))
               (map (fun r => take lo (f r)
                              ++ stored (dtype_of t)
                                   (inserted_block u drop_first (nth c r (CNum 0)))
                              ++ drop hi (f r))
                    (rows x)))).
Proof.
  intros Hc Hhom Ht u lo hi. unfold encoded_column.
  rewrite index_position_nat by assumption. cbn [res_bind].
  rewrite (np_unique_uniques x c Hhom). cbn [res_bind]. fold u.
  destruct (rows_one_hot x drop_first c u) as (Hoh & Hw & Hd).
  set (oh := if drop_first then columns_from 1 (one_hot_block (get_column c x) u)
             else one_hot_block (get_column c x) u) in *.
  rewrite (hstack_block _ oh _ (dtype_of t)); try reflexivity; try exact Hd.
  - unfold columns_before, columns_from.
    replace (slice_bound (ncols t) (Z.of_nat c)) with lo
      by (unfold slice_bound, lo; destruct (Z.ltb_spec (Z.of_nat c) 0); lia).
    replace (slice_bound (ncols t) (Z.of_nat c + 1)) with hi
      by (unfold slice_bound, hi; destruct (Z.ltb_spec (Z.of_nat c + 1) 0); lia).
    cbn [rows ncols cells]. rewrite Hw, Hoh, Ht. f_equal. f_equal. f_equal.
    rewrite !map_map, !zip_with_map_same. apply map_ext. intros r.
    now rewrite <- app_assoc.
  - unfold nrows, columns_before. cbn [rows cells].
    now rewrite length_map, Ht, Hoh, !length_map.
  - unfold nrows, columns_from. cbn [rows cells].
    now rewrite length_map, Ht, Hoh, !length_map.
Qed.

Lemma encoded_column_minus_one (x : tarray) (drop_first : bool) :
  0 < ncols x ->
  homogeneous (get_column (ncols x - 1) x) = true ->
  let c := ncols x - 1 in
  let u := uniques x c in
  encoded_column x drop_first x (-1)
  = Ok (Typed (dtype_of x)
          (Mat (c + block_width u drop_first + ncols x)
               (map (fun r => take c r
                              ++ stored (dtype_of x)
                                   (inserted_block u drop_first (nth c r (CNum 0)))
                              ++ r)
                    (rows x)))).
Proof.
  intros Hn Hhom c u. unfold encoded_column.
  rewrite index_position_negative by lia.
  replace (Z.to_nat (-1 + Z.of_nat (ncols x))) with c by (unfold c; lia).
  cbn [res_bind]. rewrite (np_unique_uniques x c Hhom). cbn [res_bind]. fold u.
  destruct (rows_one_hot x drop_first c u) as (Hoh & Hw & Hd).
  set (oh := if drop_first then columns_from 1 (one_hot_block (get_column c x) u)
             else one_hot_block (get_column c x) u) in *.
  rewrite (hstack_block _ oh _ (dtype_of x)); try reflexivity; try exact Hd.
  - unfold columns_before, columns_from.
    replace (slice_bound (ncols x) (-1)) with c
      by (unfold slice_bound, c; destruct (Z.ltb_spec (-1) 0); lia).
    replace (slice_bound (ncols x) (-1 + 1)) with 0
      by (unfold slice_bound; destruct (Z.ltb_spec (-1 + 1) 0); lia).
    cbn [rows ncols cells]. rewrite Hw, Hoh, Nat.sub_0_r. f_equal. f_equal. f_equal.
    rewrite !map_map, !zip_with_map_same.
    apply map_ext. intros r.
    now rewrite drop_0, <- app_assoc.
  - unfold nrows, columns_before. cbn [rows cells].
    now rewrite length_map, Hoh, !length_map.
  - unfold nrows, columns_from. cbn [rows cells].
    now rewrite length_map, Hoh, !length_map.
Qed.

(** X20. The index [-1] is not the last column's index for
    [one_hot_encode]: the column encoded is the last one, but the slice
    [X_transformed[:, index+1:]] is then [X_transformed[:, 0:]], the whole
    array. Every row of the result is the row without its last entry, the
    block of the last column as an array of the type of [X] stores it, and
    then the whole row of [X] again, the encoded column included. *)
Theorem one_hot_encode_minus_one (X : loc) (h : heap) (x : tarray)
    (drop_first : bool) :
  h !! X = Some x ->
  0 < ncols x ->
  homogeneous (get_column (ncols x - 1) x) = true ->
  let c := ncols x - 1 in
  let u := uniques x c in
  returned (one_hot_encode X [(-1)%Z] drop_first h)
  = Ok (Some (Typed (dtype_of x)
                (Mat (c + block_width u drop_first + ncols x)
                     (map (fun r => take c r
                                    ++ stored (dtype_of x)
                                         (inserted_block u drop_first (nth c r (CNum 0)))
                                    ++ r)
                          (rows x))))).
Proof.
  intros HX Hn Hhom c u.
  rewrite (returned_refines h h _ _ (one_hot_encode_refines X [(-1)%Z] drop_first x h HX)).
  unfold encoded. cbn [sorted_reverse fold_right insert_desc encoded_columns].
  now rewrite (encoded_column_minus_one x drop_first Hn Hhom).
Qed.

Lemma one_hot_encode_minus_one_witness :
  let x := Typed Object (Mat 2 [[CNum 10; CStr "u"]; [CNum 20; CStr "v"]]) in
  returned (one_hot_encode 0 [(-1)%Z] false ({[ 0 := x ]} : heap))
  = Ok (Some (Typed Object (Mat 5 [[CNum 10; CNum 1; CNum 0; CNum 10; CStr "u"];
                                   [CNum 20; CNum 0; CNum 1; CNum 20; CStr "v"]]))).
Proof.
  intros x.
  apply (one_hot_encode_minus_one 0 ({[ 0 := x ]} : heap) x false);
    [reflexivity | cbn; lia | reflexivity].
Defined.

(** X21. An index listed twice is encoded twice: the second pass puts the
    block of the column in the place of the first indicator of the first
    pass. When the block is not empty, every row of the result has the
    entries before the column, the block, the block again without its
    first entry, and the entries after the column; the block is as an array
    of the type of [X] stores it, strings in a string array. *)
Theorem one_hot_encode_repeated_index (X : loc) (h : heap) (x : tarray)
    (drop_first : bool) (c : nat) :
  h !! X = Some x ->
  rectangular x ->
  c < ncols x ->
  homogeneous (get_column c x) = true ->
  let u := uniques x c in
  let k := block_width u drop_first in
  0 < k ->
  returned (one_hot_encode X [Z.of_nat c; Z.of_nat c] drop_first h)
  = Ok (Some (Typed (dtype_of x)
                (Mat (c + k + (k - 1) + (ncols x - S c))
                     (map (fun r =>
                             let block :=
                               stored (dtype_of x)
                                 (inserted_block u drop_first (nth c r (CNum 0))) in
                             take c r ++ block ++ drop 1 block ++ drop (S c) r)
                          (rows x))))).
Proof.
  intros HX Hrect Hc Hhom u k Hk.
  rewrite (returned_refines h h _ _
             (one_hot_encode_refines X [Z.of_nat c; Z.of_nat c] drop_first x h HX)).
  unfold encoded. cbn [sorted_reverse fold_right insert_desc].
  rewrite Z.leb_refl. cbn [encoded_columns].
  rewrite (encoded_column_rows x x drop_first (fun r => r) c Hc Hhom)
    by (symmetry; apply map_id).
  cbn [res_bind]. fold u. fold k.
  replace (c `min` ncols x) with c by lia.
  replace (S c `min` ncols x) with (S c) by lia.
  set (t1 := Typed _ _).
  rewrite (encoded_column_rows x t1 drop_first
             (fun r => take c r
                       ++ stored (dtype_of x)
                            (inserted_block u drop_first (nth c r (CNum 0)))
                       ++ drop (S c) r) c Hc Hhom) by reflexivity.
  cbn [res_bind]. fold u. fold k. unfold t1. cbn [ncols cells dtype_of].
  replace (c `min` (c + k + (ncols x - S c))) with c by lia.
  replace (S c `min` (c + k + (ncols x - S c))) with (S c) by lia.
  f_equal. f_equal. f_equal. f_equal; [lia |].
  apply map_ext_in. intros r Hr. cbv zeta.
  pose proof (rectangular_length x r Hrect Hr) as Hlen.
  pose proof (length_inserted_block u drop_first (nth c r (CNum 0))) as Hb.
  fold k in Hb.
  pose proof (length_stored (dtype_of x)
                (inserted_block u drop_first (nth c r (CNum 0)))) as Hst.
  rewrite Hb in Hst.
  assert (Htk : length (take c r) = c) by (rewrite length_take; lia).
  rewrite take_app_le by lia. rewrite take_take.
  replace (c `min` c) with c by lia.
  f_equal. f_equal.
  rewrite drop_app_ge by lia. rewrite Htk.
  replace (S c - c) with 1 by lia.
  rewrite drop_app_le by lia. reflexivity.
Qed.

Lemma one_hot_encode_repeated_index_witness :
  returned (one_hot_encode 0 [0%Z; 0%Z] false ({[ 0 := colours_as_objects ]} : heap))
  = Ok (Some (Typed Object (Mat 3 [[CNum 0; CNum 1; CNum 1];
                                   [CNum 1; CNum 0; CNum 0];
                                   [CNum 0; CNum 1; CNum 1]]))).
Proof.
  apply (one_hot_encode_repeated_index 0 ({[ 0 := colours_as_objects ]} : heap)
           colours_as_objects false 0).
  - reflexivity.
  - repeat constructor.
  - cbn. lia.
  - reflexivity.
  - vm_compute. lia.
Defined.
